(** * Markdown serializer of lexical-markdown: a shallow embedding

    Source: [packages/lexical-markdown/src/MarkdownConvertor.ts].  The
    repository carries two revisions of that file.  The fields of
    [MarkdownConvertorState], the output primitives and the block-level
    methods ([closeBlock], [close], [wrapBlock], [convertBlock],
    [convertNode]) are the same in both and are embedded once; what
    differs lives in two modules:

    - [RevA] (lines 1-620): [getInlineText], [flushInlineText] and
      [closeInlineText], the tag-stack reconciler, with the link and
      heading conversions in the built-in map;
    - [RevB] (lines 622-1124): [flushInline], the common-prefix
      reconciler, with the heading conversion in a map of its own.

    Strings are [string] (sequences of 8-bit code units), optional
    properties are [option], the mutable state object is threaded
    explicitly, [conversionMap[type]] is a [gmap] lookup, and the host
    document tree is an interface, [LexicalHost].

    Layout: the embedding, then auxiliary definitions for the proofs,
    then the theorems (strings, state primitives, dispatcher, the two
    reconcilers, relations kept by the operations, built-in
    conversions). *)

From Stdlib Require Import ZArith Ascii.
From stdpp Require Import base strings list gmap.

#[local] Set Warnings "-register-all".

(** ** String primitives of the host language *)

Module Str.

(** ['\n'] *)
Definition nl : string := String "010"%char "".

(** The quotation mark (U+0022) of the link template literal. *)
Definition dquote : string := String "034"%char "".

(** Truthiness of a string: [if (content)], [this._delim && ...]. *)
Definition truthy (s : string) : bool :=
  match s with "" => false | String _ _ => true end.

(** [x || y] on strings. *)
Definition or_else (x y : string) : string := if truthy x then x else y.

(** [/\n$/.test(s)]: without the [m] flag [$] is the end of input. *)
Fixpoint endsWithNewline (s : string) : bool :=
  match s with
  | "" => false
  | String c s' =>
      match s' with
      | "" => Ascii.eqb c "010"
      | String _ _ => endsWithNewline s'
      end
  end.

(** [/(^|\n)$/.test(s)]: the first alternative needs the start of input
    to be its end, the second a final line feed. *)
Definition test_blank (s : string) : bool :=
  negb (truthy s) || endsWithNewline s.

(** The class [\s] restricted to 8-bit code units. *)
Definition isWhiteSpace (c : ascii) : bool :=
  match c with
  | "009" | "010" | "011" | "012" | "013" | " " | "160" => true
  | _ => false
  end%char.

(** [s.slice(0, s.length - m[0].length)] for [m = /\s+$/.exec(s)], and
    [s] itself when there is no match. *)
Fixpoint trimTrailing (s : string) : string :=
  match s with
  | "" => ""
  | String c s' =>
      let t := trimTrailing s' in
      if negb (truthy t) && isWhiteSpace c then "" else String c t
  end.

(** [s.repeat(n)] *)
Fixpoint repeat (s : string) (n : nat) : string :=
  match n with
  | 0 => ""
  | S n' => s +:+ repeat s n'
  end.

(** [l.join('')] *)
Fixpoint join (l : list string) : string :=
  match l with
  | [] => ""
  | s :: l' => s +:+ join l'
  end.

(** [s.split('\n')]: never empty, [''.split('\n')] is [['']]. *)
Fixpoint split_nl (s : string) : list string :=
  match s with
  | "" => [""]
  | String c s' =>
      if Ascii.eqb c "010" then "" :: split_nl s'
      else match split_nl s' with
           | [] => [String c ""]
           | l :: ls => String c l :: ls
           end
  end.

(** [s.substring(1)] *)
Definition substring1 (s : string) : string :=
  match s with "" => "" | String _ s' => s' end.

(** [Number(s)] on unsigned decimal literals, the only strings that
    reach it here ([HeadingTagType] is ['h1'] to ['h6']); [None] is
    [NaN]. *)
Fixpoint parseDigits (acc : nat) (s : string) : option nat :=
  match s with
  | "" => Some acc
  | String c s' =>
      match Ascii.is_nat c with
      | Some d => parseDigits (10 * acc + d) s'
      | None => None
      end
  end.
Definition Number (s : string) : option nat := parseDigits 0 s.

(** The count [String.prototype.repeat] derives from a number: [NaN]
    counts as zero. *)
Definition repeatCount (n : option nat) : nat := default 0 n.

End Str.

(** ** The host document tree *)

(** Modelled from the spec: the host tree ([lexical], [@lexical/link] and
    [@lexical/rich-text] are imported, not part of the source).  The
    serializer reads a node only through the queries below: its type
    name, its ordered children, the type guards [$isXNode], and the
    accessors of text, format, heading tag and link nodes.  The static
    [XNode.getType()] strings key the built-in conversion map. *)
Class LexicalHost := {
  LexicalNode : Type;
  getType : LexicalNode -> string;
  getChildren : LexicalNode -> list LexicalNode;
  isElementNode : LexicalNode -> bool;
  isBlockElementNode : LexicalNode -> bool;
  isDecoratorNode : LexicalNode -> bool;
  isTextNode : LexicalNode -> bool;
  isLineBreakNode : LexicalNode -> bool;
  isTabNode : LexicalNode -> bool;
  isParagraphNode : LexicalNode -> bool;
  isHeadingNode : LexicalNode -> bool;
  isLinkNode : LexicalNode -> bool;
  isAutoLinkNode : LexicalNode -> bool;
  hasFormat : LexicalNode -> string -> bool;
  getTextContent : LexicalNode -> string;
  isEmpty : LexicalNode -> bool;
  getTag : LexicalNode -> string;
  getURL : LexicalNode -> string;
  getTitle : LexicalNode -> option string;
  getIsUnlinked : LexicalNode -> bool;
  TextNode_getType : string;
  LineBreakNode_getType : string;
  TabNode_getType : string;
  ParagraphNode_getType : string;
  LinkNode_getType : string;
  HeadingNode_getType : string
}.

(** ** Inline runs *)

(** [type InlineFormat]; [htmlInline?: boolean] is an optional property. *)
Record InlineFormat := mkFormat {
  type : string;
  openTag : string;
  closeTag : string;
  htmlInline : option bool
}.

(** [type InlineText] *)
Record InlineText := mkInline {
  text : string;
  formats : list InlineFormat
}.

Global Instance InlineFormat_eq_dec : EqDecision InlineFormat.
Proof. solve_decision. Defined.

Global Instance InlineText_eq_dec : EqDecision InlineText.
Proof. solve_decision. Defined.

(** ** The serialization state (shared by both revisions) *)

Section State.
Context `{LexicalHost}.

(** The fields of [class MarkdownConvertorState].  The conversion
    collection is fixed by the constructor and never assigned again, so
    it travels beside the state instead of inside it. *)
Record MarkdownConvertorState := mkState {
  _delim : string;
  _result : string;
  _closed : option LexicalNode;
  _stopNewline : bool;
  _inlineBuffer : list InlineText
}.

(** The object the constructor leaves behind. *)
Definition newState : MarkdownConvertorState :=
  {| _delim := ""; _result := ""; _closed := None;
     _stopNewline := false; _inlineBuffer := [] |}.

Definition addOutput (output : string) (st : MarkdownConvertorState)
  : MarkdownConvertorState :=
  {| _delim := _delim st; _result := _result st +:+ output;
     _closed := _closed st; _stopNewline := _stopNewline st;
     _inlineBuffer := _inlineBuffer st |}.

Definition isInBlank (st : MarkdownConvertorState) : bool :=
  Str.test_blank (_result st).

Definition setDelim (delim : string) (st : MarkdownConvertorState)
  : MarkdownConvertorState :=
  {| _delim := delim; _result := _result st;
     _closed := _closed st; _stopNewline := _stopNewline st;
     _inlineBuffer := _inlineBuffer st |}.

Definition getDelim (st : MarkdownConvertorState) : string := _delim st.

Definition setStopNewline (stopNewline : bool) (st : MarkdownConvertorState)
  : MarkdownConvertorState :=
  {| _delim := _delim st; _result := _result st;
     _closed := _closed st; _stopNewline := stopNewline;
     _inlineBuffer := _inlineBuffer st |}.

Definition getStopNewline (st : MarkdownConvertorState) : bool :=
  _stopNewline st.

Definition getClosed (st : MarkdownConvertorState) : option LexicalNode :=
  _closed st.

Definition getResult (st : MarkdownConvertorState) : string := _result st.

(** Assignment to [this._closed], used by [flushClose], [closeBlock]
    and [close]. *)
Definition setClosed (closed : option LexicalNode)
  (st : MarkdownConvertorState) : MarkdownConvertorState :=
  {| _delim := _delim st; _result := _result st;
     _closed := closed; _stopNewline := _stopNewline st;
     _inlineBuffer := _inlineBuffer st |}.

(** Assignment to [this._inlineBuffer]. *)
Definition setInlineBuffer (inlineBuffer : list InlineText)
  (st : MarkdownConvertorState) : MarkdownConvertorState :=
  {| _delim := _delim st; _result := _result st;
     _closed := _closed st; _stopNewline := _stopNewline st;
     _inlineBuffer := inlineBuffer |}.

Definition ensureNewLine (st : MarkdownConvertorState)
  : MarkdownConvertorState :=
  if isInBlank st then st else addOutput Str.nl st.

(** [flushClose(size)].  [size] is an integer; the loop
    [for (let i = 1; i < size; i += 1)] runs [size - 1] times when
    [size > 1]. *)
Definition flushClose (size : Z) (st : MarkdownConvertorState)
  : MarkdownConvertorState :=
  if _stopNewline st || negb (bool_decide (is_Some (_closed st))) then st
  else
    let st := if negb (isInBlank st) then addOutput Str.nl st else st in
    let st :=
      if (1 <? size)%Z then
        let delimMin := Str.trimTrailing (_delim st) in
        Nat.iter (Z.to_nat (size - 1)) (addOutput (delimMin +:+ Str.nl)) st
      else st in
    setClosed None st.

(** [write(content = '')] *)
Definition write (content : string) (st : MarkdownConvertorState)
  : MarkdownConvertorState :=
  let st := flushClose 2 st in
  let st :=
    if Str.truthy (_delim st) && isInBlank st
    then addOutput (_delim st) st else st in
  if Str.truthy content then addOutput content st else st.

(** The loop of the method [text], over the lines still to write. *)
Fixpoint text_lines (lines : list string) (st : MarkdownConvertorState)
  : MarkdownConvertorState :=
  match lines with
  | [] => st
  | line :: rest =>
      let st := addOutput line (write "" st) in
      match rest with
      | [] => st
      | _ :: _ => text_lines rest (addOutput Str.nl st)
      end
  end.

(** The method [text(text)]; primed, [text] being the field of
    [InlineText]. *)
Definition text' (text : string) (st : MarkdownConvertorState)
  : MarkdownConvertorState :=
  text_lines (Str.split_nl text) st.

Definition writeInline (inlineText : InlineText)
  (st : MarkdownConvertorState) : MarkdownConvertorState :=
  setInlineBuffer (_inlineBuffer st ++ [inlineText]) st.

Definition closeBlock (node : LexicalNode) (st : MarkdownConvertorState)
  : MarkdownConvertorState :=
  setClosed (Some node) st.

Definition close (st : MarkdownConvertorState) : MarkdownConvertorState :=
  setClosed None st.

(** [wrapBlock(delim, firstDelim, node, fn)]; [fn] is a closure over
    the state. *)
Definition wrapBlock (delim : string) (firstDelim : option string)
  (node : LexicalNode)
  (fn : MarkdownConvertorState -> MarkdownConvertorState)
  (st : MarkdownConvertorState) : MarkdownConvertorState :=
  let prevDelim := getDelim st in
  let st := write (Str.or_else (default "" firstDelim) delim) st in
  let st := setDelim (getDelim st +:+ delim) st in
  let st := fn st in
  let st := setDelim prevDelim st in
  closeBlock node st.

(** *** Conversions and their dispatch *)

(** What a conversion sees of [state.convertBlock]: the dispatcher
    bound to the collection. *)
Definition Dispatch : Type :=
  LexicalNode -> MarkdownConvertorState -> MarkdownConvertorState.

(** [type MarkdownConversion]; [priority?: 0 | 1 | 2 | 3 | 4].  The
    [state] argument of [conversion] is the pair of the dispatcher and
    the mutable fields. *)
Record MarkdownConversion := mkConversion {
  conversion :
    Dispatch -> LexicalNode -> MarkdownConvertorState -> MarkdownConvertorState;
  priority : option nat
}.

(** [conversion.priority || 0] *)
Definition priorityOf (c : MarkdownConversion) : nat :=
  default 0 (priority c).

(** One pass of the loop of [convertBlock] over a conversion map.
    [conversionMap[node.getType()]] reads an own property of the map:
    node type names are taken not to collide with the properties every
    object inherits. *)
Definition considerMap (node : LexicalNode)
  (conversion : option MarkdownConversion)
  (conversionMap : gmap string (LexicalNode -> option MarkdownConversion))
  : option MarkdownConversion :=
  match conversionMap !! getType node with
  | None => conversion
  | Some getConversion =>
      match getConversion node with
      | None => conversion
      | Some markdownConversion =>
          match conversion with
          | Some prev =>
              if priorityOf prev <? priorityOf markdownConversion
              then Some markdownConversion
              else conversion
          | None => Some markdownConversion
          end
      end
  end.

(** The value of [conversion] when the loop of [convertBlock] ends.
    The [Set] is walked in insertion order, here the order of the list.
    A [Set] holds a map registered twice only once; in a list the second
    copy offers a conversion that is never strictly above the one kept,
    so the selection is the same. *)
Definition selectConversion
  (collection : list (gmap string (LexicalNode -> option MarkdownConversion)))
  (node : LexicalNode) : option MarkdownConversion :=
  fold_left (considerMap node) collection None.

(** [convertBlock(node)].  A conversion may dispatch on any node, so
    the recursion is bounded by [fuel]; out of fuel the state is
    returned as it is. *)
Fixpoint convertBlock (fuel : nat)
  (collection : list (gmap string (LexicalNode -> option MarkdownConversion)))
  (node : LexicalNode) (st : MarkdownConvertorState)
  : MarkdownConvertorState :=
  match fuel with
  | 0 => st
  | S fuel' =>
      match selectConversion collection node with
      | Some c => conversion c (convertBlock fuel' collection) node st
      | None => st
      end
  end.

(** [children.forEach((child) => this.convertBlock(child))] *)
Definition forEach_convert (dispatch : Dispatch)
  (children : list LexicalNode) (st : MarkdownConvertorState)
  : MarkdownConvertorState :=
  fold_left (fun st child => dispatch child st) children st.

(** [convertNode(parent)] *)
Definition convertNode (dispatch : Dispatch) (parent : LexicalNode)
  (st : MarkdownConvertorState) : MarkdownConvertorState :=
  forEach_convert dispatch (getChildren parent) st.

End State.

(** An object literal with computed keys: properties are assigned in
    order, a later duplicate key replacing the earlier one. *)
Definition objectLiteral {V : Type} (props : list (string * V))
  : gmap string V :=
  fold_left (fun m kv => <[kv.1 := kv.2]> m) props ∅.

(** ** Revision B: the common-prefix reconciler (lines 622-1124) *)

Module RevB.
Section Convertor.
Context `{LexicalHost}.

(** [openTags] of [flushInline] *)
Definition openTags (formats : list InlineFormat) : string :=
  Str.join (map openTag formats).

(** [closeTags] of [flushInline]: [slice().reverse().map(closeTag).join('')] *)
Definition closeTags (formats : list InlineFormat) : string :=
  Str.join (map closeTag (reverse formats)).

(** The test of the [while] loop at one position:
    [prevFormats[common].type === formats[common].type &&
     prevFormats[common].htmlInline === formats[common].htmlInline]. *)
Definition sameAt (p f : InlineFormat) : bool :=
  String.eqb (type p) (type f) && bool_decide (htmlInline p = htmlInline f).

(** The value of [common] when the [while] loop stops: the loop walks
    both arrays from position 0 and stops at the first position that is
    outside either array or fails [sameAt]. *)
Fixpoint commonLength (prevFormats formats : list InlineFormat) : nat :=
  match prevFormats, formats with
  | p :: prevFormats', f :: formats' =>
      if sameAt p f then S (commonLength prevFormats' formats') else 0
  | _, _ => 0
  end.

(** One turn of the [for] loop of [flushInline], on the pair
    [(result, prevFormats)]. *)
Definition flushInline_step (acc : string * list InlineFormat)
  (run : InlineText) : string * list InlineFormat :=
  let '(result, prevFormats) := acc in
  let common := commonLength prevFormats (formats run) in
  let toClose := drop common prevFormats in
  let result := result +:+ closeTags toClose in
  let toOpen := drop common (formats run) in
  let result := result +:+ openTags toOpen in
  let result := result +:+ text run in
  (result, formats run).

(** The local [result] of [flushInline] when it is handed to [write]. *)
Definition flushInline_result (inlineBuffer : list InlineText) : string :=
  let '(result, prevFormats) :=
    fold_left flushInline_step inlineBuffer ("", []) in
  result +:+ closeTags prevFormats.

Definition flushInline (st : MarkdownConvertorState)
  : MarkdownConvertorState :=
  setInlineBuffer [] (write (flushInline_result (_inlineBuffer st)) st).

Definition convertInline (dispatch : Dispatch) (parent : LexicalNode)
  (st : MarkdownConvertorState) : MarkdownConvertorState :=
  let st :=
    if isElementNode parent
    then forEach_convert dispatch (getChildren parent) st
    else dispatch parent st in
  flushInline st.

(** The loop of [convertList] over the children still to convert. *)
Fixpoint convertList_children (dispatch : Dispatch) (node : LexicalNode)
  (delim : string) (firstDelimFn : nat -> string) (index : nat)
  (children : list LexicalNode) (st : MarkdownConvertorState)
  : MarkdownConvertorState :=
  match children with
  | [] => st
  | child :: rest =>
      let st := if index is 0 then st else flushClose 1 st in
      let st :=
        wrapBlock delim (Some (firstDelimFn index)) node (dispatch child) st in
      convertList_children dispatch node delim firstDelimFn (S index) rest st
  end.

Definition convertList (dispatch : Dispatch) (node : LexicalNode)
  (delim : string) (firstDelimFn : nat -> string)
  (st : MarkdownConvertorState) : MarkdownConvertorState :=
  let closed := getClosed st in
  let st :=
    match closed with
    | Some c =>
        if String.eqb (getType c) (getType node)
        then flushClose 3 st else flushClose 1 st
    | None => flushClose 1 st
    end in
  convertList_children dispatch node delim firstDelimFn 0 (getChildren node) st.

Definition convertTableCell_child (dispatch : Dispatch)
  (st : MarkdownConvertorState) (child : LexicalNode)
  : MarkdownConvertorState :=
  if isParagraphNode child then close (dispatch child st)
  else if isBlockElementNode child || isDecoratorNode child then close st
  else convertInline dispatch child st.

Definition convertTableCell (dispatch : Dispatch) (node : LexicalNode)
  (st : MarkdownConvertorState) : MarkdownConvertorState :=
  let st := setStopNewline true st in
  let st := fold_left (convertTableCell_child dispatch) (getChildren node) st in
  setStopNewline false st.

(** The [formats] array the text conversion builds, in push order. *)
Definition textFormats (node : LexicalNode) : list InlineFormat :=
  (if hasFormat node "bold"
   then [mkFormat "bold" "**" "**" None] else []) ++
  (if hasFormat node "strikethrough"
   then [mkFormat "strikethrough" "~~" "~~" None] else []) ++
  (if hasFormat node "italic"
   then [mkFormat "italic" "*" "*" None] else []) ++
  (if hasFormat node "code"
   then [mkFormat "code" "`" "`" None] else []) ++
  (if hasFormat node "highlight"
   then [mkFormat "highlight" "<mark>" "</mark>" (Some true)] else []) ++
  (if hasFormat node "underline"
   then [mkFormat "underline" "<u>" "</u>" (Some true)] else []) ++
  (if hasFormat node "subscript"
   then [mkFormat "subscript" "<sub>" "</sub>" (Some true)] else []) ++
  (if hasFormat node "superscript"
   then [mkFormat "superscript" "<sup>" "</sup>" (Some true)] else []).

Definition textConversion (dispatch : Dispatch) (node : LexicalNode)
  (st : MarkdownConvertorState) : MarkdownConvertorState :=
  if negb (isTextNode node) then st
  else writeInline {| formats := textFormats node;
                      text := getTextContent node |} st.

Definition lineBreakConversion (dispatch : Dispatch) (node : LexicalNode)
  (st : MarkdownConvertorState) : MarkdownConvertorState :=
  if negb (isLineBreakNode node) then st
  else ensureNewLine st.

Definition tabConversion (dispatch : Dispatch) (__node : LexicalNode)
  (st : MarkdownConvertorState) : MarkdownConvertorState :=
  write (Str.repeat " " 4) st.

Definition paragraphConversion (dispatch : Dispatch) (node : LexicalNode)
  (st : MarkdownConvertorState) : MarkdownConvertorState :=
  if negb (isParagraphNode node) then st
  else
    let stopNewline := getStopNewline st in
    if stopNewline then convertInline dispatch node st
    else
      let st :=
        if isEmpty node then write "<br>" st
        else convertInline dispatch node st in
      closeBlock node st.

Definition headingConversion (dispatch : Dispatch) (node : LexicalNode)
  (st : MarkdownConvertorState) : MarkdownConvertorState :=
  if negb (isHeadingNode node) then st
  else
    let delim :=
      Str.repeat "#"
        (Str.repeatCount (Str.Number (Str.substring1 (getTag node)))) in
    let st := write (delim +:+ " ") st in
    let st := convertInline dispatch node st in
    closeBlock node st.

Definition defaultMarkdownConversionMap
  : gmap string (LexicalNode -> option MarkdownConversion) :=
  objectLiteral [
    (TextNode_getType,
     fun _ => Some {| conversion := textConversion; priority := Some 0 |});
    (LineBreakNode_getType,
     fun _ => Some {| conversion := lineBreakConversion; priority := Some 0 |});
    (TabNode_getType,
     fun node =>
       if negb (isTabNode node) then None
       else Some {| conversion := tabConversion; priority := Some 0 |});
    (ParagraphNode_getType,
     fun _ => Some {| conversion := paragraphConversion; priority := Some 0 |})
  ].

Definition headingMarkdownConversionMap
  : gmap string (LexicalNode -> option MarkdownConversion) :=
  objectLiteral [
    (HeadingNode_getType,
     fun _ => Some {| conversion := headingConversion; priority := Some 0 |})
  ].

(** [createGenerateMarkdownFromNode(...maps)(node)].  The collection is
    the [Set] of the built-in map followed by the supplied ones. *)
Definition createGenerateMarkdownFromNode (fuel : nat)
  (markdownConversionCollection :
     list (gmap string (LexicalNode -> option MarkdownConversion)))
  (node : LexicalNode) : string :=
  let conversionCollection :=
    defaultMarkdownConversionMap :: markdownConversionCollection in
  let state := newState in
  getResult (convertNode (convertBlock fuel conversionCollection) node state).

End Convertor.
End RevB.

(** ** Revision A: the tag-stack reconciler (lines 1-620) *)

Module RevA.
Section Convertor.
Context `{LexicalHost}.

(** [isSameFormat(format)] applied to the destructured
    [{type, openTag, htmlInline}]. *)
Definition isSameFormat (format f : InlineFormat) : bool :=
  String.eqb (type f) (type format) &&
  String.eqb (openTag f) (openTag format) &&
  bool_decide (htmlInline f = htmlInline format).

(** The closure [hasFormat] of [getInlineText]; [None] is [undefined],
    the value of an array read outside its bounds. *)
Definition hasFormatIn (inlineText : option InlineText)
  (format : InlineFormat) : bool :=
  match inlineText with
  | None => false
  | Some it => existsb (isSameFormat format) (formats it)
  end.

(** One turn of the first loop of [process], on
    [(applied, unclosedTags, openingTags)].  [applied] is a [Set] of
    object references; every slot of a [formats] array holds an object
    of its own, so a reference is represented by its position. *)
Definition process_open (inlineText : InlineText)
  (prevInlineText : option InlineText)
  (acc : list nat * list InlineFormat * string)
  (slot : nat * InlineFormat) : list nat * list InlineFormat * string :=
  let '(applied, unclosedTags, openingTags) := acc in
  let '(i, format) := slot in
  if hasFormatIn (Some inlineText) format && negb (bool_decide (i ∈ applied))
  then
    let applied := applied ++ [i] in
    if negb (hasFormatIn prevInlineText format) ||
       negb (existsb (isSameFormat format) unclosedTags)
    then (applied, unclosedTags ++ [format], openingTags +:+ openTag format)
    else (applied, unclosedTags, openingTags)
  else acc.

(** The second loop of [process] up to its [break]: the first position
    [i] of [unclosedTags] whose tag the run or its successor lacks, with
    [nodeHasFormat] and [nextNodeHasFormat] there. *)
Fixpoint process_scan (inlineText : InlineText)
  (nextInlineText : option InlineText) (i : nat)
  (tags : list InlineFormat) : option (nat * bool * bool) :=
  match tags with
  | [] => None
  | tag :: tags' =>
      let nodeHasFormat := hasFormatIn (Some inlineText) tag in
      let nextNodeHasFormat := hasFormatIn nextInlineText tag in
      if nodeHasFormat && nextNodeHasFormat
      then process_scan inlineText nextInlineText (S i) tags'
      else Some (i, nodeHasFormat, nextNodeHasFormat)
  end.

(** One turn of the inner [while] loop, on
    [(closingTagsBefore, closingTagsAfter, unclosedTags)], for the tag
    just popped from the copy. *)
Definition process_close (unclosableTags : list InlineFormat)
  (nodeHasFormat nextNodeHasFormat : bool)
  (acc : string * string * list InlineFormat)
  (unclosedTag : InlineFormat) : string * string * list InlineFormat :=
  let '(closingTagsBefore, closingTagsAfter, unclosedTags) := acc in
  if existsb (isSameFormat unclosedTag) unclosableTags then acc
  else
    let closingTagsBefore :=
      if negb nodeHasFormat
      then closingTagsBefore +:+ closeTag unclosedTag
      else closingTagsBefore in
    let closingTagsAfter :=
      if negb nodeHasFormat then closingTagsAfter
      else if negb nextNodeHasFormat
           then closingTagsAfter +:+ closeTag unclosedTag
           else closingTagsAfter in
    (closingTagsBefore, closingTagsAfter, removelast unclosedTags).

(** [process(inlineText, index, unclosedTags, unclosableTags)]: the
    string returned and the array [unclosedTags] as the call leaves it. *)
Definition process (inlineBuffer : list InlineText)
  (inlineText : InlineText) (index : nat)
  (unclosedTags unclosableTags : list InlineFormat)
  : string * list InlineFormat :=
  let output := text inlineText in
  let prevInlineText :=
    match index with 0 => None | S i => inlineBuffer !! i end in
  let nextInlineText := inlineBuffer !! S index in
  let '(_, unclosedTags, openingTags) :=
    fold_left (process_open inlineText prevInlineText)
      (imap pair (formats inlineText)) ([], unclosedTags, "") in
  let '(closingTagsBefore, closingTagsAfter, unclosedTags) :=
    match process_scan inlineText nextInlineText 0 unclosedTags with
    | None => ("", "", unclosedTags)
    | Some (i, nodeHasFormat, nextNodeHasFormat) =>
        let unhandledUnclosedTags := unclosedTags in
        fold_left (process_close unclosableTags nodeHasFormat nextNodeHasFormat)
          (reverse (drop i unhandledUnclosedTags)) ("", "", unclosedTags)
    end in
  let output := openingTags +:+ output +:+ closingTagsAfter in
  (closingTagsBefore +:+ output, unclosedTags).

(** [inlineBuffer.map((inlineText, index) => process(...))], from
    position [index] on; the array [unclosedTags] is shared by the calls. *)
Fixpoint getInlineText_map (inlineBuffer : list InlineText) (index : nat)
  (rest : list InlineText) (unclosedTags unclosableTags : list InlineFormat)
  : list string :=
  match rest with
  | [] => []
  | inlineText :: rest' =>
      let '(output, unclosedTags) :=
        process inlineBuffer inlineText index unclosedTags unclosableTags in
      output ::
        getInlineText_map inlineBuffer (S index) rest' unclosedTags
          unclosableTags
  end.

Definition getInlineText (st : MarkdownConvertorState) : string :=
  let inlineBuffer := _inlineBuffer st in
  if length inlineBuffer =? 0 then ""
  else
    let unclosedTags := [] in
    let unclosableTags := [] in
    Str.join
      (getInlineText_map inlineBuffer 0 inlineBuffer unclosedTags
         unclosableTags).

Definition closeInlineText (st : MarkdownConvertorState)
  : MarkdownConvertorState :=
  setInlineBuffer [] st.

Definition flushInlineText (st : MarkdownConvertorState)
  : MarkdownConvertorState :=
  let result := getInlineText st in
  closeInlineText (write result st).

Definition convertInline (dispatch : Dispatch) (parent : LexicalNode)
  (st : MarkdownConvertorState) : MarkdownConvertorState :=
  let st := flushInlineText st in
  let st :=
    if isElementNode parent
    then forEach_convert dispatch (getChildren parent) st
    else dispatch parent st in
  flushInlineText st.

(** The loop of [convertList] over the children still to convert. *)
Fixpoint convertList_children (dispatch : Dispatch) (node : LexicalNode)
  (delim : string) (firstDelimFn : nat -> string) (index : nat)
  (children : list LexicalNode) (st : MarkdownConvertorState)
  : MarkdownConvertorState :=
  match children with
  | [] => st
  | child :: rest =>
      let st := if index is 0 then st else flushClose 1 st in
      let st :=
        wrapBlock delim (Some (firstDelimFn index)) node (dispatch child) st in
      convertList_children dispatch node delim firstDelimFn (S index) rest st
  end.

Definition convertList (dispatch : Dispatch) (node : LexicalNode)
  (delim : string) (firstDelimFn : nat -> string)
  (st : MarkdownConvertorState) : MarkdownConvertorState :=
  let closed := getClosed st in
  let st :=
    match closed with
    | Some c =>
        if String.eqb (getType c) (getType node)
        then flushClose 3 st else flushClose 1 st
    | None => flushClose 1 st
    end in
  convertList_children dispatch node delim firstDelimFn 0 (getChildren node) st.

Definition convertTableCell_child (dispatch : Dispatch)
  (st : MarkdownConvertorState) (child : LexicalNode)
  : MarkdownConvertorState :=
  if isParagraphNode child then close (dispatch child st)
  else if isBlockElementNode child || isDecoratorNode child then close st
  else convertInline dispatch child st.

Definition convertTableCell (dispatch : Dispatch) (node : LexicalNode)
  (st : MarkdownConvertorState) : MarkdownConvertorState :=
  let st := setStopNewline true st in
  let st := fold_left (convertTableCell_child dispatch) (getChildren node) st in
  setStopNewline false st.

(** The [formats] array the text conversion builds, in push order. *)
Definition textFormats (node : LexicalNode) : list InlineFormat :=
  (if hasFormat node "bold"
   then [mkFormat "bold" "**" "**" None] else []) ++
  (if hasFormat node "italic"
   then [mkFormat "italic" "*" "*" None] else []) ++
  (if hasFormat node "strikethrough"
   then [mkFormat "strikethrough" "~~" "~~" None] else []) ++
  (if hasFormat node "highlight"
   then [mkFormat "highlight" "<mark>" "</mark>" (Some true)] else []) ++
  (if hasFormat node "underline"
   then [mkFormat "underline" "<u>" "</u>" (Some true)] else []) ++
  (if hasFormat node "subscript"
   then [mkFormat "subscript" "<sub>" "</sub>" (Some true)] else []) ++
  (if hasFormat node "superscript"
   then [mkFormat "superscript" "<sup>" "</sup>" (Some true)] else []) ++
  (if hasFormat node "code"
   then [mkFormat "code" "`" "`" None] else []).

Definition textConversion (dispatch : Dispatch) (node : LexicalNode)
  (st : MarkdownConvertorState) : MarkdownConvertorState :=
  if negb (isTextNode node) then st
  else writeInline {| formats := textFormats node;
                      text := getTextContent node |} st.

Definition lineBreakConversion (dispatch : Dispatch) (node : LexicalNode)
  (st : MarkdownConvertorState) : MarkdownConvertorState :=
  if negb (isLineBreakNode node) then st
  else ensureNewLine (flushInlineText st).

Definition tabConversion (dispatch : Dispatch) (__node : LexicalNode)
  (st : MarkdownConvertorState) : MarkdownConvertorState :=
  write (Str.repeat " " 4) st.

Definition paragraphConversion (dispatch : Dispatch) (node : LexicalNode)
  (st : MarkdownConvertorState) : MarkdownConvertorState :=
  if negb (isParagraphNode node) then st
  else
    let stopNewline := getStopNewline st in
    if stopNewline then convertInline dispatch node st
    else
      let st :=
        if isEmpty node then write "<br>" st
        else convertInline dispatch node st in
      closeBlock node st.

(** The two template literals of the link conversion. *)
Definition linkText (text url : string) (title : option string) : string :=
  if Str.truthy (default "" title)
  then "[" +:+ text +:+ "](" +:+ url +:+ " " +:+ Str.dquote +:+
       default "" title +:+ Str.dquote +:+ ")"
  else "[" +:+ text +:+ "](" +:+ url +:+ ")".

Definition linkConversion (dispatch : Dispatch) (node : LexicalNode)
  (st : MarkdownConvertorState) : MarkdownConvertorState :=
  if negb (isLinkNode node) then st
  else if isAutoLinkNode node && getIsUnlinked node
  then forEach_convert dispatch (getChildren node) st
  else
    let st := flushInlineText st in
    let st := forEach_convert dispatch (getChildren node) st in
    let text := getInlineText st in
    let st := closeInlineText st in
    let title := getTitle node in
    let url := getURL node in
    write (linkText text url title) st.

Definition headingConversion (dispatch : Dispatch) (node : LexicalNode)
  (st : MarkdownConvertorState) : MarkdownConvertorState :=
  if negb (isHeadingNode node) then st
  else
    let delim :=
      Str.repeat "#"
        (Str.repeatCount (Str.Number (Str.substring1 (getTag node)))) in
    let st := write (delim +:+ " ") st in
    let st := convertInline dispatch node st in
    closeBlock node st.

Definition defaultMarkdownConversionMap
  : gmap string (LexicalNode -> option MarkdownConversion) :=
  objectLiteral [
    (TextNode_getType,
     fun _ => Some {| conversion := textConversion; priority := Some 0 |});
    (LineBreakNode_getType,
     fun _ => Some {| conversion := lineBreakConversion; priority := Some 0 |});
    (TabNode_getType,
     fun node =>
       if negb (isTabNode node) then None
       else Some {| conversion := tabConversion; priority := Some 0 |});
    (ParagraphNode_getType,
     fun _ => Some {| conversion := paragraphConversion; priority := Some 0 |});
    (LinkNode_getType,
     fun _ => Some {| conversion := linkConversion; priority := Some 0 |});
    (HeadingNode_getType,
     fun _ => Some {| conversion := headingConversion; priority := Some 0 |})
  ].

(** [createGenerateMarkdownFromNode(...maps)(node)].  The collection is
    the [Set] of the built-in map followed by the supplied ones. *)
Definition createGenerateMarkdownFromNode (fuel : nat)
  (markdownConversionCollection :
     list (gmap string (LexicalNode -> option MarkdownConversion)))
  (node : LexicalNode) : string :=
  let conversionCollection :=
    defaultMarkdownConversionMap :: markdownConversionCollection in
  let state := newState in
  getResult (convertNode (convertBlock fuel conversionCollection) node state).

End Convertor.
End RevA.

(** ** The tag sequence behind the output of [flushInline] *)

Module Tags.

(** What [flushInline] appends to [result]: an opening tag of a format,
    a closing tag of a format, or the text of a run. *)
Inductive Token :=
| Open (f : InlineFormat)
| Close (f : InlineFormat)
| Chars (s : string).

Global Instance Token_eq_dec : EqDecision Token.
Proof. solve_decision. Defined.

Definition render (t : Token) : string :=
  match t with
  | Open f => openTag f
  | Close f => closeTag f
  | Chars s => s
  end.

Definition renderAll (ts : list Token) : string := Str.join (map render ts).

(** The turn of the [for] loop of [RevB.flushInline], recording each
    piece instead of concatenating it. *)
Definition flushInline_step (acc : list Token * list InlineFormat)
  (run : InlineText) : list Token * list InlineFormat :=
  let '(result, prevFormats) := acc in
  let common := RevB.commonLength prevFormats (formats run) in
  let toClose := drop common prevFormats in
  let result := result ++ map Close (reverse toClose) in
  let toOpen := drop common (formats run) in
  let result := result ++ map Open toOpen in
  let result := result ++ [Chars (text run)] in
  (result, formats run).

Definition flushInline_tokens (inlineBuffer : list InlineText) : list Token :=
  let '(result, prevFormats) :=
    fold_left flushInline_step inlineBuffer ([], []) in
  result ++ map Close (reverse prevFormats).

(** The turn of the first loop of [RevA.process], recording the opening
    tags. *)
Definition process_open (inlineText : InlineText)
  (prevInlineText : option InlineText)
  (acc : list nat * list InlineFormat * list Token)
  (slot : nat * InlineFormat) : list nat * list InlineFormat * list Token :=
  let '(applied, unclosedTags, openingTags) := acc in
  let '(i, format) := slot in
  if RevA.hasFormatIn (Some inlineText) format &&
     negb (bool_decide (i ∈ applied))
  then
    let applied := applied ++ [i] in
    if negb (RevA.hasFormatIn prevInlineText format) ||
       negb (existsb (RevA.isSameFormat format) unclosedTags)
    then (applied, unclosedTags ++ [format], openingTags ++ [Open format])
    else (applied, unclosedTags, openingTags)
  else acc.

(** The turn of the inner [while] loop of [RevA.process], recording the
    closing tags. *)
Definition process_close (unclosableTags : list InlineFormat)
  (nodeHasFormat nextNodeHasFormat : bool)
  (acc : list Token * list Token * list InlineFormat)
  (unclosedTag : InlineFormat) : list Token * list Token * list InlineFormat :=
  let '(closingTagsBefore, closingTagsAfter, unclosedTags) := acc in
  if existsb (RevA.isSameFormat unclosedTag) unclosableTags then acc
  else
    let closingTagsBefore :=
      if negb nodeHasFormat
      then closingTagsBefore ++ [Close unclosedTag]
      else closingTagsBefore in
    let closingTagsAfter :=
      if negb nodeHasFormat then closingTagsAfter
      else if negb nextNodeHasFormat
           then closingTagsAfter ++ [Close unclosedTag]
           else closingTagsAfter in
    (closingTagsBefore, closingTagsAfter, removelast unclosedTags).

(** [RevA.process], recording each piece instead of concatenating it. *)
Definition process (inlineBuffer : list InlineText)
  (inlineText : InlineText) (index : nat)
  (unclosedTags unclosableTags : list InlineFormat)
  : list Token * list InlineFormat :=
  let prevInlineText :=
    match index with 0 => None | S i => inlineBuffer !! i end in
  let nextInlineText := inlineBuffer !! S index in
  let '(_, unclosedTags, openingTags) :=
    fold_left (process_open inlineText prevInlineText)
      (imap pair (formats inlineText)) ([], unclosedTags, []) in
  let '(closingTagsBefore, closingTagsAfter, unclosedTags) :=
    match RevA.process_scan inlineText nextInlineText 0 unclosedTags with
    | None => ([], [], unclosedTags)
    | Some (i, nodeHasFormat, nextNodeHasFormat) =>
        fold_left (process_close unclosableTags nodeHasFormat nextNodeHasFormat)
          (reverse (drop i unclosedTags)) ([], [], unclosedTags)
    end in
  (closingTagsBefore ++ openingTags ++ Chars (text inlineText) :: closingTagsAfter,
   unclosedTags).

Fixpoint getInlineText_map (inlineBuffer : list InlineText) (index : nat)
  (rest : list InlineText) (unclosedTags unclosableTags : list InlineFormat)
  : list Token :=
  match rest with
  | [] => []
  | inlineText :: rest' =>
      let '(output, unclosedTags) :=
        process inlineBuffer inlineText index unclosedTags unclosableTags in
      output ++
        getInlineText_map inlineBuffer (S index) rest' unclosedTags
          unclosableTags
  end.

(** The tokens behind the string of [RevA.getInlineText]. *)
Definition getInlineText_tokens (inlineBuffer : list InlineText) : list Token :=
  getInlineText_map inlineBuffer 0 inlineBuffer [] [].

(** Proper nesting of a token sequence read from a stack of open
    formats: a closing tag must answer the format opened last, under the
    matching relation [same], and nothing may stay open at the end. *)
Fixpoint balanced (same : InlineFormat -> InlineFormat -> bool)
  (stack : list InlineFormat) (ts : list Token) : bool :=
  match ts with
  | [] => match stack with [] => true | _ :: _ => false end
  | Open f :: ts' => balanced same (f :: stack) ts'
  | Close g :: ts' =>
      match stack with
      | [] => false
      | f :: stack' => same f g && balanced same stack' ts'
      end
  | Chars _ :: ts' => balanced same stack ts'
  end.

(** A closing tag matches an opening tag when both belong to the same
    format in the sense of the data model ([RevA.isSameFormat]: type,
    opening tag and [htmlInline]) and the closing tag is that format's. *)
Definition matching (f g : InlineFormat) : bool :=
  RevA.isSameFormat f g && String.eqb (closeTag f) (closeTag g).

(** How often a tag is opened, and closed, in a token sequence. *)
Definition opens (f : InlineFormat) (ts : list Token) : nat :=
  length (filter (fun t => t = Open f) ts).

Definition closes (f : InlineFormat) (ts : list Token) : nat :=
  length (filter (fun t => t = Close f) ts).

End Tags.

(** ** A concrete host tree *)

Module Sample.

(** Modelled from the spec: the node kinds of the host editor that the
    built-in conversions name (text, line break, tab, paragraph, heading,
    link, auto-link), with the type names and guards the host gives
    them.  A tab node is a text node and an auto-link is a link, as the
    host's class hierarchy has it. *)
Inductive Node :=
| Text (content : string) (format : list string)
| LineBreak
| Tab
| Paragraph (children : list Node)
| Heading (tag : string) (children : list Node)
| Link (url : string) (title : option string) (children : list Node)
| AutoLink (url : string) (title : option string) (unlinked : bool)
    (children : list Node).

Definition children (n : Node) : list Node :=
  match n with
  | Paragraph c | Heading _ c | Link _ _ c | AutoLink _ _ _ c => c
  | _ => []
  end.

Definition typeName (n : Node) : string :=
  match n with
  | Text _ _ => "text"
  | LineBreak => "linebreak"
  | Tab => "tab"
  | Paragraph _ => "paragraph"
  | Heading _ _ => "heading"
  | Link _ _ _ => "link"
  | AutoLink _ _ _ _ => "autolink"
  end.

#[global] Instance host : LexicalHost := {|
  LexicalNode := Node;
  getType := typeName;
  getChildren := children;
  isElementNode n :=
    match n with
    | Paragraph _ | Heading _ _ | Link _ _ _ | AutoLink _ _ _ _ => true
    | _ => false
    end;
  isBlockElementNode n :=
    match n with Paragraph _ | Heading _ _ => true | _ => false end;
  isDecoratorNode _ := false;
  isTextNode n := match n with Text _ _ | Tab => true | _ => false end;
  isLineBreakNode n := match n with LineBreak => true | _ => false end;
  isTabNode n := match n with Tab => true | _ => false end;
  isParagraphNode n := match n with Paragraph _ => true | _ => false end;
  isHeadingNode n := match n with Heading _ _ => true | _ => false end;
  isLinkNode n :=
    match n with Link _ _ _ | AutoLink _ _ _ _ => true | _ => false end;
  isAutoLinkNode n := match n with AutoLink _ _ _ _ => true | _ => false end;
  hasFormat n fmt :=
    match n with Text _ fs => bool_decide (fmt ∈ fs) | _ => false end;
  getTextContent n :=
    match n with
    | Text c _ => c
    | Tab => String "009"%char ""
    | _ => ""
    end;
  isEmpty n := match children n with [] => true | _ :: _ => false end;
  getTag n := match n with Heading tag _ => tag | _ => "" end;
  getURL n :=
    match n with Link u _ _ | AutoLink u _ _ _ => u | _ => "" end;
  getTitle n :=
    match n with Link _ t _ | AutoLink _ t _ _ => t | _ => None end;
  getIsUnlinked n := match n with AutoLink _ _ u _ => u | _ => false end;
  TextNode_getType := "text";
  LineBreakNode_getType := "linebreak";
  TabNode_getType := "tab";
  ParagraphNode_getType := "paragraph";
  LinkNode_getType := "link";
  HeadingNode_getType := "heading"
|}.

(** The formats of the built-in text conversion. *)
Definition bold : InlineFormat := mkFormat "bold" "**" "**" None.
Definition italic : InlineFormat := mkFormat "italic" "*" "*" None.

(** The same emphasis written with the other Markdown tag pair. *)
Definition italic_ : InlineFormat := mkFormat "italic" "_" "_" None.

(** Three maps an extension could register for text nodes: one without
    a priority, one of priority 0 and one of priority 1, each writing its
    own name. *)
Definition mapPlain : gmap string (Node -> option MarkdownConversion) :=
  objectLiteral [
    ("text", fun _ => Some {| conversion := fun _ _ => write "plain";
                              priority := None |}) ].

Definition mapZero : gmap string (Node -> option MarkdownConversion) :=
  objectLiteral [
    ("text", fun _ => Some {| conversion := fun _ _ => write "zero";
                              priority := Some 0 |}) ].

Definition mapOne : gmap string (Node -> option MarkdownConversion) :=
  objectLiteral [
    ("text", fun _ => Some {| conversion := fun _ _ => write "one";
                              priority := Some 1 |}) ].

End Sample.

(** ** Auxiliary definitions for the proofs *)

Section Auxiliary.
Context `{LexicalHost}.

(** The conversions the maps of a collection offer for a node, in
    registration order: the non-null results met by the loop of
    [convertBlock]. *)
Definition candidates
  (collection : list (gmap string (LexicalNode -> option MarkdownConversion)))
  (node : LexicalNode) : list MarkdownConversion :=
  omap (fun conversionMap : gmap string (LexicalNode -> option MarkdownConversion) =>
          conversionMap !! getType node ≫= fun getConversion => getConversion node)
       collection.

(** The update of [conversion] by one non-null candidate. *)
Definition prefer (conversion : option MarkdownConversion)
  (markdownConversion : MarkdownConversion) : option MarkdownConversion :=
  match conversion with
  | Some prev =>
      if priorityOf prev <? priorityOf markdownConversion
      then Some markdownConversion else conversion
  | None => Some markdownConversion
  end.

(** [c] sits in [l] with every other entry at a strictly lower priority. *)
Definition strictlyHighest (c : MarkdownConversion)
  (l : list MarkdownConversion) : Prop :=
  ∃ before after,
    l = before ++ c :: after ∧
    Forall (fun d => priorityOf d < priorityOf c) before ∧
    Forall (fun d => priorityOf d < priorityOf c) after.

(** [c] is the first entry of [l] among those of the highest priority. *)
Definition firstHighest (c : MarkdownConversion)
  (l : list MarkdownConversion) : Prop :=
  ∃ before after,
    l = before ++ c :: after ∧
    Forall (fun d => priorityOf d < priorityOf c) before ∧
    Forall (fun d => priorityOf d ≤ priorityOf c) after.

(** The result grows by [suffix]: nothing already written is touched. *)
Definition extends (st st' : MarkdownConvertorState) : Prop :=
  ∃ suffix, _result st' = _result st +:+ suffix.

(** Under blank-line suppression, suppression stays on and the
    pending-close marker is left as it was. *)
Definition quiet (st st' : MarkdownConvertorState) : Prop :=
  _stopNewline st = true →
  _stopNewline st' = true ∧ _closed st' = _closed st.

(** An operation on the state keeps the relation [R] between the state
    it receives and the state it leaves. *)
Definition respects (R : relation MarkdownConvertorState)
  (f : MarkdownConvertorState → MarkdownConvertorState) : Prop :=
  ∀ st, R st (f st).

(** A conversion keeps [R] whenever the dispatcher handed to it does. *)
Definition conversionRespects (R : relation MarkdownConvertorState)
  (c : MarkdownConversion) : Prop :=
  ∀ dispatch : Dispatch,
    (∀ node, respects R (dispatch node)) →
    ∀ node, respects R (conversion c dispatch node).

(** Every conversion a map of the collection can offer keeps [R]. *)
Definition collectionRespects (R : relation MarkdownConvertorState)
  (collection : list (gmap string (LexicalNode -> option MarkdownConversion)))
  : Prop :=
  ∀ node c, c ∈ candidates collection node → conversionRespects R c.

End Auxiliary.

(** The tokens of [RevB.flushInline] as a recursion over the runs still
    to come, from the formats of the run before them. *)
Fixpoint tokens_from (prevFormats : list InlineFormat)
  (runs : list InlineText) : list Tags.Token :=
  match runs with
  | [] => map Tags.Close (reverse prevFormats)
  | run :: runs' =>
      let common := RevB.commonLength prevFormats (formats run) in
      map Tags.Close (reverse (drop common prevFormats)) ++
      map Tags.Open (drop common (formats run)) ++
      Tags.Chars (text run) :: tokens_from (formats run) runs'
  end.

(** The formats in force after [runs], starting from [prevFormats]. *)
Definition lastFormats (prevFormats : list InlineFormat)
  (runs : list InlineText) : list InlineFormat :=
  match last runs with
  | Some r => formats r
  | None => prevFormats
  end.

(** A run with one more format in front of its own. *)
Definition withLeading (f : InlineFormat) (run : InlineText) : InlineText :=
  {| text := text run; formats := f :: formats run |}.

(** The first format of a run is not [f] for the loop of [flushInline]
    (a run without formats has none). *)
Definition leadsWithout (f : InlineFormat) (run : option InlineText) : Prop :=
  match run with
  | Some r =>
      match formats r with
      | g :: _ => RevB.sameAt g f = false
      | [] => True
      end
  | None => True
  end.

(** Modelled from the spec: [HeadingTagType] of the host, the tag of a
    heading of level 1 to 6. *)
Definition headingTag (level : nat) : string :=
  match level with
  | 1 => "h1" | 2 => "h2" | 3 => "h3" | 4 => "h4" | 5 => "h5" | _ => "h6"
  end.

(** A format some run of the buffer carries. *)
Definition carried (inlineBuffer : list InlineText) (f : InlineFormat) : Prop :=
  ∃ run, run ∈ inlineBuffer ∧ f ∈ formats run.

(** No two formats of the buffer agree on type and [htmlInline] and
    differ in a tag. *)
Definition coherent (inlineBuffer : list InlineText) : Prop :=
  ∀ f g, carried inlineBuffer f → carried inlineBuffer g →
         RevB.sameAt f g = true → f = g.

(** The format objects the text conversions create (the same eight in
    both revisions). *)
Definition builtinFormats : list InlineFormat :=
  [ mkFormat "bold" "**" "**" None;
    mkFormat "italic" "*" "*" None;
    mkFormat "strikethrough" "~~" "~~" None;
    mkFormat "highlight" "<mark>" "</mark>" (Some true);
    mkFormat "underline" "<u>" "</u>" (Some true);
    mkFormat "subscript" "<sub>" "</sub>" (Some true);
    mkFormat "superscript" "<sup>" "</sup>" (Some true);
    mkFormat "code" "`" "`" None ].

(** Rendering of the accumulators of the two loops of [Tags.process]. *)
Definition renderOpen (acc : list nat * list InlineFormat * list Tags.Token)
  : list nat * list InlineFormat * string :=
  (acc.1.1, acc.1.2, Tags.renderAll acc.2).

Definition renderClose (acc : list Tags.Token * list Tags.Token * list InlineFormat)
  : string * string * list InlineFormat :=
  (Tags.renderAll acc.1.1, Tags.renderAll acc.1.2, acc.2).

(** ** Auxiliary definitions for the further properties *)

(** Every character of the string is in the class [\s]. *)
Fixpoint allWhiteSpace (s : string) : bool :=
  match s with
  | "" => true
  | String c s' => Str.isWhiteSpace c && allWhiteSpace s'
  end.

(** The last character of a string, if it has one. *)
Fixpoint lastChar (s : string) : option ascii :=
  match s with
  | "" => None
  | String c s' =>
      match s' with
      | "" => Some c
      | String _ _ => lastChar s'
      end
  end.

(** [l.join(sep)] *)
Fixpoint joinWith (sep : string) (l : list string) : string :=
  match l with
  | [] => ""
  | s :: l' =>
      match l' with
      | [] => s
      | _ :: _ => s +:+ sep +:+ joinWith sep l'
      end
  end.

(** The string holds a line feed. *)
Fixpoint hasNewline (s : string) : bool :=
  match s with
  | "" => false
  | String c s' => Ascii.eqb c "010" || hasNewline s'
  end.

(** Nothing that [flushClose] would act on: no block close is pending,
    or blank lines are suppressed. *)
Definition settled `{LexicalHost} (st : MarkdownConvertorState) : Prop :=
  _closed st = None ∨ _stopNewline st = true.

(** The texts among the tokens, in order. *)
Definition tokenTexts (ts : list Tags.Token) : list string :=
  omap (fun t => match t with Tags.Chars s => Some s | _ => None end) ts.

(** Reading a token sequence back into runs: an opening tag pushes its
    format, a closing tag pops the format opened last, and a text
    becomes a run carrying the formats open at that point, outermost
    first. *)
Fixpoint decode (stack : list InlineFormat) (ts : list Tags.Token)
  : list InlineText :=
  match ts with
  | [] => []
  | Tags.Open f :: ts' => decode (f :: stack) ts'
  | Tags.Close _ :: ts' => decode (tail stack) ts'
  | Tags.Chars s :: ts' =>
      {| text := s; formats := reverse stack |} :: decode stack ts'
  end.

(** Two format lists hold the same formats in the sense of
    [RevA.isSameFormat], whatever their order and multiplicity. *)
Definition sameFormats (l l' : list InlineFormat) : Prop :=
  (∀ f, f ∈ l → existsb (RevA.isSameFormat f) l' = true) ∧
  (∀ g, g ∈ l' → existsb (RevA.isSameFormat g) l = true).

(** The run the text conversion of revision B buffers for a text node. *)
Definition textRunB `{LexicalHost} (node : LexicalNode) : InlineText :=
  {| text := getTextContent node; formats := RevB.textFormats node |}.

(** The run the text conversion of revision A buffers for a text node. *)
Definition textRunA `{LexicalHost} (node : LexicalNode) : InlineText :=
  {| text := getTextContent node; formats := RevA.textFormats node |}.

(** What [flushInline] writes for the text children of a node
    (revision B). *)
Definition inlineTextB `{LexicalHost} (p : LexicalNode) : string :=
  RevB.flushInline_result (map textRunB (getChildren p)).

(** What [flushInlineText] writes for the text children of a node
    (revision A). *)
Definition inlineTextA `{LexicalHost} (p : LexicalNode) : string :=
  RevA.getInlineText (setInlineBuffer (map textRunA (getChildren p)) newState).

(** The template literal of the heading conversion. *)
Definition headingMark `{LexicalHost} (p : LexicalNode) : string :=
  Str.repeat "#" (Str.repeatCount (Str.Number (Str.substring1 (getTag p))))
  +:+ " ".

(** What a heading or a paragraph of text nodes puts on the output
    after the separation from the block before it: the heading mark and
    the reconciled runs, the literal of the empty paragraph, or the
    reconciled runs alone. *)
Definition blockTextB `{LexicalHost} (p : LexicalNode) : string :=
  if isHeadingNode p then headingMark p +:+ inlineTextB p
  else if isEmpty p then "<br>" else inlineTextB p.

Definition blockTextA `{LexicalHost} (p : LexicalNode) : string :=
  if isHeadingNode p then headingMark p +:+ inlineTextA p
  else if isEmpty p then "<br>" else inlineTextA p.

(** An element whose children are text nodes. *)
Definition textElement `{LexicalHost} (p : LexicalNode) : Prop :=
  isElementNode p = true ∧
  Forall (fun t => getType t = TextNode_getType ∧ isTextNode t = true)
    (getChildren p).

(** A paragraph or a heading, as the host types them, whose children
    are text nodes. *)
Definition plainBlock `{LexicalHost} (p : LexicalNode) : Prop :=
  textElement p ∧
  ((getType p = ParagraphNode_getType ∧ isParagraphNode p = true ∧
    isHeadingNode p = false) ∨
   (getType p = HeadingNode_getType ∧ isHeadingNode p = true)).

(** The host gives the six built-in node types six names. *)
Definition distinctTypeNames `{LexicalHost} : Prop :=
  NoDup [TextNode_getType; LineBreakNode_getType; TabNode_getType;
         ParagraphNode_getType; LinkNode_getType; HeadingNode_getType].

(** A string that is not empty and does not end in a line feed. *)
Definition openEnded (s : string) : Prop :=
  Str.truthy s = true ∧ Str.endsWithNewline s = false.

(** The state between two top-level blocks: no delimiter, no
    suppression, nothing buffered. *)
Definition atTopLevel `{LexicalHost} (st : MarkdownConvertorState) : Prop :=
  _delim st = "" ∧ _stopNewline st = false ∧ _inlineBuffer st = [].

(** The lines of a list whose items each write one text: the marker of
    the item, then its text. *)
Fixpoint listItems {A : Type} (firstDelimFn : nat → string) (delim : string)
  (T : A → string) (index : nat) (children : list A) : list string :=
  match children with
  | [] => []
  | child :: rest =>
      (Str.or_else (firstDelimFn index) delim +:+ T child) ::
      listItems firstDelimFn delim T (S index) rest
  end.

(** A paragraph, as the host types it, whose children are text nodes. *)
Definition textParagraph `{LexicalHost} (p : LexicalNode) : Prop :=
  textElement p ∧
  getType p = ParagraphNode_getType ∧ isParagraphNode p = true.

(** * Theorems *)

(** ** Strings *)

Module StrFacts.

Lemma app_cons c s t : String c s +:+ t = String c (s +:+ t).
Proof. reflexivity. Qed.

Lemma app_nil_r s : s +:+ "" = s.
Proof.
  induction s as [|c s IH]; [done|]. by rewrite app_cons, IH.
Qed.

Lemma app_assoc s1 s2 s3 : (s1 +:+ s2) +:+ s3 = s1 +:+ s2 +:+ s3.
Proof.
  induction s1 as [|c s1 IH]; [done|]. by rewrite !app_cons, IH.
Qed.

Lemma endsWithNewline_app_nl s : Str.endsWithNewline (s +:+ Str.nl) = true.
Proof.
  induction s as [|c s IH]; [done|].
  rewrite app_cons. simpl. destruct (s +:+ Str.nl) eqn:E; [by destruct s|done].
Qed.

Lemma endsWithNewline_inv s :
  Str.endsWithNewline s = true → ∃ s', s = s' +:+ Str.nl.
Proof.
  induction s as [|c s IH]; [done|].
  simpl. destruct s as [|c' s].
  - intros Hc. apply Ascii.eqb_eq in Hc as ->. by exists "".
  - intros [s' Hs']%IH. exists (String c s'). by rewrite app_cons, <-Hs'.
Qed.

(** [/(^|\n)$/] holds of the empty string and of the strings that end
    with a line feed, and of no other. *)
Lemma test_blank_spec s :
  Str.test_blank s = true ↔ s = "" ∨ ∃ s', s = s' +:+ Str.nl.
Proof.
  unfold Str.test_blank. split.
  - intros [Hs|Hs]%orb_true_iff.
    + left. by destruct s.
    + right. by apply endsWithNewline_inv.
  - intros [->|[s' ->]]; [done|].
    rewrite endsWithNewline_app_nl. apply orb_true_r.
Qed.

Lemma join_app l1 l2 : Str.join (l1 ++ l2) = Str.join l1 +:+ Str.join l2.
Proof.
  induction l1 as [|s l1 IH]; [done|].
  simpl. by rewrite IH, app_assoc.
Qed.

Lemma truthy_false s : Str.truthy s = false → s = "".
Proof. by destruct s. Qed.

End StrFacts.

(** ** The state primitives *)

Section StateFacts.
Context `{LexicalHost}.

Lemma isInBlank_addOutput_nl (st : MarkdownConvertorState) :
  isInBlank (addOutput Str.nl st) = true.
Proof.
  unfold isInBlank, Str.test_blank. simpl.
  rewrite StrFacts.endsWithNewline_app_nl. apply orb_true_r.
Qed.

Lemma isInBlank_ensureNewLine (st : MarkdownConvertorState) :
  isInBlank (ensureNewLine st) = true.
Proof.
  unfold ensureNewLine. destruct (isInBlank st) eqn:E; [done|].
  apply isInBlank_addOutput_nl.
Qed.

(** C8.  Two calls of [ensureNewLine] in a row leave the state one call
    leaves: the first appends a line feed unless the output is empty or
    already ends with one (the test [isInBlank]), after it the output is
    at the start of a line, and the second appends nothing.  So the two
    calls together append one line feed, and none when the output was
    already at the start of a line. *)
Theorem ensureNewLine_twice (st : MarkdownConvertorState) :
  (isInBlank st = true ↔
     _result st = "" ∨ ∃ s, _result st = s +:+ Str.nl) ∧
  _result (ensureNewLine st) =
    (if isInBlank st then _result st else _result st +:+ Str.nl) ∧
  isInBlank (ensureNewLine st) = true ∧
  ensureNewLine (ensureNewLine st) = ensureNewLine st ∧
  _result (ensureNewLine (ensureNewLine st)) =
    (if isInBlank st then _result st else _result st +:+ Str.nl).
Proof.
  assert (Hres : _result (ensureNewLine st) =
            if isInBlank st then _result st else _result st +:+ Str.nl).
  { unfold ensureNewLine. by destruct (isInBlank st). }
  assert (Hidem : ensureNewLine (ensureNewLine st) = ensureNewLine st).
  { unfold ensureNewLine at 1. by rewrite isInBlank_ensureNewLine. }
  split; [apply StrFacts.test_blank_spec|].
  split; [exact Hres|].
  split; [apply isInBlank_ensureNewLine|].
  split; [exact Hidem|].
  by rewrite Hidem.
Qed.

Lemma flushClose_suppressed (size : Z) (st : MarkdownConvertorState) :
  _stopNewline st = true → flushClose size st = st.
Proof. intros Hs. unfold flushClose. by rewrite Hs. Qed.

Lemma iter_addOutput_frame (n : nat) (output : string)
  (st : MarkdownConvertorState) :
  _stopNewline (Nat.iter n (addOutput output) st) = _stopNewline st ∧
  _closed (Nat.iter n (addOutput output) st) = _closed st ∧
  _inlineBuffer (Nat.iter n (addOutput output) st) = _inlineBuffer st ∧
  _delim (Nat.iter n (addOutput output) st) = _delim st.
Proof. induction n as [|n IH]; [done|]. simpl. exact IH. Qed.

Lemma flushClose_closed (size : Z) (st : MarkdownConvertorState) :
  _closed (flushClose size st) =
    if _stopNewline st then _closed st else None.
Proof.
  unfold flushClose. destruct (_stopNewline st) eqn:Hs; simpl; [done|].
  by destruct (_closed st) eqn:Hc.
Qed.

Lemma flushClose_frame (size : Z) (st : MarkdownConvertorState) :
  _stopNewline (flushClose size st) = _stopNewline st ∧
  _inlineBuffer (flushClose size st) = _inlineBuffer st ∧
  _delim (flushClose size st) = _delim st.
Proof.
  unfold flushClose. destruct (_ || _); [done|]. simpl.
  destruct (1 <? size)%Z.
  - destruct (iter_addOutput_frame (Z.to_nat (size - 1))
      (Str.trimTrailing
         (_delim (if negb (isInBlank st) then addOutput Str.nl st else st))
       +:+ Str.nl)
      (if negb (isInBlank st) then addOutput Str.nl st else st))
      as (-> & _ & -> & ->).
    by destruct (negb (isInBlank st)).
  - by destruct (negb (isInBlank st)).
Qed.

(** C3, as the code has it.  [flushClose] clears the pending-close
    marker whenever blank-line suppression is off, also when nothing was
    pending and nothing is written.  While suppression is on the call is
    a no-op on the whole state: a pending marker stays pending. *)
Theorem flushClose_marker (size : Z) (st : MarkdownConvertorState) :
  if _stopNewline st
  then flushClose size st = st
  else _closed (flushClose size st) = None ∧
       _stopNewline (flushClose size st) = false.
Proof.
  destruct (_stopNewline st) eqn:Hs.
  - by apply flushClose_suppressed.
  - split.
    + by rewrite flushClose_closed, Hs.
    + by rewrite (proj1 (flushClose_frame size st)).
Qed.

End StateFacts.

(** C3 fails as stated: with suppression on, a pending marker survives
    [flushClose]. *)
Lemma flushClose_marker_survives :
  ¬ (∀ (size : Z) (st : @MarkdownConvertorState Sample.host),
       _closed (flushClose size st) = None).
Proof.
  intros Hall.
  specialize (Hall 2%Z
    (@mkState Sample.host "" "x" (Some (Sample.Paragraph [])) true [])).
  vm_compute in Hall. discriminate Hall.
Qed.

(** ** The dispatcher *)

Section DispatchFacts.
Context `{LexicalHost}.

Lemma considerMap_prefer (node : LexicalNode)
  (conversion : option MarkdownConversion)
  (conversionMap : gmap string (LexicalNode -> option MarkdownConversion)) :
  considerMap node conversion conversionMap =
    match conversionMap !! getType node ≫= (fun g => g node) with
    | Some markdownConversion => prefer conversion markdownConversion
    | None => conversion
    end.
Proof.
  unfold considerMap, prefer.
  destruct (conversionMap !! getType node) as [g|]; simpl; [|done].
  by destruct (g node).
Qed.

Lemma fold_considerMap_candidates (node : LexicalNode)
  (collection : list (gmap string (LexicalNode -> option MarkdownConversion)))
  (conversion : option MarkdownConversion) :
  fold_left (considerMap node) collection conversion =
    fold_left prefer (candidates collection node) conversion.
Proof.
  revert conversion.
  induction collection as [|m collection IH]; intros conversion; [done|].
  simpl. rewrite IH, considerMap_prefer. unfold candidates. simpl.
  by destruct (m !! getType node ≫= _).
Qed.

Lemma firstHighest_bound (c : MarkdownConversion) (l : list MarkdownConversion) :
  firstHighest c l → ∀ d, d ∈ l → priorityOf d ≤ priorityOf c.
Proof.
  intros (before & after & -> & Hb & Ha) d
    [Hd|[->|Hd]%elem_of_cons]%elem_of_app.
  - rewrite Forall_forall in Hb. specialize (Hb d Hd). lia.
  - done.
  - rewrite Forall_forall in Ha. by apply Ha.
Qed.

Lemma firstHighest_elem (c : MarkdownConversion) (l : list MarkdownConversion) :
  firstHighest c l → c ∈ l.
Proof. intros (before & after & -> & _). set_solver. Qed.

Lemma fold_prefer_firstHighest (l : list MarkdownConversion)
  (c0 : MarkdownConversion) :
  ∃ c, fold_left prefer l (Some c0) = Some c ∧ firstHighest c (c0 :: l).
Proof.
  revert c0. induction l as [|d l IH]; intros c0.
  - exists c0. split; [done|]. by exists [], [].
  - simpl. destruct (priorityOf c0 <? priorityOf d) eqn:Hlt.
    + apply Nat.ltb_lt in Hlt.
      destruct (IH d) as (c & Hc & Hfirst). exists c. split; [done|].
      pose proof (firstHighest_bound _ _ Hfirst d (list_elem_of_here _ _)) as Hd.
      destruct Hfirst as (before & after & Hl & Hb & Ha).
      exists (c0 :: before), after. rewrite Hl. split; [done|].
      split; [|done]. constructor; [lia|done].
    + apply Nat.ltb_ge in Hlt.
      destruct (IH c0) as (c & Hc & Hfirst). exists c. split; [done|].
      destruct Hfirst as (before & after & Hl & Hb & Ha).
      destruct before as [|b before]; simpl in Hl; simplify_eq.
      * exists [], (d :: after). split; [done|].
        split; [done|]. by constructor.
      * exists (b :: d :: before), after. split; [done|].
        inversion Hb; subst. split; [|done].
        constructor; [done|]. constructor; [lia|done].
Qed.

Lemma selectConversion_firstHighest
  (collection : list (gmap string (LexicalNode -> option MarkdownConversion)))
  (node : LexicalNode) :
  match selectConversion collection node with
  | Some c => firstHighest c (candidates collection node)
  | None => candidates collection node = []
  end.
Proof.
  unfold selectConversion. rewrite fold_considerMap_candidates.
  destruct (candidates collection node) as [|c0 l]; [done|].
  simpl. destruct (fold_prefer_firstHighest l c0) as (c & -> & Hc). done.
Qed.

Lemma candidates_Permutation
  (collection collection' :
     list (gmap string (LexicalNode -> option MarkdownConversion)))
  (node : LexicalNode) :
  collection' ≡ₚ collection →
  candidates collection' node ≡ₚ candidates collection node.
Proof. intros Hp. unfold candidates. by rewrite Hp. Qed.

(** C2.  [convertBlock] applies the conversion the loop selects, and
    does nothing when no map offers one.  The selected conversion is the
    first, in registration order, among the non-null conversions of the
    highest priority (a missing priority counting as 0): every candidate
    registered before it is strictly lower, none after it is higher.  A
    candidate strictly above all others is selected under every
    reordering of the collection. *)
Theorem convertBlock_priority
  (collection : list (gmap string (LexicalNode -> option MarkdownConversion)))
  (node : LexicalNode) :
  (∀ fuel st,
     convertBlock (S fuel) collection node st =
       match selectConversion collection node with
       | Some c => conversion c (convertBlock fuel collection) node st
       | None => st
       end) ∧
  match selectConversion collection node with
  | Some c => firstHighest c (candidates collection node)
  | None => candidates collection node = []
  end ∧
  (∀ collection' c,
     collection' ≡ₚ collection →
     strictlyHighest c (candidates collection node) →
     selectConversion collection' node = Some c).
Proof.
  split; [done|]. split; [apply selectConversion_firstHighest|].
  intros collection' c Hp (before & after & Hl & Hb & Ha).
  pose proof (candidates_Permutation _ _ node Hp) as Hperm.
  pose proof (selectConversion_firstHighest collection' node) as Hsel.
  assert (Hin : c ∈ candidates collection' node).
  { rewrite Hperm, Hl. set_solver. }
  destruct (selectConversion collection' node) as [c'|];
    [|rewrite Hsel in Hin; by apply elem_of_nil in Hin].
  pose proof (firstHighest_bound _ _ Hsel c Hin) as Hle.
  apply firstHighest_elem in Hsel. rewrite Hperm, Hl in Hsel.
  apply elem_of_app in Hsel as [Hc'|[->|Hc']%elem_of_cons]; [|done|].
  - rewrite Forall_forall in Hb. specialize (Hb c' Hc'). lia.
  - rewrite Forall_forall in Ha. specialize (Ha c' Hc'). lia.
Qed.

End DispatchFacts.

(** The higher priority wins in either order; a missing priority ties
    with 0 and the first registered map keeps the node. *)
Example priority_examples :
  let node := Sample.Text "t" [] in
  let run collection := _result (convertBlock 1 collection node newState) in
  run [Sample.mapPlain; Sample.mapOne] = "one" ∧
  run [Sample.mapOne; Sample.mapPlain] = "one" ∧
  run [Sample.mapPlain; Sample.mapZero] = "plain" ∧
  run [Sample.mapZero; Sample.mapPlain] = "zero" ∧
  run [Sample.mapZero; Sample.mapOne; Sample.mapPlain; Sample.mapOne] = "one".
Proof. repeat split; vm_compute; reflexivity. Qed.

(** ** The common-prefix reconciler *)

Module ReconcilerFacts.

Lemma sameAt_refl (f : InlineFormat) : RevB.sameAt f f = true.
Proof.
  unfold RevB.sameAt. rewrite String.eqb_refl.
  by rewrite bool_decide_eq_true_2.
Qed.

Lemma sameAt_sym (f g : InlineFormat) : RevB.sameAt f g = RevB.sameAt g f.
Proof.
  unfold RevB.sameAt. rewrite String.eqb_sym. f_equal.
  apply bool_decide_ext. split; congruence.
Qed.

Lemma sameAt_trans (f g h : InlineFormat) :
  RevB.sameAt f g = true → RevB.sameAt g h = true → RevB.sameAt f h = true.
Proof.
  unfold RevB.sameAt.
  intros [Hfg Hfg']%andb_true_iff [Hgh Hgh']%andb_true_iff.
  apply String.eqb_eq in Hfg, Hgh.
  apply bool_decide_eq_true in Hfg', Hgh'.
  rewrite Hfg, Hgh, String.eqb_refl, Hfg', Hgh'.
  by rewrite bool_decide_eq_true_2.
Qed.

Lemma renderAll_app (a b : list Tags.Token) :
  Tags.renderAll (a ++ b) = Tags.renderAll a +:+ Tags.renderAll b.
Proof. unfold Tags.renderAll. by rewrite map_app, StrFacts.join_app. Qed.

Lemma renderAll_cons (t : Tags.Token) (ts : list Tags.Token) :
  Tags.renderAll (t :: ts) = Tags.render t +:+ Tags.renderAll ts.
Proof. reflexivity. Qed.

Lemma renderAll_Open (fs : list InlineFormat) :
  Tags.renderAll (map Tags.Open fs) = RevB.openTags fs.
Proof. unfold Tags.renderAll, RevB.openTags. by rewrite map_map. Qed.

Lemma renderAll_Close (fs : list InlineFormat) :
  Tags.renderAll (map Tags.Close (reverse fs)) = RevB.closeTags fs.
Proof. unfold Tags.renderAll, RevB.closeTags. by rewrite map_map. Qed.

(** The recorded pieces, concatenated, are the string the loop builds. *)
Lemma fold_flushInline_step_render (runs : list InlineText)
  (ts : list Tags.Token) (prevFormats : list InlineFormat) :
  fold_left RevB.flushInline_step runs (Tags.renderAll ts, prevFormats) =
    (Tags.renderAll (fold_left Tags.flushInline_step runs (ts, prevFormats)).1,
     (fold_left Tags.flushInline_step runs (ts, prevFormats)).2).
Proof.
  revert ts prevFormats.
  induction runs as [|run runs IH]; intros ts prevFormats; [done|].
  simpl. rewrite <-IH. f_equal. f_equal.
  rewrite !renderAll_app, renderAll_Close, renderAll_Open, renderAll_cons.
  simpl. by rewrite StrFacts.app_nil_r.
Qed.

Lemma flushInline_tokens_render (inlineBuffer : list InlineText) :
  Tags.renderAll (Tags.flushInline_tokens inlineBuffer) =
    RevB.flushInline_result inlineBuffer.
Proof.
  unfold Tags.flushInline_tokens, RevB.flushInline_result.
  change "" with (Tags.renderAll []).
  rewrite fold_flushInline_step_render.
  destruct (fold_left Tags.flushInline_step inlineBuffer ([], [])) as [ts p].
  simpl. by rewrite renderAll_app, renderAll_Close.
Qed.

(** The accumulating loop computes the recursive reading. *)
Lemma fold_flushInline_step_tokens (runs : list InlineText)
  (ts : list Tags.Token) (prevFormats : list InlineFormat) :
  (fold_left Tags.flushInline_step runs (ts, prevFormats)).1 ++
    map Tags.Close
      (reverse (fold_left Tags.flushInline_step runs (ts, prevFormats)).2) =
  ts ++ tokens_from prevFormats runs.
Proof.
  revert ts prevFormats.
  induction runs as [|run runs IH]; intros ts prevFormats; [done|].
  simpl. rewrite IH. by rewrite <-!List.app_assoc.
Qed.

Lemma flushInline_tokens_from (inlineBuffer : list InlineText) :
  Tags.flushInline_tokens inlineBuffer = tokens_from [] inlineBuffer.
Proof.
  unfold Tags.flushInline_tokens.
  pose proof (fold_flushInline_step_tokens inlineBuffer [] []) as Hloop.
  destruct (fold_left Tags.flushInline_step inlineBuffer ([], [])) as [r p].
  exact Hloop.
Qed.

(** A format leading every run is carried through the loop untouched
    and closed once at its end. *)
Lemma tokens_from_leading (f : InlineFormat) (runs : list InlineText)
  (prevFormats : list InlineFormat) :
  tokens_from (f :: prevFormats) (map (withLeading f) runs) =
    tokens_from prevFormats runs ++ [Tags.Close f].
Proof.
  revert prevFormats.
  induction runs as [|run runs IH]; intros prevFormats.
  - simpl. by rewrite reverse_cons, map_app.
  - simpl. rewrite sameAt_refl. simpl. rewrite IH.
    by rewrite <-!List.app_assoc.
Qed.

(** Where two neighbouring runs share no leading format the tokens are
    those of the two parts, one after the other. *)
Lemma tokens_from_split (xs ys : list InlineText)
  (prevFormats : list InlineFormat) :
  match ys with
  | y :: _ => RevB.commonLength (lastFormats prevFormats xs) (formats y) = 0
  | [] => True
  end →
  tokens_from prevFormats (xs ++ ys) =
    tokens_from prevFormats xs ++ tokens_from [] ys.
Proof.
  revert prevFormats.
  induction xs as [|x xs IH]; intros prevFormats Hb.
  - simpl. destruct ys as [|y ys]; simpl.
    + by rewrite List.app_nil_r.
    + unfold lastFormats in Hb. simpl in Hb. by rewrite Hb.
  - simpl. rewrite IH; [by rewrite <-!List.app_assoc|].
    destruct ys as [|y ys]; [done|].
    unfold lastFormats in *. rewrite last_cons in Hb.
    by destruct (last xs).
Qed.

Lemma commonLength_leadsWithout_l (f : InlineFormat) (pre : list InlineText)
  (fs : list InlineFormat) :
  leadsWithout f (last pre) →
  RevB.commonLength (lastFormats [] pre) (f :: fs) = 0.
Proof.
  unfold leadsWithout, lastFormats. destruct (last pre) as [r|]; [|done].
  destruct (formats r) as [|g gs]; [done|]. simpl. by intros ->.
Qed.

Lemma commonLength_leadsWithout_r (f : InlineFormat) (post : list InlineText)
  (fs : list InlineFormat) :
  leadsWithout f (head post) →
  match post with
  | y :: _ => RevB.commonLength (f :: fs) (formats y) = 0
  | [] => True
  end.
Proof.
  destruct post as [|y post]; [done|]. simpl.
  destruct (formats y) as [|g gs]; [done|].
  rewrite sameAt_sym. by intros ->.
Qed.

Lemma lastFormats_leading (f : InlineFormat) (runs : list InlineText)
  (prevFormats : list InlineFormat) :
  runs ≠ [] →
  ∃ fs, lastFormats prevFormats (map (withLeading f) runs) = f :: fs.
Proof.
  unfold lastFormats. induction runs as [|r runs IH]; [done|]. intros _.
  destruct runs as [|r' runs].
  - simpl. by eexists.
  - change (map (withLeading f) (r :: r' :: runs))
      with (withLeading f r :: map (withLeading f) (r' :: runs)).
    simpl map. rewrite last_cons_cons. simpl map in IH. by apply IH.
Qed.

(** C1, as the code has it.  When the runs of a contiguous block all
    carry the same format as their first (outermost) format, and the
    run before the block and the run after it do not start with that
    format, [flushInline] opens the format once in front of the block
    and closes it once behind it: the tokens are those of the runs
    before, the opening tag, the tokens of the block without the format,
    the closing tag, and the tokens of the runs after; the output string
    is the same concatenation. *)
Theorem flushInline_leading_block (f : InlineFormat)
  (pre block post : list InlineText) :
  block ≠ [] →
  leadsWithout f (last pre) →
  leadsWithout f (head post) →
  Tags.flushInline_tokens (pre ++ map (withLeading f) block ++ post) =
    Tags.flushInline_tokens pre ++
    Tags.Open f :: Tags.flushInline_tokens block ++
    Tags.Close f :: Tags.flushInline_tokens post ∧
  RevB.flushInline_result (pre ++ map (withLeading f) block ++ post) =
    RevB.flushInline_result pre +:+ openTag f +:+
    RevB.flushInline_result block +:+ closeTag f +:+
    RevB.flushInline_result post.
Proof.
  intros Hblock Hpre Hpost.
  assert (Htokens :
    Tags.flushInline_tokens (pre ++ map (withLeading f) block ++ post) =
      Tags.flushInline_tokens pre ++
      Tags.Open f :: Tags.flushInline_tokens block ++
      Tags.Close f :: Tags.flushInline_tokens post).
  { rewrite !flushInline_tokens_from.
    destruct block as [|b block]; [done|].
    rewrite tokens_from_split
      by (simpl; by apply commonLength_leadsWithout_l).
    f_equal.
    rewrite tokens_from_split.
    - simpl. rewrite tokens_from_leading. f_equal.
      rewrite <-!List.app_assoc. simpl. by rewrite <-!List.app_assoc.
    - pose proof (commonLength_leadsWithout_r f post) as Hr.
      destruct post as [|y post]; [done|].
      destruct (lastFormats_leading f (b :: block) []) as [fs ->]; [done|].
      by apply Hr. }
  split; [exact Htokens|].
  rewrite <-!flushInline_tokens_render, Htokens.
  by rewrite renderAll_app, renderAll_cons, renderAll_app, renderAll_cons.
Qed.

Lemma flushInline_leading_block_witness :
  let pre := [mkInline "x" []] in
  let block := [mkInline "a" []; mkInline "b" [Sample.italic]] in
  let post := [mkInline "y" [Sample.italic]] in
  block ≠ [] ∧
  leadsWithout Sample.bold (last pre) ∧
  leadsWithout Sample.bold (head post) ∧
  RevB.flushInline_result (pre ++ map (withLeading Sample.bold) block ++ post) =
    RevB.flushInline_result pre +:+ "**" +:+
    RevB.flushInline_result block +:+ "**" +:+
    RevB.flushInline_result post.
Proof.
  intros pre block post.
  split; [done|]. split; [exact I|]. split; [reflexivity|].
  apply (flushInline_leading_block Sample.bold pre block post);
    [done|exact I|reflexivity].
Defined.

(** The instance the spec names: two bold runs in a row give one pair of
    tags around both texts, under either reconciler. *)
Example two_bold_runs :
  RevB.flushInline_result
    [mkInline "a" [Sample.bold]; mkInline "b" [Sample.bold]] = "**ab**" ∧
  RevA.getInlineText
    (@mkState Sample.host "" "" None false
       [mkInline "a" [Sample.bold]; mkInline "b" [Sample.bold]]) = "**ab**".
Proof. split; reflexivity. Qed.

(** C1 fails as stated: a format shared by two runs in a row, but
    preceded in the first by a format the second lacks, is closed and
    opened again.  Both runs carry italic; it is opened twice and closed
    twice, under either reconciler. *)
Lemma shared_inner_format_reopened :
  let inlineBuffer :=
    [mkInline "a" [Sample.bold; Sample.italic]; mkInline "b" [Sample.italic]] in
  Forall (fun run => Sample.italic ∈ formats run) inlineBuffer ∧
  Tags.flushInline_tokens inlineBuffer =
    [Tags.Open Sample.bold; Tags.Open Sample.italic; Tags.Chars "a";
     Tags.Close Sample.italic; Tags.Close Sample.bold;
     Tags.Open Sample.italic; Tags.Chars "b"; Tags.Close Sample.italic] ∧
  Tags.opens Sample.italic (Tags.flushInline_tokens inlineBuffer) = 2 ∧
  Tags.closes Sample.italic (Tags.flushInline_tokens inlineBuffer) = 2 ∧
  RevB.flushInline_result inlineBuffer = "***a****b*" ∧
  RevA.getInlineText (@mkState Sample.host "" "" None false inlineBuffer) =
    "***a****b*".
Proof.
  intros inlineBuffer. split.
  - repeat constructor; apply bool_decide_unpack; vm_compute; exact I.
  - repeat split; vm_compute; reflexivity.
Qed.

(** *** Nesting of the tags *)

Section Nesting.
Variable same : InlineFormat → InlineFormat → bool.
Variable P : InlineFormat → Prop.
Hypothesis same_refl : ∀ f, same f f = true.
Hypothesis same_chain :
  ∀ s p f, P p → P f → same s p = true → RevB.sameAt p f = true →
           same s f = true.

Lemma balanced_opens (os : list InlineFormat) (stack : list InlineFormat)
  (rest : list Tags.Token) :
  Tags.balanced same stack (map Tags.Open os ++ rest) =
    Tags.balanced same (reverse os ++ stack) rest.
Proof.
  revert stack. induction os as [|o os IH]; intros stack; [done|].
  simpl. rewrite IH, reverse_cons. by rewrite <-List.app_assoc.
Qed.

Lemma balanced_closes (s1 cl s2 : list InlineFormat) (rest : list Tags.Token) :
  Forall2 (fun s g => same s g = true) s1 cl →
  Tags.balanced same (s1 ++ s2) (map Tags.Close cl ++ rest) =
    Tags.balanced same s2 rest.
Proof.
  induction 1 as [|s g s1 cl Hsg _ IH]; [done|].
  simpl. by rewrite Hsg, IH.
Qed.

Lemma commonLength_take (prevFormats fs : list InlineFormat) :
  Forall2 (fun p f => RevB.sameAt p f = true)
    (take (RevB.commonLength prevFormats fs) prevFormats)
    (take (RevB.commonLength prevFormats fs) fs).
Proof.
  revert fs. induction prevFormats as [|p prevFormats IH]; intros [|f fs];
    simpl; try constructor.
  destruct (RevB.sameAt p f) eqn:Hpf; simpl; constructor; [done|apply IH].
Qed.

Lemma chain_Forall2 (stack ps fs : list InlineFormat) :
  Forall P ps → Forall P fs →
  Forall2 (fun s p => same s p = true) stack ps →
  Forall2 (fun p f => RevB.sameAt p f = true) ps fs →
  Forall2 (fun s f => same s f = true) stack fs.
Proof.
  intros Hps Hfs Hsp. revert fs Hfs.
  induction Hsp as [|s p stack ps Hs _ IH]; intros fs Hfs Hpf.
  - inversion Hpf. constructor.
  - inversion Hpf as [|? f ? fs' Hf Hrest]; subst.
    apply Forall_cons in Hps as [Hp Hps].
    apply Forall_cons in Hfs as [Hf' Hfs].
    constructor; [by apply (same_chain s p f)|by apply IH].
Qed.

(** The stack of open formats answers, from its top, the formats of
    the previous run read backwards. *)
Lemma tokens_from_balanced (runs : list InlineText)
  (prevFormats stack : list InlineFormat) :
  Forall (fun run => Forall P (formats run)) runs →
  Forall P prevFormats →
  Forall2 (fun s p => same s p = true) stack (reverse prevFormats) →
  Tags.balanced same stack (tokens_from prevFormats runs) = true.
Proof.
  revert prevFormats stack.
  induction runs as [|run runs IH]; intros prevFormats stack Hruns Hprev Hstack.
  - simpl. rewrite <-(List.app_nil_r (map _ _)), <-(List.app_nil_r stack).
    by rewrite (balanced_closes _ _ [] []).
  - inversion Hruns as [|? ? Hrun Hruns']; subst. simpl.
    set (c := RevB.commonLength prevFormats (formats run)).
    rewrite <-(take_drop c prevFormats), reverse_app in Hstack.
    apply Forall2_app_inv_r in Hstack as (s1 & s2 & Hs1 & Hs2 & ->).
    rewrite balanced_closes by done.
    rewrite balanced_opens. simpl.
    apply IH; [done|done|].
    rewrite <-(take_drop c (formats run)) at 2. rewrite reverse_app.
    apply Forall2_app.
    + apply Forall_Forall2_diag, Forall_forall. intros; apply same_refl.
    + apply Forall2_reverse in Hs2. rewrite reverse_involutive in Hs2.
      rewrite <-(reverse_involutive s2).
      apply Forall2_reverse.
      eapply chain_Forall2; [| |exact Hs2|apply commonLength_take].
      * by apply Forall_take.
      * by apply Forall_take.
Qed.

End Nesting.

Lemma isSameFormat_spec (format f : InlineFormat) :
  RevA.isSameFormat format f = true ↔
    type f = type format ∧ openTag f = openTag format ∧
    htmlInline f = htmlInline format.
Proof.
  unfold RevA.isSameFormat.
  rewrite !andb_true_iff, !String.eqb_eq, bool_decide_eq_true. tauto.
Qed.

Lemma sameAt_spec (p f : InlineFormat) :
  RevB.sameAt p f = true ↔
    type p = type f ∧ htmlInline p = htmlInline f.
Proof.
  unfold RevB.sameAt.
  by rewrite andb_true_iff, String.eqb_eq, bool_decide_eq_true.
Qed.

Lemma matching_refl (f : InlineFormat) : Tags.matching f f = true.
Proof.
  unfold Tags.matching. rewrite String.eqb_refl, andb_true_r.
  by apply isSameFormat_spec.
Qed.

(** Read by type and [htmlInline] alone, the tags of [flushInline] nest
    for every buffer. *)
Lemma flushInline_nested_by_kind (inlineBuffer : list InlineText) :
  Tags.balanced RevB.sameAt [] (Tags.flushInline_tokens inlineBuffer) = true.
Proof.
  rewrite flushInline_tokens_from.
  apply (tokens_from_balanced RevB.sameAt (fun _ => True)).
  - apply sameAt_refl.
  - intros s p f _ _. apply sameAt_trans.
  - apply Forall_forall. intros run _. by apply Forall_forall.
  - constructor.
  - constructor.
Qed.

(** On a buffer whose formats never pair one type with two tags, every
    closing tag of [flushInline] is the closing tag of the format opened
    last, and none stays open. *)
Lemma flushInline_nested (inlineBuffer : list InlineText) :
  coherent inlineBuffer →
  Tags.balanced Tags.matching [] (Tags.flushInline_tokens inlineBuffer) = true.
Proof.
  intros Hco. rewrite flushInline_tokens_from.
  apply (tokens_from_balanced Tags.matching (carried inlineBuffer)).
  - apply matching_refl.
  - intros s p f Hp Hf Hsp Hpf. by rewrite <-(Hco p f Hp Hf Hpf).
  - apply Forall_forall. intros run Hrun. apply Forall_forall.
    intros f Hf. by exists run.
  - constructor.
  - constructor.
Qed.

Lemma builtinFormats_coherent (f g : InlineFormat) :
  f ∈ builtinFormats → g ∈ builtinFormats →
  RevB.sameAt f g = true → f = g.
Proof.
  unfold builtinFormats. intros Hf Hg.
  repeat (apply elem_of_cons in Hf as [->|Hf]);
    try (by apply elem_of_nil in Hf);
    repeat (apply elem_of_cons in Hg as [->|Hg]);
    try (by apply elem_of_nil in Hg);
    vm_compute; congruence.
Qed.

Section BuiltinRuns.
Context `{LexicalHost}.

Lemma textFormats_builtin_B (node : LexicalNode) :
  Forall (fun f => f ∈ builtinFormats) (RevB.textFormats node).
Proof.
  unfold RevB.textFormats, builtinFormats.
  repeat (apply Forall_app; split);
    match goal with |- Forall _ (if ?b then _ else _) => destruct b end;
    repeat constructor.
Qed.

(** The runs the text conversion of revision B buffers, whatever the
    text nodes, reconcile to a well-bracketed output. *)
Lemma text_runs_nested (nodes : list LexicalNode) :
  Tags.balanced Tags.matching []
    (Tags.flushInline_tokens
       (map (fun node => {| formats := RevB.textFormats node;
                            text := getTextContent node |}) nodes)) = true.
Proof.
  apply flushInline_nested. intros f g (rf & Hrf & Hf) (rg & Hrg & Hg).
  apply list_elem_of_In, in_map_iff in Hrf as (nf & <- & _).
  apply list_elem_of_In, in_map_iff in Hrg as (ng & <- & _).
  simpl in Hf, Hg. apply builtinFormats_coherent.
  - pose proof (textFormats_builtin_B nf) as Hall.
    rewrite Forall_forall in Hall. by apply Hall.
  - pose proof (textFormats_builtin_B ng) as Hall.
    rewrite Forall_forall in Hall. by apply Hall.
Qed.

End BuiltinRuns.

(** C4, at the input that breaks it.  An italic run written with * and
    a following italic run written with _ agree on type and
    [htmlInline], so the loop of [flushInline] takes them for one
    format: the * opened by the first run is answered by the _ of the
    second, and the output is not well-bracketed. *)
Theorem flushInline_mixed_tags_unbalanced :
  let inlineBuffer :=
    [mkInline "a" [Sample.italic]; mkInline "b" [Sample.italic_]] in
  Tags.flushInline_tokens inlineBuffer =
    [Tags.Open Sample.italic; Tags.Chars "a"; Tags.Chars "b";
     Tags.Close Sample.italic_] ∧
  Tags.renderAll (Tags.flushInline_tokens inlineBuffer) =
    RevB.flushInline_result inlineBuffer ∧
  RevB.flushInline_result inlineBuffer = "*ab_" ∧
  Tags.balanced Tags.matching [] (Tags.flushInline_tokens inlineBuffer) = false.
Proof. repeat split; vm_compute; reflexivity. Qed.

(** C5, at the input that breaks it.  The two italic formats differ in
    their opening tag, so they are not the same format for
    [isSameFormat]; the loop of [flushInline] compares type and
    [htmlInline] only, counts them as a common prefix of length 1 and
    neither closes nor reopens the tag between the runs.  The tag-stack
    reconciler closes * and opens _. *)
Theorem flushInline_ignores_openTag :
  let inlineBuffer :=
    [mkInline "a" [Sample.italic]; mkInline "b" [Sample.italic_]] in
  RevA.isSameFormat Sample.italic Sample.italic_ = false ∧
  RevB.sameAt Sample.italic Sample.italic_ = true ∧
  RevB.commonLength [Sample.italic] [Sample.italic_] = 1 ∧
  RevB.flushInline_result inlineBuffer = "*ab_" ∧
  RevA.getInlineText (@mkState Sample.host "" "" None false inlineBuffer) =
    "*a*_b_".
Proof. repeat split; vm_compute; reflexivity. Qed.

End ReconcilerFacts.

(** ** Relations kept by the operations *)

Section Respect.
Context `{LexicalHost}.
Variable R : relation MarkdownConvertorState.
Hypothesis R_refl : ∀ st, R st st.
Hypothesis R_trans : ∀ st1 st2 st3, R st1 st2 → R st2 st3 → R st1 st3.
Hypothesis R_addOutput : ∀ output, respects R (addOutput output).
Hypothesis R_flushClose : ∀ size, respects R (flushClose size).
Hypothesis R_setInlineBuffer : ∀ buffer, respects R (setInlineBuffer buffer).

Lemma respects_ensureNewLine : respects R ensureNewLine.
Proof.
  intros st. unfold ensureNewLine.
  destruct (isInBlank st); [apply R_refl|apply R_addOutput].
Qed.

Lemma respects_write (content : string) : respects R (write content).
Proof.
  intros st. unfold write.
  eapply R_trans; [apply (R_flushClose 2)|].
  set (st1 := flushClose 2 st).
  eapply R_trans with
    (if Str.truthy (_delim st1) && isInBlank st1
     then addOutput (_delim st1) st1 else st1).
  - destruct (_ && _); [apply R_addOutput|apply R_refl].
  - destruct (Str.truthy content); [apply R_addOutput|apply R_refl].
Qed.

Lemma respects_text_lines (lines : list string) : respects R (text_lines lines).
Proof.
  induction lines as [|line rest IH]; intros st; [apply R_refl|].
  simpl. assert (Hline : R st (addOutput line (write "" st))).
  { eapply R_trans; [apply respects_write|apply R_addOutput]. }
  destruct rest as [|line' rest]; [exact Hline|].
  eapply R_trans; [exact Hline|].
  eapply R_trans; [apply R_addOutput|apply IH].
Qed.

Lemma respects_text' (t : string) : respects R (text' t).
Proof. apply respects_text_lines. Qed.

Lemma respects_writeInline (inlineText : InlineText) :
  respects R (writeInline inlineText).
Proof. intros st. apply R_setInlineBuffer. Qed.

Lemma respects_forEach_convert (dispatch : Dispatch)
  (children : list LexicalNode) :
  (∀ node, respects R (dispatch node)) →
  respects R (forEach_convert dispatch children).
Proof.
  intros Hd. unfold forEach_convert.
  induction children as [|child children IH]; intros st; [apply R_refl|].
  simpl. eapply R_trans; [apply Hd|apply IH].
Qed.

Lemma respects_convertNode (dispatch : Dispatch) (parent : LexicalNode) :
  (∀ node, respects R (dispatch node)) →
  respects R (convertNode dispatch parent).
Proof. apply respects_forEach_convert. Qed.

Lemma respects_convertBlock
  (collection : list (gmap string (LexicalNode -> option MarkdownConversion)))
  (fuel : nat) :
  collectionRespects R collection →
  ∀ node, respects R (convertBlock fuel collection node).
Proof.
  intros Hcoll. induction fuel as [|fuel IH]; intros node st; [apply R_refl|].
  simpl. pose proof (selectConversion_firstHighest collection node) as Hsel.
  destruct (selectConversion collection node) as [c|]; [|apply R_refl].
  apply firstHighest_elem in Hsel. by apply (Hcoll node c Hsel).
Qed.

(** *** Revision A *)

Lemma respects_closeInlineText : respects R RevA.closeInlineText.
Proof. intros st. apply R_setInlineBuffer. Qed.

Lemma respects_flushInlineText : respects R RevA.flushInlineText.
Proof.
  intros st. unfold RevA.flushInlineText.
  eapply R_trans; [apply respects_write|apply respects_closeInlineText].
Qed.

Lemma respects_convertInline_A (dispatch : Dispatch) (parent : LexicalNode) :
  (∀ node, respects R (dispatch node)) →
  respects R (RevA.convertInline dispatch parent).
Proof.
  intros Hd st. unfold RevA.convertInline.
  eapply R_trans; [apply respects_flushInlineText|].
  eapply R_trans; [|apply respects_flushInlineText].
  destruct (isElementNode parent); [by apply respects_forEach_convert|apply Hd].
Qed.

Lemma respects_textConversion_A (dispatch : Dispatch) (node : LexicalNode) :
  respects R (RevA.textConversion dispatch node).
Proof.
  intros st. unfold RevA.textConversion.
  destruct (negb _); [apply R_refl|apply respects_writeInline].
Qed.

Lemma respects_lineBreakConversion_A (dispatch : Dispatch)
  (node : LexicalNode) :
  respects R (RevA.lineBreakConversion dispatch node).
Proof.
  intros st. unfold RevA.lineBreakConversion.
  destruct (negb _); [apply R_refl|].
  eapply R_trans; [apply respects_flushInlineText|apply respects_ensureNewLine].
Qed.

Lemma respects_tabConversion_A (dispatch : Dispatch) (node : LexicalNode) :
  respects R (RevA.tabConversion dispatch node).
Proof. intros st. apply respects_write. Qed.

Lemma respects_linkConversion (dispatch : Dispatch) (node : LexicalNode) :
  (∀ node, respects R (dispatch node)) →
  respects R (RevA.linkConversion dispatch node).
Proof.
  intros Hd st. unfold RevA.linkConversion.
  destruct (negb _); [apply R_refl|].
  destruct (_ && _); [by apply respects_forEach_convert|].
  eapply R_trans; [apply respects_flushInlineText|].
  eapply R_trans; [by apply respects_forEach_convert|].
  eapply R_trans; [apply respects_closeInlineText|].
  generalize (RevA.getInlineText
    (forEach_convert dispatch (getChildren node) (RevA.flushInlineText st))).
  intros t. apply respects_write.
Qed.

(** *** Revision B *)

Lemma respects_flushInline : respects R RevB.flushInline.
Proof.
  intros st. unfold RevB.flushInline.
  eapply R_trans; [apply respects_write|apply R_setInlineBuffer].
Qed.

Lemma respects_convertInline_B (dispatch : Dispatch) (parent : LexicalNode) :
  (∀ node, respects R (dispatch node)) →
  respects R (RevB.convertInline dispatch parent).
Proof.
  intros Hd st. unfold RevB.convertInline.
  eapply R_trans; [|apply respects_flushInline].
  destruct (isElementNode parent); [by apply respects_forEach_convert|apply Hd].
Qed.

Lemma respects_textConversion_B (dispatch : Dispatch) (node : LexicalNode) :
  respects R (RevB.textConversion dispatch node).
Proof.
  intros st. unfold RevB.textConversion.
  destruct (negb _); [apply R_refl|apply respects_writeInline].
Qed.

Lemma respects_lineBreakConversion_B (dispatch : Dispatch)
  (node : LexicalNode) :
  respects R (RevB.lineBreakConversion dispatch node).
Proof.
  intros st. unfold RevB.lineBreakConversion.
  destruct (negb _); [apply R_refl|apply respects_ensureNewLine].
Qed.

Lemma respects_tabConversion_B (dispatch : Dispatch) (node : LexicalNode) :
  respects R (RevB.tabConversion dispatch node).
Proof. intros st. apply respects_write. Qed.

End Respect.

(** ** Conversion maps *)

Section MapFacts.
Context `{LexicalHost}.

Lemma objectLiteral_lookup {V : Type} (props : list (string * V))
  (k : string) (v : V) :
  objectLiteral props !! k = Some v → (k, v) ∈ props.
Proof.
  unfold objectLiteral.
  assert (Hgen : ∀ m : gmap string V,
            fold_left (fun m kv => <[kv.1 := kv.2]> m) props m !! k = Some v →
            (k, v) ∈ props ∨ m !! k = Some v).
  { induction props as [|[k' v'] props IH]; intros m Hm; [by right|].
    simpl in Hm. apply IH in Hm as [Hin|Hm]; [left; by constructor|].
    apply lookup_insert_Some in Hm as [[<- <-]|[_ Hm]];
      [left; by constructor|by right]. }
  intros Hm. by apply Hgen in Hm as [Hin|Hm].
Qed.

Lemma collectionRespects_nil (R : relation MarkdownConvertorState) :
  collectionRespects R [].
Proof. intros node c Hc. by apply elem_of_nil in Hc. Qed.

Lemma collectionRespects_cons (R : relation MarkdownConvertorState)
  (conversionMap : gmap string (LexicalNode -> option MarkdownConversion))
  (collection : list (gmap string (LexicalNode -> option MarkdownConversion))) :
  (∀ k getConversion node c,
     conversionMap !! k = Some getConversion →
     getConversion node = Some c → conversionRespects R c) →
  collectionRespects R collection →
  collectionRespects R (conversionMap :: collection).
Proof.
  intros Hm Hcoll node c. unfold candidates. simpl.
  destruct (conversionMap !! getType node) as [g|] eqn:Hg; simpl.
  - destruct (g node) as [c'|] eqn:Hc'.
    + intros [->|Hc]%elem_of_cons; [by eapply Hm|by eapply Hcoll].
    + by apply Hcoll.
  - by apply Hcoll.
Qed.

End MapFacts.

(** ** The result only grows *)

Section AppendOnly.
Context `{LexicalHost}.

Lemma extends_refl (st : MarkdownConvertorState) : extends st st.
Proof. exists "". by rewrite StrFacts.app_nil_r. Qed.

Lemma extends_trans (st1 st2 st3 : MarkdownConvertorState) :
  extends st1 st2 → extends st2 st3 → extends st1 st3.
Proof.
  intros [s1 H1] [s2 H2]. exists (s1 +:+ s2).
  by rewrite H2, H1, StrFacts.app_assoc.
Qed.

Lemma extends_same (st st' : MarkdownConvertorState) :
  _result st' = _result st → extends st st'.
Proof. intros Hr. exists "". by rewrite StrFacts.app_nil_r. Qed.

Lemma extends_addOutput (output : string) : respects extends (addOutput output).
Proof. intros st. by exists output. Qed.

Lemma extends_iter_addOutput (n : nat) (output : string) :
  respects extends (Nat.iter n (addOutput output)).
Proof.
  induction n as [|n IH]; intros st; [apply extends_refl|].
  simpl. eapply extends_trans; [apply IH|apply extends_addOutput].
Qed.

Lemma extends_flushClose (size : Z) : respects extends (flushClose size).
Proof.
  intros st. unfold flushClose.
  destruct (_ || _); [apply extends_refl|].
  set (st1 := if negb (isInBlank st) then addOutput Str.nl st else st).
  assert (H1 : extends st st1).
  { unfold st1. destruct (negb _); [apply extends_addOutput|apply extends_refl]. }
  eapply extends_trans; [exact H1|].
  destruct (1 <? size)%Z.
  - eapply extends_trans; [apply extends_iter_addOutput|by apply extends_same].
  - by apply extends_same.
Qed.

Lemma extends_setInlineBuffer (buffer : list InlineText) :
  respects extends (setInlineBuffer buffer).
Proof. intros st. by apply extends_same. Qed.

Lemma extends_closeBlock (node : LexicalNode) : respects extends (closeBlock node).
Proof. intros st. by apply extends_same. Qed.

Lemma extends_close : respects extends close.
Proof. intros st. by apply extends_same. Qed.

Lemma extends_setDelim (delim : string) : respects extends (setDelim delim).
Proof. intros st. by apply extends_same. Qed.

Lemma extends_setStopNewline (b : bool) : respects extends (setStopNewline b).
Proof. intros st. by apply extends_same. Qed.

Local Ltac extends_side :=
  first [ exact extends_refl | exact extends_trans | exact extends_addOutput
        | exact extends_flushClose | exact extends_setInlineBuffer
        | assumption ].

Lemma extends_write (content : string) : respects extends (write content).
Proof. apply respects_write; extends_side. Qed.

Lemma extends_wrapBlock (delim : string) (firstDelim : option string)
  (node : LexicalNode)
  (fn : MarkdownConvertorState → MarkdownConvertorState) :
  respects extends fn →
  respects extends (wrapBlock delim firstDelim node fn).
Proof.
  intros Hfn st. unfold wrapBlock.
  eapply extends_trans; [apply extends_write|].
  eapply extends_trans; [apply extends_setDelim|].
  eapply extends_trans; [apply Hfn|].
  eapply extends_trans; [apply extends_setDelim|apply extends_closeBlock].
Qed.

Lemma extends_forEach_convert (dispatch : Dispatch)
  (children : list LexicalNode) :
  (∀ node, respects extends (dispatch node)) →
  respects extends (forEach_convert dispatch children).
Proof. intros Hd. apply respects_forEach_convert; extends_side. Qed.

Lemma extends_convertInline_A (dispatch : Dispatch) (parent : LexicalNode) :
  (∀ node, respects extends (dispatch node)) →
  respects extends (RevA.convertInline dispatch parent).
Proof. intros Hd. apply respects_convertInline_A; extends_side. Qed.

Lemma extends_convertInline_B (dispatch : Dispatch) (parent : LexicalNode) :
  (∀ node, respects extends (dispatch node)) →
  respects extends (RevB.convertInline dispatch parent).
Proof. intros Hd. apply respects_convertInline_B; extends_side. Qed.

Lemma extends_paragraphConversion_A (dispatch : Dispatch) (node : LexicalNode) :
  (∀ node, respects extends (dispatch node)) →
  respects extends (RevA.paragraphConversion dispatch node).
Proof.
  intros Hd st. unfold RevA.paragraphConversion.
  destruct (negb _); [apply extends_refl|].
  destruct (getStopNewline st); [by apply extends_convertInline_A|].
  eapply extends_trans; [|apply extends_closeBlock].
  destruct (isEmpty node); [apply extends_write|by apply extends_convertInline_A].
Qed.

Lemma extends_paragraphConversion_B (dispatch : Dispatch) (node : LexicalNode) :
  (∀ node, respects extends (dispatch node)) →
  respects extends (RevB.paragraphConversion dispatch node).
Proof.
  intros Hd st. unfold RevB.paragraphConversion.
  destruct (negb _); [apply extends_refl|].
  destruct (getStopNewline st); [by apply extends_convertInline_B|].
  eapply extends_trans; [|apply extends_closeBlock].
  destruct (isEmpty node); [apply extends_write|by apply extends_convertInline_B].
Qed.

Lemma extends_headingConversion_A (dispatch : Dispatch) (node : LexicalNode) :
  (∀ node, respects extends (dispatch node)) →
  respects extends (RevA.headingConversion dispatch node).
Proof.
  intros Hd st. unfold RevA.headingConversion.
  destruct (negb _); [apply extends_refl|].
  eapply extends_trans; [apply extends_write|].
  eapply extends_trans; [by apply extends_convertInline_A|].
  apply extends_closeBlock.
Qed.

Lemma extends_headingConversion_B (dispatch : Dispatch) (node : LexicalNode) :
  (∀ node, respects extends (dispatch node)) →
  respects extends (RevB.headingConversion dispatch node).
Proof.
  intros Hd st. unfold RevB.headingConversion.
  destruct (negb _); [apply extends_refl|].
  eapply extends_trans; [apply extends_write|].
  eapply extends_trans; [by apply extends_convertInline_B|].
  apply extends_closeBlock.
Qed.

Lemma extends_convertList_A (dispatch : Dispatch) (node : LexicalNode)
  (delim : string) (firstDelimFn : nat → string) :
  (∀ node, respects extends (dispatch node)) →
  respects extends (RevA.convertList dispatch node delim firstDelimFn).
Proof.
  intros Hd st. unfold RevA.convertList.
  eapply extends_trans with
    (match getClosed st with
     | Some c => if String.eqb (getType c) (getType node)
                 then flushClose 3 st else flushClose 1 st
     | None => flushClose 1 st
     end).
  { destruct (getClosed st) as [c|]; [|apply extends_flushClose].
    destruct (String.eqb _ _); apply extends_flushClose. }
  generalize (match getClosed st with
     | Some c => if String.eqb (getType c) (getType node)
                 then flushClose 3 st else flushClose 1 st
     | None => flushClose 1 st
     end). generalize 0.
  induction (getChildren node) as [|child children IH]; intros index s;
    [apply extends_refl|].
  simpl. eapply extends_trans; [|apply IH].
  eapply extends_trans; [|by apply extends_wrapBlock].
  destruct index; [apply extends_refl|apply extends_flushClose].
Qed.

Lemma extends_convertList_B (dispatch : Dispatch) (node : LexicalNode)
  (delim : string) (firstDelimFn : nat → string) :
  (∀ node, respects extends (dispatch node)) →
  respects extends (RevB.convertList dispatch node delim firstDelimFn).
Proof.
  intros Hd st. unfold RevB.convertList.
  eapply extends_trans with
    (match getClosed st with
     | Some c => if String.eqb (getType c) (getType node)
                 then flushClose 3 st else flushClose 1 st
     | None => flushClose 1 st
     end).
  { destruct (getClosed st) as [c|]; [|apply extends_flushClose].
    destruct (String.eqb _ _); apply extends_flushClose. }
  generalize (match getClosed st with
     | Some c => if String.eqb (getType c) (getType node)
                 then flushClose 3 st else flushClose 1 st
     | None => flushClose 1 st
     end). generalize 0.
  induction (getChildren node) as [|child children IH]; intros index s;
    [apply extends_refl|].
  simpl. eapply extends_trans; [|apply IH].
  eapply extends_trans; [|by apply extends_wrapBlock].
  destruct index; [apply extends_refl|apply extends_flushClose].
Qed.

Lemma extends_convertTableCell_A (dispatch : Dispatch) (node : LexicalNode) :
  (∀ node, respects extends (dispatch node)) →
  respects extends (RevA.convertTableCell dispatch node).
Proof.
  intros Hd st. unfold RevA.convertTableCell.
  eapply extends_trans; [apply (extends_setStopNewline true)|].
  eapply extends_trans; [|apply (extends_setStopNewline false)].
  generalize (setStopNewline true st).
  induction (getChildren node) as [|child children IH]; intros s;
    [apply extends_refl|].
  simpl. eapply extends_trans; [|apply IH].
  unfold RevA.convertTableCell_child.
  destruct (isParagraphNode child).
  { eapply extends_trans; [apply Hd|apply extends_close]. }
  destruct (_ || _); [apply extends_close|by apply extends_convertInline_A].
Qed.

Lemma extends_convertTableCell_B (dispatch : Dispatch) (node : LexicalNode) :
  (∀ node, respects extends (dispatch node)) →
  respects extends (RevB.convertTableCell dispatch node).
Proof.
  intros Hd st. unfold RevB.convertTableCell.
  eapply extends_trans; [apply (extends_setStopNewline true)|].
  eapply extends_trans; [|apply (extends_setStopNewline false)].
  generalize (setStopNewline true st).
  induction (getChildren node) as [|child children IH]; intros s;
    [apply extends_refl|].
  simpl. eapply extends_trans; [|apply IH].
  unfold RevB.convertTableCell_child.
  destruct (isParagraphNode child).
  { eapply extends_trans; [apply Hd|apply extends_close]. }
  destruct (_ || _); [apply extends_close|by apply extends_convertInline_B].
Qed.

(** The built-in maps offer only conversions that keep the result
    growing. *)
Lemma extends_defaultMap_A
  (maps : list (gmap string (LexicalNode -> option MarkdownConversion))) :
  collectionRespects extends maps →
  collectionRespects extends (RevA.defaultMarkdownConversionMap :: maps).
Proof.
  apply collectionRespects_cons. intros k g node c Hk Hg.
  apply objectLiteral_lookup in Hk.
  repeat (apply elem_of_cons in Hk as [Hk|Hk]);
    try (by apply elem_of_nil in Hk);
    injection Hk as _ ->; simpl in Hg;
    try (match type of Hg with context [negb ?b] => destruct b end);
    simpl in Hg; simplify_eq; intros dispatch Hd node' st; simpl.
  - apply respects_textConversion_A; extends_side.
  - apply respects_lineBreakConversion_A; extends_side.
  - apply respects_tabConversion_A; extends_side.
  - by apply extends_paragraphConversion_A.
  - apply respects_linkConversion; extends_side.
  - by apply extends_headingConversion_A.
Qed.

Lemma extends_defaultMap_B
  (maps : list (gmap string (LexicalNode -> option MarkdownConversion))) :
  collectionRespects extends maps →
  collectionRespects extends (RevB.defaultMarkdownConversionMap :: maps).
Proof.
  apply collectionRespects_cons. intros k g node c Hk Hg.
  apply objectLiteral_lookup in Hk.
  repeat (apply elem_of_cons in Hk as [Hk|Hk]);
    try (by apply elem_of_nil in Hk);
    injection Hk as _ ->; simpl in Hg;
    try (match type of Hg with context [negb ?b] => destruct b end);
    simpl in Hg; simplify_eq; intros dispatch Hd node' st; simpl.
  - apply respects_textConversion_B; extends_side.
  - apply respects_lineBreakConversion_B; extends_side.
  - apply respects_tabConversion_B; extends_side.
  - by apply extends_paragraphConversion_B.
Qed.

Lemma extends_headingMap
  (maps : list (gmap string (LexicalNode -> option MarkdownConversion))) :
  collectionRespects extends maps →
  collectionRespects extends (RevB.headingMarkdownConversionMap :: maps).
Proof.
  apply collectionRespects_cons. intros k g node c Hk Hg.
  apply objectLiteral_lookup in Hk.
  repeat (apply elem_of_cons in Hk as [Hk|Hk]);
    try (by apply elem_of_nil in Hk);
    injection Hk as _ ->; simplify_eq; intros dispatch Hd node' st; simpl.
  by apply extends_headingConversion_B.
Qed.

End AppendOnly.

(** C10.  Every operation of the serialization state leaves a result
    that starts with the result it found: the primitives, the inline
    flushes of both revisions, [wrapBlock] around a body that only
    appends, and [convertBlock], [convertNode] and [convertInline] over
    conversions that only append, the built-in conversions among them. *)
Theorem result_append_only `{LexicalHost} :
  (∀ delim, respects extends (setDelim delim)) ∧
  (∀ stopNewline, respects extends (setStopNewline stopNewline)) ∧
  respects extends ensureNewLine ∧
  (∀ size, respects extends (flushClose size)) ∧
  (∀ content, respects extends (write content)) ∧
  (∀ t, respects extends (text' t)) ∧
  (∀ inlineText, respects extends (writeInline inlineText)) ∧
  (∀ node, respects extends (closeBlock node)) ∧
  respects extends close ∧
  (∀ delim firstDelim node fn,
     respects extends fn →
     respects extends (wrapBlock delim firstDelim node fn)) ∧
  (∀ fuel collection node,
     collectionRespects extends collection →
     respects extends (convertBlock fuel collection node)) ∧
  (∀ dispatch : Dispatch, (∀ node, respects extends (dispatch node)) →
     ∀ parent,
       respects extends (convertNode dispatch parent) ∧
       respects extends (RevA.convertInline dispatch parent) ∧
       respects extends (RevB.convertInline dispatch parent) ∧
       respects extends (RevA.convertTableCell dispatch parent) ∧
       respects extends (RevB.convertTableCell dispatch parent) ∧
       (∀ delim firstDelimFn,
          respects extends (RevA.convertList dispatch parent delim firstDelimFn) ∧
          respects extends (RevB.convertList dispatch parent delim firstDelimFn))) ∧
  respects extends RevA.flushInlineText ∧
  respects extends RevA.closeInlineText ∧
  respects extends RevB.flushInline ∧
  (∀ maps, collectionRespects extends maps →
     collectionRespects extends (RevA.defaultMarkdownConversionMap :: maps) ∧
     collectionRespects extends (RevB.defaultMarkdownConversionMap :: maps) ∧
     collectionRespects extends (RevB.headingMarkdownConversionMap :: maps)) ∧
  (∀ fuel node,
     respects extends
       (convertBlock fuel [RevA.defaultMarkdownConversionMap] node) ∧
     respects extends
       (convertBlock fuel
          [RevB.defaultMarkdownConversionMap;
           RevB.headingMarkdownConversionMap] node)).
Proof.
  pose proof extends_refl as Hrefl. pose proof extends_trans as Htrans.
  pose proof extends_addOutput as Hadd.
  pose proof extends_flushClose as Hflush.
  pose proof extends_setInlineBuffer as Hbuf.
  repeat match goal with |- _ ∧ _ => split end.
  - apply extends_setDelim.
  - apply extends_setStopNewline.
  - by apply respects_ensureNewLine.
  - apply extends_flushClose.
  - apply extends_write.
  - intros t. by apply respects_text'.
  - intros r. by apply respects_writeInline.
  - apply extends_closeBlock.
  - apply extends_close.
  - apply extends_wrapBlock.
  - intros fuel collection node Hc. by apply respects_convertBlock.
  - intros dispatch Hd parent.
    repeat match goal with |- _ ∧ _ => split end.
    + by apply extends_forEach_convert.
    + by apply extends_convertInline_A.
    + by apply extends_convertInline_B.
    + by apply extends_convertTableCell_A.
    + by apply extends_convertTableCell_B.
    + intros delim firstDelimFn.
      split; [by apply extends_convertList_A|by apply extends_convertList_B].
  - by apply respects_flushInlineText.
  - by apply respects_closeInlineText.
  - by apply respects_flushInline.
  - intros maps Hmaps. split; [|split].
    + by apply extends_defaultMap_A.
    + by apply extends_defaultMap_B.
    + by apply extends_headingMap.
  - intros fuel node. split; apply respects_convertBlock; try done.
    + apply extends_defaultMap_A, collectionRespects_nil.
    + apply extends_defaultMap_B, extends_headingMap, collectionRespects_nil.
Qed.

(** [extends] is the prefix order of the results. *)
Lemma prefix_app (s t : string) : String.prefix s (s +:+ t) = true.
Proof.
  induction s as [|c s IH]; [by destruct t|].
  rewrite StrFacts.app_cons. simpl.
  destruct (ascii_dec c c); [exact IH|done].
Qed.

Lemma prefix_inv (s1 s2 : string) :
  String.prefix s1 s2 = true → ∃ t, s2 = s1 +:+ t.
Proof.
  revert s2. induction s1 as [|c s1 IH]; intros s2 Hp; [by exists s2|].
  destruct s2 as [|c' s2]; [done|]. simpl in Hp.
  destruct (ascii_dec c c') as [->|]; [|done].
  apply IH in Hp as [t ->]. by exists t.
Qed.

Lemma extends_prefix `{LexicalHost} (st st' : MarkdownConvertorState) :
  extends st st' ↔ String.prefix (_result st) (_result st') = true.
Proof.
  split.
  - intros [t ->]. apply prefix_app.
  - intros Hp. by apply prefix_inv.
Qed.

(** ** Suppressed blank lines *)

Section Quiet.
Context `{LexicalHost}.

Lemma quiet_refl (st : MarkdownConvertorState) : quiet st st.
Proof. by intros Hs. Qed.

Lemma quiet_trans (st1 st2 st3 : MarkdownConvertorState) :
  quiet st1 st2 → quiet st2 st3 → quiet st1 st3.
Proof.
  intros H12 H23 Hs. destruct (H12 Hs) as [Hs2 Hc2].
  destruct (H23 Hs2) as [Hs3 Hc3]. split; [done|congruence].
Qed.

Lemma quiet_addOutput (output : string) : respects quiet (addOutput output).
Proof. by intros st Hs. Qed.

Lemma quiet_flushClose (size : Z) : respects quiet (flushClose size).
Proof. intros st Hs. by rewrite flushClose_suppressed. Qed.

Lemma quiet_setInlineBuffer (buffer : list InlineText) :
  respects quiet (setInlineBuffer buffer).
Proof. by intros st Hs. Qed.

Local Ltac quiet_side :=
  first [ exact quiet_refl | exact quiet_trans | exact quiet_addOutput
        | exact quiet_flushClose | exact quiet_setInlineBuffer
        | assumption ].

Lemma quiet_convertInline_A (dispatch : Dispatch) (parent : LexicalNode) :
  (∀ node, respects quiet (dispatch node)) →
  respects quiet (RevA.convertInline dispatch parent).
Proof. intros Hd. apply respects_convertInline_A; quiet_side. Qed.

Lemma quiet_convertInline_B (dispatch : Dispatch) (parent : LexicalNode) :
  (∀ node, respects quiet (dispatch node)) →
  respects quiet (RevB.convertInline dispatch parent).
Proof. intros Hd. apply respects_convertInline_B; quiet_side. Qed.

Lemma quiet_paragraphConversion_A (dispatch : Dispatch) (node : LexicalNode) :
  (∀ node, respects quiet (dispatch node)) →
  respects quiet (RevA.paragraphConversion dispatch node).
Proof.
  intros Hd st Hs. unfold RevA.paragraphConversion, getStopNewline.
  rewrite Hs. destruct (negb _); [done|]. by apply quiet_convertInline_A.
Qed.

Lemma quiet_paragraphConversion_B (dispatch : Dispatch) (node : LexicalNode) :
  (∀ node, respects quiet (dispatch node)) →
  respects quiet (RevB.paragraphConversion dispatch node).
Proof.
  intros Hd st Hs. unfold RevB.paragraphConversion, getStopNewline.
  rewrite Hs. destruct (negb _); [done|]. by apply quiet_convertInline_B.
Qed.

(** The conversions of the built-in map of revision B (text, line break,
    tab, paragraph) never mark a pending close under suppression. *)
Lemma quiet_defaultMap_B
  (maps : list (gmap string (LexicalNode -> option MarkdownConversion))) :
  collectionRespects quiet maps →
  collectionRespects quiet (RevB.defaultMarkdownConversionMap :: maps).
Proof.
  apply collectionRespects_cons. intros k g node c Hk Hg.
  apply objectLiteral_lookup in Hk.
  repeat (apply elem_of_cons in Hk as [Hk|Hk]);
    try (by apply elem_of_nil in Hk);
    injection Hk as _ ->; simpl in Hg;
    try (match type of Hg with context [negb ?b] => destruct b end);
    simpl in Hg; simplify_eq; intros dispatch Hd node' st; simpl.
  - apply respects_textConversion_B; quiet_side.
  - apply respects_lineBreakConversion_B; quiet_side.
  - apply respects_tabConversion_B; quiet_side.
  - by apply quiet_paragraphConversion_B.
Qed.

Lemma quiet_convertBlock_B (fuel : nat) (node : LexicalNode) :
  respects quiet (convertBlock fuel [RevB.defaultMarkdownConversionMap] node).
Proof.
  apply respects_convertBlock; try quiet_side.
  apply quiet_defaultMap_B, collectionRespects_nil.
Qed.

(** C6.  With blank-line suppression on, the paragraph conversion is
    the dispatch of its inline content and nothing more: it does not
    call [closeBlock].  When the conversions of the children leave the
    marker alone under suppression (as the built-in text, line-break,
    tab and paragraph conversions do), the marker after the paragraph is
    the marker before it and suppression is still on.  [flushClose]
    changes nothing while suppression is on, before the paragraph and
    after it, whatever marker is pending. *)
Theorem paragraph_under_suppression (dispatch : Dispatch)
  (node : LexicalNode) (size : Z) (st : MarkdownConvertorState) :
  _stopNewline st = true →
  isParagraphNode node = true →
  RevA.paragraphConversion dispatch node st =
    RevA.convertInline dispatch node st ∧
  RevB.paragraphConversion dispatch node st =
    RevB.convertInline dispatch node st ∧
  flushClose size st = st ∧
  ((∀ child, respects quiet (dispatch child)) →
   (_closed (RevA.paragraphConversion dispatch node st) = _closed st ∧
    _stopNewline (RevA.paragraphConversion dispatch node st) = true ∧
    flushClose size (RevA.paragraphConversion dispatch node st) =
      RevA.paragraphConversion dispatch node st) ∧
   (_closed (RevB.paragraphConversion dispatch node st) = _closed st ∧
    _stopNewline (RevB.paragraphConversion dispatch node st) = true ∧
    flushClose size (RevB.paragraphConversion dispatch node st) =
      RevB.paragraphConversion dispatch node st)).
Proof.
  intros Hs Hp.
  split; [|split; [|split]].
  - unfold RevA.paragraphConversion, getStopNewline. by rewrite Hp, Hs.
  - unfold RevB.paragraphConversion, getStopNewline. by rewrite Hp, Hs.
  - by apply flushClose_suppressed.
  - intros Hd.
    destruct (quiet_paragraphConversion_A dispatch node Hd st Hs) as [HsA HcA].
    destruct (quiet_paragraphConversion_B dispatch node Hd st Hs) as [HsB HcB].
    split; (split; [done|split; [done|by apply flushClose_suppressed]]).
Qed.

End Quiet.

Lemma paragraph_under_suppression_witness :
  let dispatch := convertBlock 1 [@RevB.defaultMarkdownConversionMap Sample.host] in
  let node := Sample.Paragraph [Sample.Text "a" []] in
  let st := @mkState Sample.host "" "x" (Some (Sample.Paragraph [])) true [] in
  _stopNewline st = true ∧
  isParagraphNode node = true ∧
  _result (RevB.paragraphConversion dispatch node st) = "xa" ∧
  _closed (RevB.paragraphConversion dispatch node st) = _closed st ∧
  flushClose 2 st = st.
Proof.
  intros dispatch node st.
  split; [reflexivity|]. split; [reflexivity|]. split; [reflexivity|].
  pose proof (@paragraph_under_suppression Sample.host dispatch node 2 st
                eq_refl eq_refl) as (_ & _ & Hf & Hq).
  destruct (Hq (quiet_convertBlock_B 1)) as (_ & HB & _).
  split; [exact HB|exact Hf].
Defined.

(** Outside suppression the same paragraph, after the same pending
    block, is set off by a blank line and marks its own close. *)
Example paragraph_without_suppression :
  let dispatch := convertBlock 1 [@RevB.defaultMarkdownConversionMap Sample.host] in
  let node := Sample.Paragraph [Sample.Text "a" []] in
  let st := @mkState Sample.host "" "x" (Some (Sample.Paragraph [])) false [] in
  _result (RevB.paragraphConversion dispatch node st) =
    "x" +:+ Str.nl +:+ Str.nl +:+ "a" ∧
  _closed (RevB.paragraphConversion dispatch node st) = Some node.
Proof. split; reflexivity. Qed.

(** ** The built-in conversions *)

Section ConversionFacts.
Context `{LexicalHost}.

Lemma write_closed (content : string) (st : MarkdownConvertorState) :
  _closed (write content st) =
    if _stopNewline st then _closed st else None.
Proof.
  unfold write.
  destruct (_ && _), (Str.truthy content); simpl; apply flushClose_closed.
Qed.

(** What [write] puts in front of its content: the pending blank lines
    and the delimiter, that is the output of [write()]. *)
Lemma write_result (content : string) (st : MarkdownConvertorState) :
  _result (write content st) = _result (write "" st) +:+ content.
Proof.
  unfold write. simpl Str.truthy. cbv iota.
  destruct (Str.truthy content) eqn:Hc; [done|].
  apply StrFacts.truthy_false in Hc as ->. by rewrite StrFacts.app_nil_r.
Qed.

Lemma ensureNewLine_frame (st : MarkdownConvertorState) :
  _inlineBuffer (ensureNewLine st) = _inlineBuffer st ∧
  _closed (ensureNewLine st) = _closed st.
Proof. unfold ensureNewLine. by destruct (isInBlank st). Qed.

(** The line-break conversion of revision A: the buffered runs are
    reconciled and written, then the line is ended.  The buffer is empty
    afterwards, the output ends a line, and the conversion sets no
    pending close (it can only consume one, through [write]). *)
Lemma lineBreakConversion_A_flushes (dispatch : Dispatch)
  (node : LexicalNode) (st : MarkdownConvertorState) :
  isLineBreakNode node = true →
  RevA.lineBreakConversion dispatch node st =
    ensureNewLine
      (RevA.closeInlineText (write (RevA.getInlineText st) st)) ∧
  _inlineBuffer (RevA.lineBreakConversion dispatch node st) = [] ∧
  isInBlank (RevA.lineBreakConversion dispatch node st) = true ∧
  _closed (RevA.lineBreakConversion dispatch node st) =
    (if _stopNewline st then _closed st else None).
Proof.
  intros Hn. unfold RevA.lineBreakConversion. rewrite Hn. simpl negb. cbv iota.
  split; [done|]. split; [|split].
  - by rewrite (proj1 (ensureNewLine_frame _)).
  - apply isInBlank_ensureNewLine.
  - rewrite (proj2 (ensureNewLine_frame _)).
    unfold RevA.flushInlineText, RevA.closeInlineText. simpl.
    apply write_closed.
Qed.

(** The line-break conversion of revision B ends the line and leaves the
    buffered runs where they are. *)
Lemma lineBreakConversion_B_no_flush (dispatch : Dispatch)
  (node : LexicalNode) (st : MarkdownConvertorState) :
  isLineBreakNode node = true →
  RevB.lineBreakConversion dispatch node st = ensureNewLine st ∧
  _inlineBuffer (RevB.lineBreakConversion dispatch node st) = _inlineBuffer st.
Proof.
  intros Hn. unfold RevB.lineBreakConversion. rewrite Hn. simpl negb. cbv iota.
  split; [done|]. apply ensureNewLine_frame.
Qed.

Lemma Number_headingTag (level : nat) :
  1 ≤ level ≤ 6 →
  Str.repeatCount (Str.Number (Str.substring1 (headingTag level))) = level.
Proof.
  intros [H1 H6].
  do 7 (destruct level as [|level]; [first [lia|reflexivity]|]). lia.
Qed.

(** C9.  A heading of level N (tag hN, N from 1 to 6) writes N
    characters # and a space after whatever [write] puts first (pending
    blank lines, the delimiter), then dispatches its inline content, then
    marks its close.  An empty paragraph outside suppression writes
    <br> the same way and marks its close.  Both revisions agree. *)
Theorem heading_and_empty_paragraph (dispatch : Dispatch)
  (heading paragraph : LexicalNode) (level : nat)
  (st : MarkdownConvertorState) :
  isHeadingNode heading = true →
  getTag heading = headingTag level →
  1 ≤ level ≤ 6 →
  isParagraphNode paragraph = true →
  isEmpty paragraph = true →
  _stopNewline st = false →
  (RevA.headingConversion dispatch heading st =
     closeBlock heading
       (RevA.convertInline dispatch heading
          (write (Str.repeat "#" level +:+ " ") st)) ∧
   RevB.headingConversion dispatch heading st =
     closeBlock heading
       (RevB.convertInline dispatch heading
          (write (Str.repeat "#" level +:+ " ") st)) ∧
   _result (write (Str.repeat "#" level +:+ " ") st) =
     _result (write "" st) +:+ Str.repeat "#" level +:+ " " ∧
   _closed (RevA.headingConversion dispatch heading st) = Some heading ∧
   _closed (RevB.headingConversion dispatch heading st) = Some heading) ∧
  (RevA.paragraphConversion dispatch paragraph st =
     closeBlock paragraph (write "<br>" st) ∧
   RevB.paragraphConversion dispatch paragraph st =
     closeBlock paragraph (write "<br>" st) ∧
   _result (closeBlock paragraph (write "<br>" st)) =
     _result (write "" st) +:+ "<br>" ∧
   _closed (closeBlock paragraph (write "<br>" st)) = Some paragraph).
Proof.
  intros Hh Htag Hlevel Hp Hempty Hs.
  assert (HA : RevA.headingConversion dispatch heading st =
     closeBlock heading
       (RevA.convertInline dispatch heading
          (write (Str.repeat "#" level +:+ " ") st))).
  { unfold RevA.headingConversion.
    by rewrite Hh, Htag, Number_headingTag. }
  assert (HB : RevB.headingConversion dispatch heading st =
     closeBlock heading
       (RevB.convertInline dispatch heading
          (write (Str.repeat "#" level +:+ " ") st))).
  { unfold RevB.headingConversion.
    by rewrite Hh, Htag, Number_headingTag. }
  split.
  - split; [exact HA|]. split; [exact HB|]. split; [apply write_result|].
    by rewrite HA, HB.
  - split; [|split; [|split; [apply write_result|done]]].
    + unfold RevA.paragraphConversion, getStopNewline.
      by rewrite Hp, Hs, Hempty.
    + unfold RevB.paragraphConversion, getStopNewline.
      by rewrite Hp, Hs, Hempty.
Qed.

End ConversionFacts.

Lemma heading_and_empty_paragraph_witness :
  let dispatch := convertBlock 1 [@RevA.defaultMarkdownConversionMap Sample.host] in
  let heading := Sample.Heading "h2" [Sample.Text "Title" []] in
  let paragraph := Sample.Paragraph [] in
  let st := @newState Sample.host in
  isHeadingNode heading = true ∧
  getTag heading = headingTag 2 ∧
  1 ≤ 2 ≤ 6 ∧
  isParagraphNode paragraph = true ∧
  isEmpty paragraph = true ∧
  _stopNewline st = false ∧
  _result (RevA.headingConversion dispatch heading st) = "## Title" ∧
  _result (RevB.headingConversion dispatch heading st) = "## Title" ∧
  _closed (RevA.headingConversion dispatch heading st) = Some heading ∧
  _result (RevA.paragraphConversion dispatch paragraph st) = "<br>" ∧
  _closed (RevA.paragraphConversion dispatch paragraph st) = Some paragraph.
Proof.
  intros dispatch heading paragraph st.
  pose proof (@heading_and_empty_paragraph Sample.host dispatch heading
                paragraph 2 st eq_refl eq_refl (conj (le_S _ _ (le_n 1))
                  (le_S _ _ (le_S _ _ (le_S _ _ (le_S _ _ (le_n 2))))))
                eq_refl eq_refl eq_refl)
    as ((HA & HB & _ & HcA & _) & (HpA & _ & Hres & Hcl)).
  split; [reflexivity|]. split; [reflexivity|].
  split; [split; repeat constructor|].
  split; [reflexivity|]. split; [reflexivity|]. split; [reflexivity|].
  split; [by rewrite HA|]. split; [by rewrite HB|]. split; [exact HcA|].
  split; [by rewrite HpA, Hres|by rewrite HpA, Hcl].
Defined.

(** The instances the spec names, through the entry point: a level-2
    heading with the text Title, and an empty paragraph. *)
Example heading_title_and_br (fuel : nat) :
  RevA.createGenerateMarkdownFromNode (2 + fuel) []
    (Sample.Paragraph [Sample.Heading "h2" [Sample.Text "Title" []]]) =
    "## Title" ∧
  RevB.createGenerateMarkdownFromNode (2 + fuel)
    [RevB.headingMarkdownConversionMap]
    (Sample.Paragraph [Sample.Heading "h2" [Sample.Text "Title" []]]) =
    "## Title" ∧
  RevA.createGenerateMarkdownFromNode (1 + fuel) []
    (Sample.Paragraph [Sample.Paragraph []]) = "<br>" ∧
  RevB.createGenerateMarkdownFromNode (1 + fuel) []
    (Sample.Paragraph [Sample.Paragraph []]) = "<br>".
Proof. repeat split; vm_compute; reflexivity. Qed.

(** C7, at the input that breaks it.  In revision B the line-break
    conversion calls [ensureNewLine] without flushing: with the run a
    buffered and x written, the line feed lands after x and the run is
    still in the buffer.  Through the entry point, the paragraph
    a, line break, b comes out as ab; revision A, which flushes first,
    gives a, line feed, b. *)
Theorem lineBreak_B_does_not_flush (dispatch : @Dispatch Sample.host)
  (fuel : nat) :
  let st := @mkState Sample.host "" "x" None false [mkInline "a" []] in
  let root :=
    Sample.Paragraph
      [Sample.Paragraph
         [Sample.Text "a" []; Sample.LineBreak; Sample.Text "b" []]] in
  RevB.lineBreakConversion dispatch Sample.LineBreak st =
    @mkState Sample.host "" ("x" +:+ Str.nl) None false [mkInline "a" []] ∧
  RevA.lineBreakConversion dispatch Sample.LineBreak st =
    @mkState Sample.host "" ("xa" +:+ Str.nl) None false [] ∧
  RevB.createGenerateMarkdownFromNode (2 + fuel) [] root = "ab" ∧
  RevA.createGenerateMarkdownFromNode (2 + fuel) [] root =
    "a" +:+ Str.nl +:+ "b".
Proof. repeat split; vm_compute; reflexivity. Qed.

(** ** The tag-stack reconciler *)

Module TagStackFacts.
Import ReconcilerFacts.

Lemma fold_left_commute {A B X : Type} (g : B → A)
  (fs : A → X → A) (ft : B → X → B) :
  (∀ b x, fs (g b) x = g (ft b x)) →
  ∀ l b, fold_left fs l (g b) = g (fold_left ft l b).
Proof.
  intros Hstep l. induction l as [|x l IH]; intros b; [done|].
  simpl. by rewrite Hstep, IH.
Qed.

Lemma renderAll_snoc (ts : list Tags.Token) (t : Tags.Token) :
  Tags.renderAll (ts ++ [t]) = Tags.renderAll ts +:+ Tags.render t.
Proof.
  rewrite renderAll_app, renderAll_cons.
  unfold Tags.renderAll at 2. simpl. by rewrite StrFacts.app_nil_r.
Qed.

Lemma process_open_render (cur : InlineText) (prev : option InlineText)
  (acc : list nat * list InlineFormat * list Tags.Token)
  (slot : nat * InlineFormat) :
  RevA.process_open cur prev (renderOpen acc) slot =
    renderOpen (Tags.process_open cur prev acc slot).
Proof.
  destruct acc as [[applied U] toks], slot as [i f].
  unfold RevA.process_open, Tags.process_open, renderOpen. simpl.
  destruct (_ && negb (bool_decide (i ∈ applied))); [|done].
  destruct (_ || _); [|done]. simpl. by rewrite renderAll_snoc.
Qed.

Lemma process_close_render (unclosable : list InlineFormat) (nh xh : bool)
  (acc : list Tags.Token * list Tags.Token * list InlineFormat)
  (tag : InlineFormat) :
  RevA.process_close unclosable nh xh (renderClose acc) tag =
    renderClose (Tags.process_close unclosable nh xh acc tag).
Proof.
  destruct acc as [[before after] U].
  unfold RevA.process_close, Tags.process_close, renderClose. simpl.
  destruct (existsb _ unclosable); [done|].
  destruct nh, xh; simpl; by rewrite ?renderAll_snoc.
Qed.

Lemma process_render (inlineBuffer : list InlineText) (cur : InlineText)
  (index : nat) (U unclosable : list InlineFormat) :
  RevA.process inlineBuffer cur index U unclosable =
    (Tags.renderAll (Tags.process inlineBuffer cur index U unclosable).1,
     (Tags.process inlineBuffer cur index U unclosable).2).
Proof.
  unfold RevA.process, Tags.process.
  change ([], U, "") with (renderOpen ([], U, [])).
  rewrite (fold_left_commute renderOpen _ _ (process_open_render cur _)).
  destruct (fold_left _ (imap pair (formats cur)) ([], U, []))
    as [[applied U1] opening].
  unfold renderOpen. simpl.
  destruct (RevA.process_scan cur (inlineBuffer !! S index) 0 U1)
    as [[[i nh] xh]|].
  - change ("", "", U1) with (renderClose ([], [], U1)).
    rewrite (fold_left_commute renderClose _ _
               (process_close_render unclosable nh xh)).
    destruct (fold_left _ (reverse (drop i U1)) ([], [], U1))
      as [[before after] U2].
    unfold renderClose. simpl.
    by rewrite !renderAll_app, renderAll_cons.
  - simpl. rewrite renderAll_app, renderAll_cons.
    unfold Tags.renderAll at 3. simpl. done.
Qed.

Lemma getInlineText_map_render (inlineBuffer rest : list InlineText)
  (index : nat) (U unclosable : list InlineFormat) :
  Str.join (RevA.getInlineText_map inlineBuffer index rest U unclosable) =
    Tags.renderAll (Tags.getInlineText_map inlineBuffer index rest U unclosable).
Proof.
  revert index U. induction rest as [|cur rest IH]; intros index U; [done|].
  simpl. rewrite process_render.
  destruct (Tags.process inlineBuffer cur index U unclosable) as [out U'].
  simpl. by rewrite renderAll_app, IH.
Qed.

(** The recorded pieces, concatenated, are the string [getInlineText]
    returns. *)
Lemma getInlineText_tokens_render `{LexicalHost}
  (st : MarkdownConvertorState) :
  Tags.renderAll (Tags.getInlineText_tokens (_inlineBuffer st)) =
    RevA.getInlineText st.
Proof.
  unfold RevA.getInlineText, Tags.getInlineText_tokens.
  rewrite getInlineText_map_render.
  by destruct (_inlineBuffer st).
Qed.

Lemma isSameFormat_refl (f : InlineFormat) : RevA.isSameFormat f f = true.
Proof. by apply isSameFormat_spec. Qed.

Lemma hasFormatIn_elem (cur : InlineText) (f : InlineFormat) :
  f ∈ formats cur → RevA.hasFormatIn (Some cur) f = true.
Proof.
  intros Hf. simpl. apply existsb_exists. exists f.
  split; [by apply list_elem_of_In|apply isSameFormat_refl].
Qed.

Lemma hasFormatIn_None_nil (tags : list InlineFormat) :
  Forall (fun t => RevA.hasFormatIn None t = true) tags → tags = [].
Proof. destruct tags as [|t tags]; [done|]. by inversion 1. Qed.

(** The first loop pushes formats of the run, and opens what it pushes. *)
Lemma fold_process_open_shape (cur : InlineText) (prev : option InlineText)
  (slots : list (nat * InlineFormat)) (applied : list nat)
  (U : list InlineFormat) (toks : list Tags.Token) :
  ∃ applied' newly,
    fold_left (Tags.process_open cur prev) slots (applied, U, toks) =
      (applied', U ++ newly, toks ++ map Tags.Open newly) ∧
    Forall (fun f => ∃ i, (i, f) ∈ slots) newly.
Proof.
  revert applied U toks.
  induction slots as [|[i f] slots IH]; intros applied U toks.
  - exists applied, []. by rewrite !List.app_nil_r.
  - simpl.
    assert (Hweak : ∀ newly : list InlineFormat,
              Forall (fun f => ∃ i, (i, f) ∈ slots) newly →
              Forall (fun f0 => ∃ i0, (i0, f0) ∈ (i, f) :: slots) newly).
    { intros newly Hn. eapply Forall_impl; [exact Hn|].
      intros f0 [i0 Hi0]. exists i0. by right. }
    destruct (_ && negb (bool_decide (i ∈ applied))).
    + destruct (_ || _).
      * destruct (IH (applied ++ [i]) (U ++ [f]) (toks ++ [Tags.Open f]))
          as (applied' & newly & -> & Hnew).
        exists applied', (f :: newly). simpl.
        rewrite <-!List.app_assoc. split; [done|].
        constructor; [exists i; by left|by apply Hweak].
      * destruct (IH (applied ++ [i]) U toks) as (applied' & newly & -> & Hnew).
        exists applied', newly. split; [done|by apply Hweak].
    + destruct (IH applied U toks) as (applied' & newly & -> & Hnew).
      exists applied', newly. split; [done|by apply Hweak].
Qed.

Lemma process_scan_cons (cur : InlineText) (next : option InlineText)
  (i : nat) (t : InlineFormat) (tags : list InlineFormat) :
  RevA.process_scan cur next i (t :: tags) =
    if RevA.hasFormatIn (Some cur) t && RevA.hasFormatIn next t
    then RevA.process_scan cur next (S i) tags
    else Some (i, RevA.hasFormatIn (Some cur) t, RevA.hasFormatIn next t).
Proof. reflexivity. Qed.

Lemma process_scan_None (cur : InlineText) (next : option InlineText)
  (i0 : nat) (tags : list InlineFormat) :
  RevA.process_scan cur next i0 tags = None →
  Forall (fun t => RevA.hasFormatIn next t = true) tags.
Proof.
  revert i0. induction tags as [|t tags IH]; intros i0; [by constructor|].
  rewrite process_scan_cons.
  destruct (RevA.hasFormatIn (Some cur) t && RevA.hasFormatIn next t) eqn:Hb;
    [|done].
  intros Hs. apply andb_true_iff in Hb as [_ Hb].
  constructor; [done|by eapply IH].
Qed.

Lemma process_scan_Some (cur : InlineText) (next : option InlineText)
  (i0 : nat) (tags : list InlineFormat) (i : nat) (nh xh : bool) :
  RevA.process_scan cur next i0 tags = Some (i, nh, xh) →
  ∃ k t,
    i = i0 + k ∧ tags !! k = Some t ∧
    Forall (fun t => RevA.hasFormatIn next t = true) (take k tags) ∧
    nh = RevA.hasFormatIn (Some cur) t ∧
    xh = RevA.hasFormatIn next t ∧
    nh && xh = false.
Proof.
  revert i0. induction tags as [|t tags IH]; intros i0; [done|].
  rewrite process_scan_cons.
  destruct (RevA.hasFormatIn (Some cur) t && RevA.hasFormatIn next t) eqn:Hb.
  - intros (k & t' & -> & Hk & Hall & Hnh & Hxh & Hboth)%IH.
    exists (S k), t'. split; [lia|]. split; [done|].
    apply andb_true_iff in Hb as [_ Hb].
    split; [by constructor|done].
  - intros [= <- <- <-]. exists 0, t.
    split; [lia|]. split; [done|]. split; [constructor|done].
Qed.

(** With nothing unclosable, the inner loop of a run that carries the
    scanned tag closes the stack from its top and pops what it closes. *)
Lemma fold_process_close_shape (cl A : list InlineFormat)
  (after : list Tags.Token) :
  fold_left (Tags.process_close [] true false) cl
    ([], after, A ++ reverse cl) =
  ([], after ++ map Tags.Close cl, A).
Proof.
  revert after. induction cl as [|c cl IH]; intros after.
  - simpl. by rewrite !List.app_nil_r.
  - rewrite reverse_cons, List.app_assoc. simpl.
    rewrite removelast_last, IH. by rewrite <-List.app_assoc.
Qed.

(** One call of [process] on a stack whose tags the run carries: it
    opens some formats of the run, writes the text, and closes the stack
    from its top down to some position [i]; what stays open is carried
    by the next run, and nothing stays open after the last run. *)
Lemma process_shape (inlineBuffer : list InlineText) (cur : InlineText)
  (index : nat) (U : list InlineFormat) :
  Forall (fun t => RevA.hasFormatIn (Some cur) t = true) U →
  ∃ newly i,
    Tags.process inlineBuffer cur index U [] =
      (map Tags.Open newly ++
       Tags.Chars (text cur) ::
       map Tags.Close (reverse (drop i (U ++ newly))),
       take i (U ++ newly)) ∧
    match inlineBuffer !! S index with
    | Some next =>
        Forall (fun t => RevA.hasFormatIn (Some next) t = true)
          (take i (U ++ newly))
    | None => take i (U ++ newly) = []
    end.
Proof.
  intros HU. unfold Tags.process.
  destruct (fold_process_open_shape cur
              (match index with 0 => None | S i => inlineBuffer !! i end)
              (imap pair (formats cur)) [] U [])
    as (applied' & newly & -> & Hnew).
  assert (HU1 : Forall (fun t => RevA.hasFormatIn (Some cur) t = true)
                  (U ++ newly)).
  { apply Forall_app. split; [done|].
    eapply Forall_impl; [exact Hnew|]. intros f [i Hi].
    apply hasFormatIn_elem.
    apply list_elem_of_lookup in Hi as [j Hj].
    apply list_lookup_imap_Some in Hj as (f' & Hf' & [= -> ->]).
    by eapply list_elem_of_lookup_2. }
  set (U1 := U ++ newly) in *.
  assert (Hnext : ∀ tags,
            Forall (fun t => RevA.hasFormatIn (inlineBuffer !! S index) t = true)
              tags →
            match inlineBuffer !! S index with
            | Some next =>
                Forall (fun t => RevA.hasFormatIn (Some next) t = true) tags
            | None => tags = []
            end).
  { intros tags Htags. destruct (inlineBuffer !! S index); [done|].
    by apply hasFormatIn_None_nil. }
  exists newly.
  destruct (RevA.process_scan cur (inlineBuffer !! S index) 0 U1)
    as [[[i nh] xh]|] eqn:Hscan.
  - apply process_scan_Some in Hscan
      as (k & t & -> & Hk & Hall & -> & -> & Hboth).
    assert (Hcur : RevA.hasFormatIn (Some cur) t = true).
    { rewrite Forall_forall in HU1. apply HU1.
      by eapply list_elem_of_lookup_2. }
    rewrite Hcur in Hboth |- *. simpl in Hboth. rewrite Hboth.
    exists k. simpl Nat.add.
    pose proof (fold_process_close_shape (reverse (drop k U1)) (take k U1) [])
      as Hfold.
    rewrite reverse_involutive, take_drop in Hfold. rewrite Hfold.
    simpl. split; [done|]. by apply Hnext.
  - exists (length U1). apply process_scan_None in Hscan.
    rewrite drop_all, take_ge by done. simpl. split; [done|].
    by apply Hnext.
Qed.

Lemma getInlineText_map_balanced (inlineBuffer rest : list InlineText)
  (index : nat) (U : list InlineFormat) :
  drop index inlineBuffer = rest →
  match head rest with
  | Some cur => Forall (fun t => RevA.hasFormatIn (Some cur) t = true) U
  | None => U = []
  end →
  Tags.balanced Tags.matching (reverse U)
    (Tags.getInlineText_map inlineBuffer index rest U []) = true.
Proof.
  revert index U. induction rest as [|cur rest IH]; intros index U Hdrop HU.
  - simpl in HU. by subst.
  - simpl in HU. simpl.
    destruct (process_shape inlineBuffer cur index U HU)
      as (newly & i & -> & Hnext).
    rewrite <-!List.app_assoc. rewrite balanced_opens.
    simpl. rewrite <-reverse_app.
    rewrite <-(take_drop i (U ++ newly)) at 1. rewrite reverse_app.
    rewrite balanced_closes.
    + apply IH.
      * by rewrite <-(Nat.add_1_r index), <-drop_drop, Hdrop.
      * assert (Hhead : head rest = inlineBuffer !! S index).
        { rewrite head_lookup.
          replace rest with (drop (S index) inlineBuffer)
            by (by rewrite <-(Nat.add_1_r index), <-drop_drop, Hdrop).
          rewrite lookup_drop. f_equal. lia. }
        by rewrite Hhead.
    + apply Forall_Forall2_diag, Forall_forall. intros; apply matching_refl.
Qed.

(** The output of [getInlineText] is well-bracketed for every buffer:
    each closing tag is the closing tag of the format opened last, and
    nothing stays open. *)
Lemma getInlineText_nested (inlineBuffer : list InlineText) :
  Tags.balanced Tags.matching [] (Tags.getInlineText_tokens inlineBuffer) = true.
Proof.
  unfold Tags.getInlineText_tokens.
  apply (getInlineText_map_balanced inlineBuffer inlineBuffer 0 []); [done|].
  destruct inlineBuffer; [done|constructor].
Qed.

End TagStackFacts.

(** * Further properties of the code *)

(** ** Output primitives *)

Lemma allWhiteSpace_app (a b : string) :
  allWhiteSpace (a +:+ b) = allWhiteSpace a && allWhiteSpace b.
Proof.
  induction a as [|c a IH]; [done|].
  rewrite StrFacts.app_cons. simpl. by rewrite IH, andb_assoc.
Qed.

Lemma trimTrailing_cons (c : ascii) (s : string) :
  Str.trimTrailing (String c s) =
    if negb (Str.truthy (Str.trimTrailing s)) && Str.isWhiteSpace c
    then "" else String c (Str.trimTrailing s).
Proof. reflexivity. Qed.

(** X1.  [trimTrailing], the slice of [flushClose] for [/\s+$/], cuts
    the longest run of white space off the end of the delimiter: what it
    cuts is white space only, and what it keeps does not end in white
    space. *)
Theorem trimTrailing_spec (s : string) :
  ∃ w, s = Str.trimTrailing s +:+ w ∧
       allWhiteSpace w = true ∧
       match lastChar (Str.trimTrailing s) with
       | Some c => Str.isWhiteSpace c = false
       | None => True
       end.
Proof.
  induction s as [|c s (w & Hs & Hw & Hlast)].
  - by exists "".
  - rewrite trimTrailing_cons.
    destruct (Str.truthy (Str.trimTrailing s)) eqn:Ht; simpl negb; cbv iota.
    + simpl andb. cbv iota. exists w. rewrite StrFacts.app_cons, <-Hs. split; [done|]. split; [done|].
      simpl. by destruct (Str.trimTrailing s).
    + apply StrFacts.truthy_false in Ht. rewrite Ht in Hs, Hlast |- *.
      change ("" +:+ w) with w in Hs. subst s.
      destruct (Str.isWhiteSpace c) eqn:Hc; simpl.
      * exists (String c w). split; [done|]. simpl. by rewrite Hc, Hw.
      * exists w. split; [done|]. by split.
Qed.

Section OutputFacts.
Context `{LexicalHost}.

Lemma addOutput_nil (st : MarkdownConvertorState) : addOutput "" st = st.
Proof. destruct st. unfold addOutput. simpl. by rewrite StrFacts.app_nil_r. Qed.

Lemma addOutput_addOutput (a b : string) (st : MarkdownConvertorState) :
  addOutput b (addOutput a st) = addOutput (a +:+ b) st.
Proof. unfold addOutput. simpl. by rewrite StrFacts.app_assoc. Qed.

Lemma repeat_snoc (s : string) (n : nat) :
  Str.repeat s (S n) = Str.repeat s n +:+ s.
Proof.
  induction n as [|n IH].
  - change (s +:+ "" = s). apply StrFacts.app_nil_r.
  - change (s +:+ Str.repeat s (S n) = (s +:+ Str.repeat s n) +:+ s).
    by rewrite IH, StrFacts.app_assoc.
Qed.

Lemma iter_addOutput (n : nat) (output : string) (st : MarkdownConvertorState) :
  Nat.iter n (addOutput output) st = addOutput (Str.repeat output n) st.
Proof.
  induction n as [|n IH]; [by rewrite addOutput_nil|].
  change (Nat.iter (S n) (addOutput output) st)
    with (addOutput output (Nat.iter n (addOutput output) st)).
  by rewrite IH, addOutput_addOutput, repeat_snoc.
Qed.

Lemma isInBlank_repeat_nl (n : nat) (t : string) (st : MarkdownConvertorState) :
  isInBlank st = true →
  isInBlank (addOutput (Str.repeat (t +:+ Str.nl) n) st) = true.
Proof.
  intros Hb. destruct n as [|n]; [by rewrite addOutput_nil|].
  rewrite repeat_snoc, <-StrFacts.app_assoc, <-addOutput_addOutput.
  apply isInBlank_addOutput_nl.
Qed.

Lemma flushClose_fires_eq (size : Z) (st : MarkdownConvertorState)
  (node : LexicalNode) :
  _stopNewline st = false →
  _closed st = Some node →
  flushClose size st =
    setClosed None
      (addOutput
         ((if isInBlank st then "" else Str.nl) +:+
          Str.repeat (Str.trimTrailing (_delim st) +:+ Str.nl)
            (Z.to_nat (size - 1))) st).
Proof.
  intros Hs Hc.
  unfold flushClose. rewrite Hs, Hc. simpl. f_equal.
  assert (Hd : _delim (if negb (isInBlank st) then addOutput Str.nl st else st)
               = _delim st) by (by destruct (isInBlank st)).
  rewrite Hd.
  assert (Hloop :
    (if (1 <? size)%Z
     then Nat.iter (Z.to_nat (size - 1))
            (addOutput (Str.trimTrailing (_delim st) +:+ Str.nl))
            (if negb (isInBlank st) then addOutput Str.nl st else st)
     else if negb (isInBlank st) then addOutput Str.nl st else st) =
    Nat.iter (Z.to_nat (size - 1))
      (addOutput (Str.trimTrailing (_delim st) +:+ Str.nl))
      (if negb (isInBlank st) then addOutput Str.nl st else st)).
  { destruct (1 <? size)%Z eqn:Hsize; [done|].
    apply Z.ltb_ge in Hsize. by replace (Z.to_nat (size - 1)) with 0 by lia. }
  rewrite Hloop, iter_addOutput.
  destruct (isInBlank st); simpl.
  - done.
  - by rewrite addOutput_addOutput.
Qed.

Lemma flushClose_fires_blank (size : Z) (st : MarkdownConvertorState)
  (node : LexicalNode) :
  _stopNewline st = false →
  _closed st = Some node →
  isInBlank (flushClose size st) = true.
Proof.
  intros Hs Hc. rewrite (flushClose_fires_eq size st node Hs Hc).
  change (isInBlank (setClosed None ?x)) with (isInBlank x).
  rewrite <-addOutput_addOutput. apply isInBlank_repeat_nl.
  destruct (isInBlank st) eqn:Hb; [by rewrite addOutput_nil|].
  apply isInBlank_addOutput_nl.
Qed.

(** X2.  When a block close is pending and blank lines are not
    suppressed, [flushClose(size)] ends the current line if it is not
    ended yet and appends [size - 1] lines that hold the delimiter
    without its trailing white space (none for [size] at most 1); it
    leaves the output at the start of a line, clears the marker and
    touches nothing else. *)
Theorem flushClose_fires (size : Z) (st : MarkdownConvertorState)
  (node : LexicalNode) :
  _stopNewline st = false →
  _closed st = Some node →
  flushClose size st =
    setClosed None
      (addOutput
         ((if isInBlank st then "" else Str.nl) +:+
          Str.repeat (Str.trimTrailing (_delim st) +:+ Str.nl)
            (Z.to_nat (size - 1))) st) ∧
  isInBlank (flushClose size st) = true.
Proof.
  intros Hs Hc.
  split; [by eapply flushClose_fires_eq|by eapply flushClose_fires_blank].
Qed.

Lemma flushClose_again (size1 size2 : Z) (st : MarkdownConvertorState) :
  flushClose size2 (flushClose size1 st) = flushClose size1 st.
Proof.
  destruct (_stopNewline st) eqn:Hs.
  - rewrite (flushClose_suppressed size1 st Hs).
    by apply flushClose_suppressed.
  - pose proof (flushClose_closed size1 st) as Hc. rewrite Hs in Hc.
    unfold flushClose at 1. rewrite Hc.
    by rewrite orb_true_r.
Qed.

Lemma write_frame (content : string) (st : MarkdownConvertorState) :
  _stopNewline (write content st) = _stopNewline st ∧
  _inlineBuffer (write content st) = _inlineBuffer st ∧
  _delim (write content st) = _delim st.
Proof.
  unfold write.
  destruct (_ && _), (Str.truthy content); simpl; apply flushClose_frame.
Qed.

(** X3.  A [flushClose] right after a [flushClose] or a [write] changes
    nothing, whatever its size: the earlier call either cleared the
    marker or was stopped by suppression, which stops the later one
    too. *)
Theorem flushClose_twice (size1 size2 : Z) (content : string)
  (st : MarkdownConvertorState) :
  flushClose size2 (flushClose size1 st) = flushClose size1 st ∧
  flushClose size2 (write content st) = write content st.
Proof.
  split; [apply flushClose_again|].
  destruct (_stopNewline st) eqn:Hs.
  - apply flushClose_suppressed. by rewrite (proj1 (write_frame content st)).
  - unfold flushClose. rewrite write_closed, Hs. by rewrite orb_true_r.
Qed.

Lemma write_settled_eq (content : string) (st : MarkdownConvertorState) :
  settled st →
  write content st =
    addOutput ((if isInBlank st then _delim st else "") +:+ content) st.
Proof.
  intros Hsettled.
  assert (Hf : flushClose 2 st = st).
  { destruct Hsettled as [Hc|Hs]; [|by apply flushClose_suppressed].
    unfold flushClose. rewrite Hc. by rewrite orb_true_r. }
  unfold write. rewrite Hf.
  destruct (isInBlank st) eqn:Hb.
  - destruct (Str.truthy (_delim st)) eqn:Hd; simpl.
    + destruct (Str.truthy content) eqn:Hcn.
      * by rewrite addOutput_addOutput.
      * apply StrFacts.truthy_false in Hcn as ->.
        by rewrite StrFacts.app_nil_r.
    + apply StrFacts.truthy_false in Hd. rewrite Hd.
      destruct (Str.truthy content) eqn:Hcn; [done|].
      apply StrFacts.truthy_false in Hcn as ->. by rewrite addOutput_nil.
  - rewrite andb_false_r.
    destruct (Str.truthy content) eqn:Hcn; [done|].
    apply StrFacts.truthy_false in Hcn as ->. by rewrite addOutput_nil.
Qed.

Lemma settled_addOutput (output : string) (st : MarkdownConvertorState) :
  settled st → settled (addOutput output st).
Proof. by intros [Hc|Hs]; [left|right]. Qed.

(** X4.  With nothing pending, [write(content)] appends the delimiter
    when the output stands at the start of a line, then the content;
    it changes no other field and leaves nothing pending. *)
Theorem write_settled (content : string) (st : MarkdownConvertorState) :
  settled st →
  write content st =
    addOutput ((if isInBlank st then _delim st else "") +:+ content) st ∧
  settled (write content st).
Proof.
  intros Hsettled. rewrite (write_settled_eq content st Hsettled).
  split; [done|by apply settled_addOutput].
Qed.

Lemma write_fires_eq (content : string) (st : MarkdownConvertorState)
  (node : LexicalNode) :
  _stopNewline st = false →
  _closed st = Some node →
  write content st =
    setClosed None
      (addOutput
         ((if isInBlank st then "" else Str.nl) +:+
          Str.trimTrailing (_delim st) +:+ Str.nl +:+
          _delim st +:+ content) st).
Proof.
  intros Hs Hc.
  pose proof (flushClose_fires_eq 2 st node Hs Hc) as Hf.
  pose proof (flushClose_fires_blank 2 st node Hs Hc) as Hb.
  assert (Hsettled : settled (flushClose 2 st)).
  { left. rewrite flushClose_closed. by rewrite Hs. }
  pose proof (write_settled_eq content (flushClose 2 st) Hsettled) as Hw.
  unfold write at 1 in Hw. rewrite flushClose_again in Hw.
  fold (write content st) in Hw.
  rewrite Hw, Hb. rewrite (proj2 (proj2 (flushClose_frame 2 st))).
  rewrite Hf. simpl Z.to_nat. unfold setClosed, addOutput. simpl. f_equal.
  change (Str.repeat ?x (Pos.to_nat 1)) with (x +:+ "").
  rewrite StrFacts.app_nil_r. by rewrite !StrFacts.app_assoc.
Qed.

(** X5.  After a block that asked for its close, outside suppression,
    [write(content)] separates the content from the block by one blank
    line: it ends the current line if need be, appends a line holding
    the trimmed delimiter, then the delimiter and the content; the
    marker is cleared. *)
Theorem write_after_block (content : string) (st : MarkdownConvertorState)
  (node : LexicalNode) :
  _stopNewline st = false →
  _closed st = Some node →
  write content st =
    setClosed None
      (addOutput
         ((if isInBlank st then "" else Str.nl) +:+
          Str.trimTrailing (_delim st) +:+ Str.nl +:+
          _delim st +:+ content) st).
Proof. apply write_fires_eq. Qed.

Lemma joinWith_cons (sep a b : string) (l : list string) :
  joinWith sep (a :: b :: l) = a +:+ sep +:+ joinWith sep (b :: l).
Proof. reflexivity. Qed.

Lemma split_nl_cons (c : ascii) (s : string) :
  Str.split_nl (String c s) =
    if Ascii.eqb c "010" then "" :: Str.split_nl s
    else match Str.split_nl s with
         | [] => [String c ""]
         | l :: ls => String c l :: ls
         end.
Proof. reflexivity. Qed.

(** X6.  [split('\n')] and [join('\n')] are inverse on every string:
    the lines of a text, joined by line feeds, are the text; there is at
    least one line and no line holds a line feed. *)
Theorem split_nl_join (s : string) :
  joinWith Str.nl (Str.split_nl s) = s ∧
  Str.split_nl s ≠ [] ∧
  Forall (fun line => hasNewline line = false) (Str.split_nl s).
Proof.
  induction s as [|c s (Hjoin & Hne & Hall)].
  - split; [done|]. split; [done|]. by repeat constructor.
  - rewrite split_nl_cons. destruct (Ascii.eqb c "010") eqn:Hc.
    + apply Ascii.eqb_eq in Hc as ->.
      destruct (Str.split_nl s) as [|l ls] eqn:Hsplit; [done|].
      rewrite joinWith_cons, Hjoin. split; [done|]. split; [done|].
      by constructor.
    + destruct (Str.split_nl s) as [|l ls] eqn:Hsplit; [done|].
      apply Forall_cons in Hall as [Hl Hls].
      split; [|split; [done|]].
      * destruct ls as [|l' ls]; [simpl in *; by subst|].
        rewrite joinWith_cons in *. by rewrite StrFacts.app_cons, Hjoin.
      * constructor; [|done]. simpl. by rewrite Hc, Hl.
Qed.

Lemma split_nl_join_aux (s : string) :
  joinWith Str.nl (Str.split_nl s) = s ∧ Str.split_nl s ≠ [].
Proof.
  induction s as [|c s (Hjoin & Hne)]; [done|].
  rewrite split_nl_cons. destruct (Ascii.eqb c "010") eqn:Hc.
  - apply Ascii.eqb_eq in Hc as ->.
    destruct (Str.split_nl s) as [|l ls] eqn:Hsplit; [done|].
    by rewrite joinWith_cons, Hjoin.
  - destruct (Str.split_nl s) as [|l ls] eqn:Hsplit; [done|].
    split; [|done].
    destruct ls as [|l' ls]; [simpl in *; by subst|].
    rewrite joinWith_cons in *. by rewrite StrFacts.app_cons, Hjoin.
Qed.

Lemma text_lines_eq (lines : list string) (st : MarkdownConvertorState) :
  lines ≠ [] →
  settled st →
  text_lines lines st =
    addOutput
      ((if isInBlank st then _delim st else "") +:+
       joinWith (Str.nl +:+ _delim st) lines) st.
Proof.
  revert st. induction lines as [|line rest IH]; intros st Hne Hst; [done|].
  simpl text_lines. rewrite (write_settled_eq "" st Hst), StrFacts.app_nil_r.
  rewrite addOutput_addOutput.
  destruct rest as [|line' rest]; [done|].
  rewrite IH; [|done|by repeat apply settled_addOutput].
  rewrite isInBlank_addOutput_nl. simpl _delim.
  rewrite !addOutput_addOutput, joinWith_cons.
  by rewrite !StrFacts.app_assoc.
Qed.

(** X7.  With nothing pending, [text(t)] writes the lines of [t] one
    after the other, each line after the first behind a line feed and
    the delimiter, the first behind the delimiter when the output stands
    at the start of a line; no other field changes.  Without a delimiter
    the text is appended as it is. *)
Theorem text_output (t : string) (st : MarkdownConvertorState) :
  settled st →
  text' t st =
    addOutput
      ((if isInBlank st then _delim st else "") +:+
       joinWith (Str.nl +:+ _delim st) (Str.split_nl t)) st ∧
  (_delim st = "" → text' t st = addOutput t st).
Proof.
  intros Hst. destruct (split_nl_join_aux t) as (Hjoin & Hne).
  assert (Heq : text' t st =
    addOutput
      ((if isInBlank st then _delim st else "") +:+
       joinWith (Str.nl +:+ _delim st) (Str.split_nl t)) st)
    by (by apply text_lines_eq).
  split; [exact Heq|]. intros Hd. rewrite Heq, Hd, StrFacts.app_nil_r.
  by destruct (isInBlank st); rewrite Hjoin.
Qed.

Lemma endsWithNewline_app (a b : string) :
  Str.truthy b = true →
  Str.endsWithNewline (a +:+ b) = Str.endsWithNewline b.
Proof.
  intros Hb. induction a as [|c a IH]; [done|].
  rewrite StrFacts.app_cons. simpl.
  destruct (a +:+ b) eqn:Hab; [|done].
  destruct a; [|done]. change ("" +:+ b) with b in Hab. by subst.
Qed.

Lemma test_blank_app (a b : string) :
  Str.truthy b = true →
  Str.endsWithNewline b = false →
  Str.test_blank (a +:+ b) = false.
Proof.
  intros Hb Hnl. unfold Str.test_blank.
  rewrite endsWithNewline_app, Hnl by done.
  destruct a as [|c a].
  - change ("" +:+ b) with b. by rewrite Hb.
  - by rewrite StrFacts.app_cons.
Qed.

(** X8.  [wrapBlock] around a text, with nothing pending: the opening
    marker ([firstDelim], or [delim] when that is missing or empty) goes
    behind the enclosing delimiter, the first line of the text behind
    the marker, and every further line behind a line feed, the enclosing
    delimiter and [delim].  Afterwards the delimiter is the enclosing
    one again and the block is marked for its close. *)
Theorem wrapBlock_text (delim : string) (firstDelim : option string)
  (node : LexicalNode) (t : string) (st : MarkdownConvertorState) :
  settled st →
  Str.truthy (Str.or_else (default "" firstDelim) delim) = true →
  Str.endsWithNewline (Str.or_else (default "" firstDelim) delim) = false →
  _result (wrapBlock delim firstDelim node (text' t) st) =
    _result st +:+
    (if isInBlank st then _delim st else "") +:+
    Str.or_else (default "" firstDelim) delim +:+
    joinWith (Str.nl +:+ _delim st +:+ delim) (Str.split_nl t) ∧
  _delim (wrapBlock delim firstDelim node (text' t) st) = _delim st ∧
  _closed (wrapBlock delim firstDelim node (text' t) st) = Some node.
Proof.
  intros Hst Hm Hnl. split; [|split; reflexivity].
  set (marker := Str.or_else (default "" firstDelim) delim) in *.
  unfold wrapBlock. fold marker. simpl _result.
  rewrite (write_settled_eq marker st Hst).
  destruct (split_nl_join_aux t) as (_ & Hne).
  unfold text'. rewrite text_lines_eq; [|done|].
  - assert (Hblank : ∀ p, Str.test_blank (_result st +:+ p +:+ marker) = false).
    { intros p. rewrite <-StrFacts.app_assoc. by apply test_blank_app. }
    unfold isInBlank at 1. simpl. rewrite Hblank.
    by rewrite !StrFacts.app_assoc.
  - destruct Hst as [Hc|Hs]; [by left|by right].
Qed.

End OutputFacts.

(** ** Dispatch *)

Section DispatchMore.
Context `{LexicalHost}.

Lemma selectConversion_none
  (collection : list (gmap string (LexicalNode -> option MarkdownConversion)))
  (node : LexicalNode) :
  candidates collection node = [] →
  selectConversion collection node = None.
Proof.
  intros Hc. unfold selectConversion.
  by rewrite fold_considerMap_candidates, Hc.
Qed.

(** X9.  A node for which no map of the collection has a conversion
    (its type is no key of any map, or every factory declines with
    [null]) is passed over: [convertBlock] returns the state as it
    received it, for any fuel. *)
Theorem convertBlock_unhandled
  (collection : list (gmap string (LexicalNode -> option MarkdownConversion)))
  (node : LexicalNode) (fuel : nat) (st : MarkdownConvertorState) :
  Forall (fun conversionMap : gmap string (LexicalNode -> option MarkdownConversion) =>
            match conversionMap !! getType node with
            | Some getConversion => getConversion node = None
            | None => True
            end) collection →
  convertBlock fuel collection node st = st.
Proof.
  intros Hall.
  assert (Hc : candidates collection node = []).
  { unfold candidates. induction Hall as [|m collection Hm _ IH]; [done|].
    simpl. destruct (m !! getType node) as [g|]; simpl; [|exact IH].
    by rewrite Hm. }
  destruct fuel as [|fuel]; [done|].
  simpl. by rewrite (selectConversion_none _ _ Hc).
Qed.

(** X10.  The map registered first keeps a node unless a later map
    offers a strictly higher priority: when the first map has a
    conversion for the node and no later candidate is above it, that
    conversion is the one applied.  The built-in maps come first and
    declare priority 0, so an extension needs priority 1 or more to
    displace a built-in conversion. *)
Theorem first_map_keeps
  (first : gmap string (LexicalNode -> option MarkdownConversion))
  (later : list (gmap string (LexicalNode -> option MarkdownConversion)))
  (node : LexicalNode) (c : MarkdownConversion) :
  first !! getType node ≫= (fun getConversion => getConversion node) = Some c →
  Forall (fun d => priorityOf d ≤ priorityOf c) (candidates later node) →
  selectConversion (first :: later) node = Some c ∧
  ∀ fuel st,
    convertBlock (S fuel) (first :: later) node st =
      conversion c (convertBlock fuel (first :: later)) node st.
Proof.
  intros Hfirst Hlater.
  assert (Hsel : selectConversion (first :: later) node = Some c).
  { pose proof (selectConversion_firstHighest (first :: later) node) as Hs.
    assert (Hcands : candidates (first :: later) node = c :: candidates later node).
    { unfold candidates. simpl. by rewrite Hfirst. }
    rewrite Hcands in Hs.
    destruct (selectConversion (first :: later) node) as [c'|]; [|done].
    destruct Hs as (before & after & Hl & Hb & Ha).
    destruct before as [|b before]; simpl in Hl.
    - by injection Hl as ->.
    - injection Hl as <- Hl.
      apply Forall_cons in Hb as [Hlt _].
      assert (Hin : c' ∈ candidates later node) by (rewrite Hl; set_solver).
      rewrite Forall_forall in Hlater. specialize (Hlater c' Hin). lia. }
  split; [exact Hsel|]. intros fuel st. simpl. by rewrite Hsel.
Qed.

End DispatchMore.

(** ** The reconcilers, read back *)

Module ReconcilerMore.
Import ReconcilerFacts TagStackFacts.

Lemma tokenTexts_app (a b : list Tags.Token) :
  tokenTexts (a ++ b) = tokenTexts a ++ tokenTexts b.
Proof. apply omap_app. Qed.

Lemma tokenTexts_Open (fs : list InlineFormat) :
  tokenTexts (map Tags.Open fs) = [].
Proof. by induction fs. Qed.

Lemma tokenTexts_Close (fs : list InlineFormat) :
  tokenTexts (map Tags.Close fs) = [].
Proof. by induction fs. Qed.

Lemma tokens_from_texts (runs : list InlineText) (prevFormats : list InlineFormat) :
  tokenTexts (tokens_from prevFormats runs) = map text runs.
Proof.
  revert prevFormats. induction runs as [|run runs IH]; intros prevFormats.
  - apply tokenTexts_Close.
  - simpl. rewrite !tokenTexts_app, tokenTexts_Close, tokenTexts_Open.
    simpl. change (tokenTexts (Tags.Chars (text run) :: ?l))
      with (text run :: tokenTexts l).
    by rewrite IH.
Qed.

(** X11.  [flushInline] writes the texts of the buffered runs, all of
    them, once each and in order: its output is the concatenation of a
    sequence of tags and texts whose texts are those of the buffer. *)
Theorem flushInline_keeps_text (inlineBuffer : list InlineText) :
  Tags.renderAll (Tags.flushInline_tokens inlineBuffer) =
    RevB.flushInline_result inlineBuffer ∧
  tokenTexts (Tags.flushInline_tokens inlineBuffer) = map text inlineBuffer.
Proof.
  split; [apply flushInline_tokens_render|].
  rewrite flushInline_tokens_from. apply tokens_from_texts.
Qed.

Lemma fold_process_close_texts (unclosable : list InlineFormat) (nh xh : bool)
  (cl : list InlineFormat)
  (acc : list Tags.Token * list Tags.Token * list InlineFormat) :
  tokenTexts (fold_left (Tags.process_close unclosable nh xh) cl acc).1.1 =
    tokenTexts acc.1.1 ∧
  tokenTexts (fold_left (Tags.process_close unclosable nh xh) cl acc).1.2 =
    tokenTexts acc.1.2.
Proof.
  revert acc. induction cl as [|c cl IH]; intros [[before after] U]; [done|].
  cbn [fold_left]. destruct (IH (Tags.process_close unclosable nh xh
                                   (before, after, U) c)) as [-> ->].
  unfold Tags.process_close.
  destruct (existsb _ unclosable); [done|].
  destruct nh, xh; simpl; by rewrite ?tokenTexts_app, ?List.app_nil_r.
Qed.

Lemma process_texts (inlineBuffer : list InlineText) (cur : InlineText)
  (index : nat) (U unclosable : list InlineFormat) :
  tokenTexts (Tags.process inlineBuffer cur index U unclosable).1 = [text cur].
Proof.
  unfold Tags.process.
  destruct (fold_process_open_shape cur
              (match index with 0 => None | S i => inlineBuffer !! i end)
              (imap pair (formats cur)) [] U [])
    as (applied' & newly & -> & _).
  simpl app.
  destruct (RevA.process_scan cur (inlineBuffer !! S index) 0 (U ++ newly))
    as [[[i nh] xh]|].
  - pose proof (fold_process_close_texts unclosable nh xh
                  (reverse (drop i (U ++ newly))) ([], [], U ++ newly))
      as [Hb Ha].
    destruct (fold_left _ (reverse (drop i (U ++ newly))) ([], [], U ++ newly))
      as [[before after] U2].
    simpl in *. rewrite !tokenTexts_app, Hb, tokenTexts_Open. simpl.
    change (tokenTexts (Tags.Chars (text cur) :: after))
      with (text cur :: tokenTexts after).
    by rewrite Ha.
  - simpl. by rewrite tokenTexts_app, tokenTexts_Open.
Qed.

Lemma getInlineText_map_texts (inlineBuffer rest : list InlineText)
  (index : nat) (U unclosable : list InlineFormat) :
  tokenTexts (Tags.getInlineText_map inlineBuffer index rest U unclosable) =
    map text rest.
Proof.
  revert index U. induction rest as [|cur rest IH]; intros index U; [done|].
  simpl. pose proof (process_texts inlineBuffer cur index U unclosable) as Hp.
  destruct (Tags.process inlineBuffer cur index U unclosable) as [out U'].
  simpl in Hp. by rewrite tokenTexts_app, Hp, IH.
Qed.

(** X12.  [getInlineText] returns the concatenation of a sequence of
    tags and texts that is well-bracketed for every buffer (each closing
    tag is the closing tag of the format opened last, nothing stays
    open) and whose texts are those of the buffered runs, once each and
    in order. *)
Theorem getInlineText_well_formed `{LexicalHost}
  (st : MarkdownConvertorState) :
  Tags.renderAll (Tags.getInlineText_tokens (_inlineBuffer st)) =
    RevA.getInlineText st ∧
  Tags.balanced Tags.matching []
    (Tags.getInlineText_tokens (_inlineBuffer st)) = true ∧
  tokenTexts (Tags.getInlineText_tokens (_inlineBuffer st)) =
    map text (_inlineBuffer st).
Proof.
  split; [apply getInlineText_tokens_render|].
  split; [apply getInlineText_nested|].
  apply getInlineText_map_texts.
Qed.

Lemma decode_opens (os stack : list InlineFormat) (rest : list Tags.Token) :
  decode stack (map Tags.Open os ++ rest) = decode (reverse os ++ stack) rest.
Proof.
  revert stack. induction os as [|o os IH]; intros stack; [done|].
  simpl. rewrite IH, reverse_cons. by rewrite <-List.app_assoc.
Qed.

Lemma decode_closes (s1 cl s2 : list InlineFormat) (rest : list Tags.Token) :
  length s1 = length cl →
  decode (s1 ++ s2) (map Tags.Close cl ++ rest) = decode s2 rest.
Proof.
  revert cl. induction s1 as [|s s1 IH]; intros [|c cl] Hlen; try done.
  simpl. apply IH. by injection Hlen.
Qed.

Lemma run_eta (run : InlineText) :
  {| text := text run; formats := formats run |} = run.
Proof. by destruct run. Qed.

Lemma tokens_from_decode (P : InlineFormat → Prop)
  (runs : list InlineText) (prevFormats : list InlineFormat) :
  (∀ f g, P f → P g → RevB.sameAt f g = true → f = g) →
  Forall (fun run => Forall P (formats run)) runs →
  Forall P prevFormats →
  decode (reverse prevFormats) (tokens_from prevFormats runs) = runs.
Proof.
  intros Hco. revert prevFormats.
  induction runs as [|run runs IH]; intros prevFormats Hruns Hprev.
  - simpl. rewrite <-(List.app_nil_r (map _ _)).
    rewrite <-(List.app_nil_r (reverse prevFormats)) at 1.
    by rewrite decode_closes.
  - apply Forall_cons in Hruns as [Hrun Hruns]. simpl.
    set (c := RevB.commonLength prevFormats (formats run)).
    assert (Htake : take c prevFormats = take c (formats run)).
    { pose proof (commonLength_take prevFormats (formats run)) as Hsame.
      fold c in Hsame.
      assert (Hp : Forall P (take c prevFormats)) by (by apply Forall_take).
      assert (Hf : Forall P (take c (formats run))) by (by apply Forall_take).
      revert Hp Hf. induction Hsame as [|p f ps fs Hpf _ IHs]; [done|].
      intros [Hp Hps]%Forall_cons [Hf Hfs]%Forall_cons.
      f_equal; [by apply Hco|by apply IHs]. }
    rewrite <-(take_drop c prevFormats) at 1. rewrite reverse_app.
    rewrite decode_closes by done.
    rewrite decode_opens. simpl.
    rewrite Htake, <-reverse_app, take_drop, reverse_involutive, run_eta.
    f_equal. by apply IH.
Qed.

Lemma flushInline_tokens_decode (inlineBuffer : list InlineText) :
  coherent inlineBuffer →
  decode [] (Tags.flushInline_tokens inlineBuffer) = inlineBuffer.
Proof.
  intros Hco. rewrite flushInline_tokens_from.
  apply (tokens_from_decode (carried inlineBuffer) inlineBuffer []); [done| |done].
  apply Forall_forall. intros run Hrun. apply Forall_forall.
  intros f Hf. by exists run.
Qed.

(** X13.  On a buffer whose formats never give one type two tag pairs
    (such as the runs of the built-in text conversion), reading the
    output of [flushInline] back gives the buffer: each text stands
    inside its own formats, opened in the order of the run's format
    list, and every closing tag answers the format opened last. *)
Theorem flushInline_decode (inlineBuffer : list InlineText) :
  coherent inlineBuffer →
  Tags.renderAll (Tags.flushInline_tokens inlineBuffer) =
    RevB.flushInline_result inlineBuffer ∧
  Tags.balanced Tags.matching [] (Tags.flushInline_tokens inlineBuffer) = true ∧
  decode [] (Tags.flushInline_tokens inlineBuffer) = inlineBuffer.
Proof.
  intros Hco. split; [apply flushInline_tokens_render|].
  split; [by apply flushInline_nested|by apply flushInline_tokens_decode].
Qed.

Lemma textRuns_coherent `{LexicalHost} (nodes : list LexicalNode) :
  coherent (map textRunB nodes).
Proof.
  intros f g (rf & Hrf & Hf) (rg & Hrg & Hg).
  apply list_elem_of_In, in_map_iff in Hrf as (nf & <- & _).
  apply list_elem_of_In, in_map_iff in Hrg as (ng & <- & _).
  simpl in Hf, Hg. apply builtinFormats_coherent.
  - pose proof (textFormats_builtin_B nf) as Hall.
    rewrite Forall_forall in Hall. by apply Hall.
  - pose proof (textFormats_builtin_B ng) as Hall.
    rewrite Forall_forall in Hall. by apply Hall.
Qed.

(** X20.  The runs the built-in text conversion of revision B buffers,
    whatever the text nodes and their formats: [flushInline] writes
    them well-bracketed, and reading its output back gives every text
    inside exactly the formats of its node, in the order the conversion
    pushes them. *)
Theorem text_runs_round_trip `{LexicalHost} (nodes : list LexicalNode) :
  Tags.renderAll (Tags.flushInline_tokens (map textRunB nodes)) =
    RevB.flushInline_result (map textRunB nodes) ∧
  Tags.balanced Tags.matching []
    (Tags.flushInline_tokens (map textRunB nodes)) = true ∧
  decode [] (Tags.flushInline_tokens (map textRunB nodes)) =
    map textRunB nodes.
Proof.
  pose proof (textRuns_coherent nodes) as Hco.
  split; [apply flushInline_tokens_render|].
  split; [by apply flushInline_nested|by apply flushInline_tokens_decode].
Qed.

Lemma existsb_app_l {A : Type} (p : A → bool) (l k : list A) :
  existsb p l = true → existsb p (l ++ k) = true.
Proof. intros Hl. by rewrite existsb_app, Hl. Qed.

Lemma imap_pair_fst {A : Type} (l : list A) (n : nat) :
  (imap (fun i x => (n + i, x)) l).*1 = seq n (length l).
Proof.
  revert n. induction l as [|x l IH]; intros n; [done|].
  simpl. rewrite Nat.add_0_r. f_equal.
  rewrite <-IH. f_equal. apply imap_ext. intros i y _. simpl. f_equal. lia.
Qed.

(** After the first loop of [process] every format of the run has its
    like on the stack. *)
Lemma fold_process_open_covers (cur : InlineText) (prev : option InlineText)
  (slots : list (nat * InlineFormat)) (applied : list nat)
  (U : list InlineFormat) (toks : list Tags.Token) :
  NoDup (slots.*1) →
  Forall (fun slot => slot.1 ∉ applied) slots →
  Forall (fun slot => RevA.hasFormatIn (Some cur) slot.2 = true) slots →
  Forall (fun slot =>
            existsb (RevA.isSameFormat slot.2)
              (fold_left (Tags.process_open cur prev) slots
                 (applied, U, toks)).1.2 = true) slots.
Proof.
  revert applied U toks.
  induction slots as [|[i f] slots IH]; intros applied U toks Hnd Hfresh Hcur;
    [constructor|].
  apply NoDup_cons in Hnd as [Hi Hnd].
  apply Forall_cons in Hfresh as [Hia Hfresh].
  apply Forall_cons in Hcur as [Hf Hcur].
  simpl in Hi, Hia. cbn [fold_left].
  assert (Hstep : ∃ U1 toks1,
            Tags.process_open cur prev (applied, U, toks) (i, f) =
              (applied ++ [i], U1, toks1) ∧
            existsb (RevA.isSameFormat f) U1 = true).
  { unfold Tags.process_open. cbn [snd] in Hf. rewrite Hf.
    rewrite bool_decide_eq_false_2 by done. cbn [negb andb].
    destruct (negb (RevA.hasFormatIn prev f) ||
              negb (existsb (RevA.isSameFormat f) U)) eqn:Hpush.
    all: eexists _, _; (split; [done|]).
    all: try (rewrite existsb_app; simpl; rewrite isSameFormat_refl;
              by rewrite orb_true_r).
    all: apply orb_false_iff in Hpush as [_ Hpush];
      by apply negb_false_iff in Hpush. }
  destruct Hstep as (U1 & toks1 & -> & HU1).
  destruct (fold_process_open_shape cur prev slots (applied ++ [i]) U1 toks1)
    as (applied' & newly & Hfold & _).
  constructor.
  - rewrite Hfold. simpl. by apply existsb_app_l.
  - apply IH; [done| |done].
    apply Forall_forall. intros [j g] Hj. simpl.
    rewrite Forall_forall in Hfresh. specialize (Hfresh _ Hj). simpl in Hfresh.
    intros [Hin|Hin%list_elem_of_singleton]%elem_of_app; [done|].
    subst j. apply Hi. apply list_elem_of_fmap. by exists (i, g).
Qed.

(** [process_shape], with the stack at the moment the text is written:
    it holds the like of every format of the run, and nothing else. *)
Lemma process_shape_covers (inlineBuffer : list InlineText) (cur : InlineText)
  (index : nat) (U : list InlineFormat) :
  Forall (fun t => RevA.hasFormatIn (Some cur) t = true) U →
  ∃ newly i,
    Tags.process inlineBuffer cur index U [] =
      (map Tags.Open newly ++
       Tags.Chars (text cur) ::
       map Tags.Close (reverse (drop i (U ++ newly))),
       take i (U ++ newly)) ∧
    sameFormats (formats cur) (U ++ newly) ∧
    match inlineBuffer !! S index with
    | Some next =>
        Forall (fun t => RevA.hasFormatIn (Some next) t = true)
          (take i (U ++ newly))
    | None => take i (U ++ newly) = []
    end.
Proof.
  intros HU.
  set (prev := match index with 0 => None | S i => inlineBuffer !! i end).
  assert (Hslots : ∀ slot, slot ∈ imap pair (formats cur) → slot.2 ∈ formats cur).
  { intros [j g] Hj. apply list_elem_of_lookup in Hj as [k Hk].
    apply list_lookup_imap_Some in Hk as (g' & Hg' & [= -> ->]).
    by eapply list_elem_of_lookup_2. }
  pose proof (fold_process_open_covers cur prev (imap pair (formats cur))
                [] U []) as Hcov.
  unfold Tags.process. fold prev.
  destruct (fold_process_open_shape cur prev (imap pair (formats cur)) [] U [])
    as (applied' & newly & Hfold & Hnew).
  rewrite Hfold in Hcov |- *. cbn [fst snd] in Hcov.
  assert (HU1 : Forall (fun t => RevA.hasFormatIn (Some cur) t = true)
                  (U ++ newly)).
  { apply Forall_app. split; [done|].
    eapply Forall_impl; [exact Hnew|]. intros f [i Hi].
    apply hasFormatIn_elem. by apply (Hslots (i, f)). }
  assert (Hsame : sameFormats (formats cur) (U ++ newly)).
  { split.
    - intros f Hf. apply list_elem_of_lookup in Hf as [i Hi].
      assert (Hslot : (i, f) ∈ imap pair (formats cur)).
      { apply list_elem_of_lookup. exists i.
        apply list_lookup_imap_Some. by exists f. }
      assert (Hall : Forall (fun slot : nat * InlineFormat =>
                existsb (RevA.isSameFormat slot.2) (U ++ newly) = true)
                (imap pair (formats cur))).
      { apply Hcov.
        - change (imap pair (formats cur)) with
            (imap (fun i x => (0 + i, x)) (formats cur)).
          rewrite imap_pair_fst. apply NoDup_seq.
        - apply Forall_forall. intros slot _. apply not_elem_of_nil.
        - apply Forall_forall. intros slot Hs.
          by apply hasFormatIn_elem, Hslots. }
      rewrite Forall_forall in Hall. by apply (Hall (i, f)).
    - intros g Hg. rewrite Forall_forall in HU1. by apply HU1. }
  set (U1 := U ++ newly) in *.
  assert (Hnext : ∀ tags,
            Forall (fun t => RevA.hasFormatIn (inlineBuffer !! S index) t = true)
              tags →
            match inlineBuffer !! S index with
            | Some next =>
                Forall (fun t => RevA.hasFormatIn (Some next) t = true) tags
            | None => tags = []
            end).
  { intros tags Htags. destruct (inlineBuffer !! S index); [done|].
    by apply hasFormatIn_None_nil. }
  exists newly.
  destruct (RevA.process_scan cur (inlineBuffer !! S index) 0 U1)
    as [[[i nh] xh]|] eqn:Hscan.
  - apply process_scan_Some in Hscan
      as (k & t & -> & Hk & Hall & -> & -> & Hboth).
    assert (Hcur : RevA.hasFormatIn (Some cur) t = true).
    { rewrite Forall_forall in HU1. apply HU1.
      by eapply list_elem_of_lookup_2. }
    rewrite Hcur in Hboth |- *. simpl in Hboth. rewrite Hboth.
    exists k. simpl Nat.add.
    pose proof (fold_process_close_shape (reverse (drop k U1)) (take k U1) [])
      as Hclose.
    rewrite reverse_involutive, take_drop in Hclose. rewrite Hclose.
    simpl. split; [done|]. split; [done|]. by apply Hnext.
  - exists (length U1). apply process_scan_None in Hscan.
    rewrite drop_all, take_ge by done. simpl. split; [done|].
    split; [done|]. by apply Hnext.
Qed.

Lemma getInlineText_map_decode (inlineBuffer rest : list InlineText)
  (index : nat) (U : list InlineFormat) :
  drop index inlineBuffer = rest →
  match head rest with
  | Some cur => Forall (fun t => RevA.hasFormatIn (Some cur) t = true) U
  | None => U = []
  end →
  Forall2 (fun run out =>
             text out = text run ∧ sameFormats (formats run) (formats out))
    rest
    (decode (reverse U) (Tags.getInlineText_map inlineBuffer index rest U [])).
Proof.
  revert index U. induction rest as [|cur rest IH]; intros index U Hdrop HU.
  - constructor.
  - simpl in HU. simpl.
    destruct (process_shape_covers inlineBuffer cur index U HU)
      as (newly & i & -> & Hsame & Hnext).
    rewrite <-!List.app_assoc. rewrite decode_opens.
    simpl. rewrite <-reverse_app, reverse_involutive.
    constructor; [done|].
    rewrite <-(take_drop i (U ++ newly)) at 1. rewrite reverse_app.
    rewrite decode_closes by done.
    apply IH.
    + by rewrite <-(Nat.add_1_r index), <-drop_drop, Hdrop.
    + assert (Hhead : head rest = inlineBuffer !! S index).
      { rewrite head_lookup.
        replace rest with (drop (S index) inlineBuffer)
          by (by rewrite <-(Nat.add_1_r index), <-drop_drop, Hdrop).
        rewrite lookup_drop. f_equal. lia. }
      by rewrite Hhead.
Qed.

(** X14.  Reading the output of [getInlineText] back gives, run by run,
    the text of the run inside the formats of the run: every format of
    the run is open at its text (up to [isSameFormat], one opening per
    kind), and nothing the run lacks is open there. *)
Theorem getInlineText_formats `{LexicalHost} (st : MarkdownConvertorState) :
  Tags.renderAll (Tags.getInlineText_tokens (_inlineBuffer st)) =
    RevA.getInlineText st ∧
  Forall2 (fun run out =>
             text out = text run ∧ sameFormats (formats run) (formats out))
    (_inlineBuffer st)
    (decode [] (Tags.getInlineText_tokens (_inlineBuffer st))).
Proof.
  split; [apply getInlineText_tokens_render|].
  unfold Tags.getInlineText_tokens.
  apply (getInlineText_map_decode (_inlineBuffer st) (_inlineBuffer st) 0 []);
    [done|].
  destruct (_inlineBuffer st); [done|constructor].
Qed.

End ReconcilerMore.

(** ** Documents of paragraphs, through the entry point *)

Section EndToEnd.
Context `{LexicalHost}.

Lemma forEach_convert_cons (dispatch : Dispatch) (child : LexicalNode)
  (children : list LexicalNode) (st : MarkdownConvertorState) :
  forEach_convert dispatch (child :: children) st =
    forEach_convert dispatch children (dispatch child st).
Proof. reflexivity. Qed.

Lemma write_setInlineBuffer (inlineBuffer : list InlineText)
  (content : string) (st : MarkdownConvertorState) :
  write content (setInlineBuffer inlineBuffer st) =
    setInlineBuffer inlineBuffer (write content st).
Proof.
  destruct st as [d r cl s buf].
  unfold write, flushClose, setInlineBuffer, isInBlank, addOutput, setClosed.
  simpl.
  destruct s, cl as [q|], (Str.test_blank r) eqn:Hr; simpl; rewrite ?Hr; simpl;
    repeat match goal with
           | |- context [if ?b then _ else _] => destruct b; simpl
           end; reflexivity.
Qed.

Lemma setInlineBuffer_nil (st : MarkdownConvertorState) :
  _inlineBuffer st = [] → setInlineBuffer [] st = st.
Proof. destruct st. simpl. by intros ->. Qed.

Lemma joinWith_head (sep a b : string) (l : list string) :
  joinWith sep ((a +:+ sep +:+ b) :: l) = a +:+ sep +:+ joinWith sep (b :: l).
Proof.
  destruct l as [|c l]; [done|].
  rewrite !joinWith_cons. by rewrite !StrFacts.app_assoc.
Qed.

(** Blocks that each hand one open-ended text to [write] and ask for
    their close: from the second on, each is set off by one blank line. *)
Lemma forEach_blocks (dispatch : Dispatch) (T : LexicalNode → string)
  (ps : list LexicalNode) (st : MarkdownConvertorState) (q : LexicalNode) :
  (∀ p st, p ∈ ps → atTopLevel st →
           dispatch p st = closeBlock p (write (T p) st)) →
  Forall (fun p => openEnded (T p)) ps →
  atTopLevel st →
  _closed st = Some q →
  Str.test_blank (_result st) = false →
  _result (forEach_convert dispatch ps st) =
    joinWith (Str.nl +:+ Str.nl) (_result st :: map T ps).
Proof.
  revert st q. induction ps as [|p ps IH]; intros st q Hd Hopen Htop Hq Hr;
    [done|].
  apply Forall_cons in Hopen as [[Hp1 Hp2] Hopen].
  destruct Htop as (Hdelim & Hstop & Hbuf).
  rewrite forEach_convert_cons.
  rewrite (Hd p st) by (by constructor).
  rewrite (write_fires_eq (T p) st q Hstop Hq).
  unfold isInBlank. rewrite Hr, Hdelim.
  change (Str.nl +:+ Str.trimTrailing "" +:+ Str.nl +:+ "" +:+ T p)
    with ((Str.nl +:+ Str.nl) +:+ T p).
  rewrite (IH _ p).
  - cbn [map]. simpl _result. by rewrite joinWith_head.
  - intros p' st' Hp' Htop'. apply Hd; [by right|done].
  - done.
  - done.
  - done.
  - simpl _result. rewrite <-StrFacts.app_assoc. by apply test_blank_app.
Qed.

Lemma forEach_blocks_new (dispatch : Dispatch) (T : LexicalNode → string)
  (ps : list LexicalNode) :
  (∀ p st, p ∈ ps → atTopLevel st →
           dispatch p st = closeBlock p (write (T p) st)) →
  Forall (fun p => openEnded (T p)) ps →
  _result (forEach_convert dispatch ps newState) =
    joinWith (Str.nl +:+ Str.nl) (map T ps).
Proof.
  intros Hd Hopen. destruct ps as [|p ps]; [done|].
  pose proof Hopen as [[Hp1 Hp2] Hopen']%Forall_cons.
  rewrite forEach_convert_cons.
  rewrite (Hd p newState) by (by constructor).
  rewrite (write_settled_eq (T p) newState) by (by left).
  change (addOutput _ newState) with (addOutput (T p) newState).
  rewrite (forEach_blocks dispatch T ps _ p).
  - done.
  - intros p' st' Hp' Htop'. apply Hd; [by right|done].
  - done.
  - done.
  - done.
  - simpl. change (Str.test_blank ("" +:+ T p) = false).
    by apply test_blank_app.
Qed.

Lemma write_eq (content : string) (st : MarkdownConvertorState) :
  write content st = addOutput content (write "" st).
Proof.
  unfold write. simpl Str.truthy. cbv iota.
  destruct (Str.truthy content) eqn:Hc; [done|].
  apply StrFacts.truthy_false in Hc as ->. by rewrite addOutput_nil.
Qed.

Lemma write_settles (content : string) (st : MarkdownConvertorState) :
  settled (write content st).
Proof.
  unfold settled. rewrite write_closed, (proj1 (write_frame content st)).
  destruct (_stopNewline st); [by right|by left].
Qed.

(** Two writes in a row are one write of the two contents, when the
    first content leaves the output inside a line. *)
Lemma write_write (a b : string) (st : MarkdownConvertorState) :
  openEnded a → write b (write a st) = write (a +:+ b) st.
Proof.
  intros [Ha1 Ha2].
  rewrite (write_eq b), (write_eq a), (write_eq (a +:+ b)).
  rewrite (write_settled_eq "" (addOutput a (write "" st)))
    by apply settled_addOutput, write_settles.
  unfold isInBlank at 1. simpl _result.
  rewrite test_blank_app by done.
  change ("" +:+ "") with "". rewrite addOutput_nil.
  apply addOutput_addOutput.
Qed.

Lemma convertBlock_select (fuel : nat)
  (collection : list (gmap string (LexicalNode -> option MarkdownConversion)))
  (c : MarkdownConversion) (node : LexicalNode) (st : MarkdownConvertorState) :
  selectConversion collection node = Some c →
  convertBlock (S fuel) collection node st =
    conversion c (convertBlock fuel collection) node st.
Proof. intros Hc. cbn [convertBlock]. by rewrite Hc. Qed.

Local Ltac names_differ Hnd :=
  let Heq := fresh "Heq" in
  intros Heq; unfold distinctTypeNames in Hnd;
  repeat (let Hnot := fresh "Hnot" in apply NoDup_cons in Hnd as [Hnot Hnd]);
  set_solver.

Local Ltac lookup_literal Hnd :=
  unfold RevA.defaultMarkdownConversionMap, RevB.defaultMarkdownConversionMap,
    RevB.headingMarkdownConversionMap, objectLiteral;
  cbn [fold_left fst snd];
  repeat first [ rewrite lookup_insert_eq
               | rewrite lookup_empty
               | rewrite lookup_insert_ne by names_differ Hnd ].

Local Ltac select_literal Hnd Hty :=
  unfold selectConversion; cbn [fold_left]; unfold considerMap;
  rewrite Hty; lookup_literal Hnd; try reflexivity.

Lemma select_text_A (t : LexicalNode) :
  distinctTypeNames → getType t = TextNode_getType →
  selectConversion [RevA.defaultMarkdownConversionMap] t =
    Some {| conversion := RevA.textConversion; priority := Some 0 |}.
Proof. intros Hnd Hty. select_literal Hnd Hty. Qed.

Lemma select_paragraph_A (p : LexicalNode) :
  distinctTypeNames → getType p = ParagraphNode_getType →
  selectConversion [RevA.defaultMarkdownConversionMap] p =
    Some {| conversion := RevA.paragraphConversion; priority := Some 0 |}.
Proof. intros Hnd Hty. select_literal Hnd Hty. Qed.

Lemma select_heading_A (p : LexicalNode) :
  distinctTypeNames → getType p = HeadingNode_getType →
  selectConversion [RevA.defaultMarkdownConversionMap] p =
    Some {| conversion := RevA.headingConversion; priority := Some 0 |}.
Proof. intros Hnd Hty. select_literal Hnd Hty. Qed.

Lemma select_link_A (p : LexicalNode) :
  distinctTypeNames → getType p = LinkNode_getType →
  selectConversion [RevA.defaultMarkdownConversionMap] p =
    Some {| conversion := RevA.linkConversion; priority := Some 0 |}.
Proof. intros Hnd Hty. select_literal Hnd Hty. Qed.

Lemma select_text_B (t : LexicalNode) :
  distinctTypeNames → getType t = TextNode_getType →
  selectConversion
    [RevB.defaultMarkdownConversionMap; RevB.headingMarkdownConversionMap] t =
    Some {| conversion := RevB.textConversion; priority := Some 0 |}.
Proof. intros Hnd Hty. select_literal Hnd Hty. Qed.

Lemma select_paragraph_B (p : LexicalNode) :
  distinctTypeNames → getType p = ParagraphNode_getType →
  selectConversion
    [RevB.defaultMarkdownConversionMap; RevB.headingMarkdownConversionMap] p =
    Some {| conversion := RevB.paragraphConversion; priority := Some 0 |}.
Proof. intros Hnd Hty. select_literal Hnd Hty. Qed.

Lemma select_heading_B (p : LexicalNode) :
  distinctTypeNames → getType p = HeadingNode_getType →
  selectConversion
    [RevB.defaultMarkdownConversionMap; RevB.headingMarkdownConversionMap] p =
    Some {| conversion := RevB.headingConversion; priority := Some 0 |}.
Proof. intros Hnd Hty. select_literal Hnd Hty. Qed.

(** Text children only fill the buffer. *)
Lemma forEach_texts
  (collection : list (gmap string (LexicalNode -> option MarkdownConversion)))
  (textConversion :
     Dispatch → LexicalNode → MarkdownConvertorState → MarkdownConvertorState)
  (run : LexicalNode → InlineText) (fuel : nat)
  (ts : list LexicalNode) (st : MarkdownConvertorState) :
  (∀ t, getType t = TextNode_getType →
        selectConversion collection t =
          Some {| conversion := textConversion; priority := Some 0 |}) →
  (∀ dispatch node st, isTextNode node = true →
     textConversion dispatch node st = writeInline (run node) st) →
  Forall (fun t => getType t = TextNode_getType ∧ isTextNode t = true) ts →
  forEach_convert (convertBlock (S fuel) collection) ts st =
    setInlineBuffer (_inlineBuffer st ++ map run ts) st.
Proof.
  intros Hsel Hconv. revert st.
  induction ts as [|t ts IH]; intros st Hts.
  - destruct st. simpl. by rewrite List.app_nil_r.
  - apply Forall_cons in Hts as [[Hty Htext] Hts].
    rewrite forEach_convert_cons.
    rewrite (convertBlock_select fuel collection _ t st (Hsel t Hty)).
    cbn [conversion]. rewrite Hconv by done.
    rewrite IH by done. unfold writeInline, setInlineBuffer. simpl.
    by rewrite <-List.app_assoc.
Qed.

Lemma textConversion_A (dispatch : Dispatch) (node : LexicalNode)
  (st : MarkdownConvertorState) :
  isTextNode node = true →
  RevA.textConversion dispatch node st = writeInline (textRunA node) st.
Proof. intros Ht. unfold RevA.textConversion. by rewrite Ht. Qed.

Lemma textConversion_B (dispatch : Dispatch) (node : LexicalNode)
  (st : MarkdownConvertorState) :
  isTextNode node = true →
  RevB.textConversion dispatch node st = writeInline (textRunB node) st.
Proof. intros Ht. unfold RevB.textConversion. by rewrite Ht. Qed.

Lemma getInlineText_buffer (st st' : MarkdownConvertorState) :
  _inlineBuffer st = _inlineBuffer st' →
  RevA.getInlineText st = RevA.getInlineText st'.
Proof. intros Hb. unfold RevA.getInlineText. by rewrite Hb. Qed.

(** [convertInline] on an element of text nodes, nothing buffered:
    revision B writes the reconciled runs once. *)
Lemma convertInline_texts_B
  (collection : list (gmap string (LexicalNode -> option MarkdownConversion)))
  (fuel : nat) (p : LexicalNode) (st : MarkdownConvertorState) :
  (∀ t, getType t = TextNode_getType →
        selectConversion collection t =
          Some {| conversion := RevB.textConversion; priority := Some 0 |}) →
  textElement p →
  _inlineBuffer st = [] →
  RevB.convertInline (convertBlock (S fuel) collection) p st =
    write (inlineTextB p) st.
Proof.
  intros Hsel [Helem Hts] Hbuf. unfold RevB.convertInline. rewrite Helem.
  rewrite (forEach_texts collection RevB.textConversion textRunB fuel _ st
             Hsel textConversion_B Hts).
  unfold RevB.flushInline. rewrite Hbuf.
  cbn [app _inlineBuffer setInlineBuffer].
  rewrite write_setInlineBuffer.
  change (setInlineBuffer [] (setInlineBuffer ?b ?s)) with (setInlineBuffer [] s).
  apply setInlineBuffer_nil.
  by rewrite (proj1 (proj2 (write_frame _ st))).
Qed.

(** Revision A flushes before the children too: an empty write, then
    the reconciled runs. *)
Lemma convertInline_texts_A
  (collection : list (gmap string (LexicalNode -> option MarkdownConversion)))
  (fuel : nat) (p : LexicalNode) (st : MarkdownConvertorState) :
  (∀ t, getType t = TextNode_getType →
        selectConversion collection t =
          Some {| conversion := RevA.textConversion; priority := Some 0 |}) →
  textElement p →
  _inlineBuffer st = [] →
  RevA.convertInline (convertBlock (S fuel) collection) p st =
    write (inlineTextA p) (write "" st).
Proof.
  intros Hsel [Helem Hts] Hbuf. unfold RevA.convertInline. rewrite Helem.
  assert (Hfirst : RevA.flushInlineText st = write "" st).
  { unfold RevA.flushInlineText, RevA.closeInlineText.
    assert (Hempty : RevA.getInlineText st = "").
    { unfold RevA.getInlineText. by rewrite Hbuf. }
    rewrite Hempty. apply setInlineBuffer_nil.
    by rewrite (proj1 (proj2 (write_frame _ st))). }
  rewrite Hfirst.
  rewrite (forEach_texts collection RevA.textConversion textRunA fuel _ _
             Hsel textConversion_A Hts).
  rewrite (proj1 (proj2 (write_frame _ st))), Hbuf. cbn [app].
  unfold RevA.flushInlineText, RevA.closeInlineText.
  rewrite (getInlineText_buffer _
             (setInlineBuffer (map textRunA (getChildren p)) newState))
    by done.
  fold (inlineTextA p).
  rewrite write_setInlineBuffer.
  change (setInlineBuffer [] (setInlineBuffer ?b ?s)) with (setInlineBuffer [] s).
  apply setInlineBuffer_nil.
  by rewrite !(proj1 (proj2 (write_frame _ _))).
Qed.

Lemma write_empty_top (content : string) (st : MarkdownConvertorState) :
  _delim st = "" → write content (write "" st) = write content st.
Proof.
  intros Hd. rewrite (write_eq content (write "" st)), (write_eq content st).
  f_equal. rewrite (write_settled_eq "" (write "" st)) by apply write_settles.
  rewrite (proj2 (proj2 (write_frame "" st))), Hd.
  destruct (isInBlank (write "" st)); apply addOutput_nil.
Qed.

Lemma headingMark_openEnded (p : LexicalNode) : openEnded (headingMark p).
Proof.
  unfold headingMark.
  generalize (Str.repeatCount (Str.Number (Str.substring1 (getTag p)))).
  intros n. split.
  - destruct n; reflexivity.
  - induction n as [|n IH]; [reflexivity|].
    change (Str.repeat "#" (S n) +:+ " ")
      with (String "#" (Str.repeat "#" n +:+ " ")).
    simpl. destruct (Str.repeat "#" n +:+ " ") eqn:Hr; [|exact IH].
    by destruct n.
Qed.

Lemma block_step_A (fuel : nat) (p : LexicalNode)
  (st : MarkdownConvertorState) :
  distinctTypeNames →
  plainBlock p →
  atTopLevel st →
  convertBlock (S (S fuel)) [RevA.defaultMarkdownConversionMap] p st =
    closeBlock p (write (blockTextA p) st).
Proof.
  intros Hnd [Htext Hkind] (Hdelim & Hstop & Hbuf).
  assert (Hsel : ∀ t, getType t = TextNode_getType →
            selectConversion [RevA.defaultMarkdownConversionMap] t =
              Some {| conversion := RevA.textConversion; priority := Some 0 |})
    by (intros t Ht; by apply select_text_A).
  unfold blockTextA.
  destruct Hkind as [(Hty & Hpar & Hhead)|(Hty & Hhead)]; rewrite Hhead.
  - rewrite (convertBlock_select _ _ _ p st (select_paragraph_A p Hnd Hty)).
    cbn [conversion]. unfold RevA.paragraphConversion, getStopNewline.
    rewrite Hpar, Hstop. cbn [negb].
    destruct (isEmpty p); [done|]. f_equal.
    rewrite convertInline_texts_A by done.
    by apply write_empty_top.
  - rewrite (convertBlock_select _ _ _ p st (select_heading_A p Hnd Hty)).
    cbn [conversion]. unfold RevA.headingConversion.
    rewrite Hhead. cbn [negb]. fold (headingMark p). f_equal.
    rewrite convertInline_texts_A
      by (try done; by rewrite (proj1 (proj2 (write_frame _ st)))).
    rewrite (write_write (headingMark p) "") by apply headingMark_openEnded.
    rewrite StrFacts.app_nil_r.
    by rewrite write_write by apply headingMark_openEnded.
Qed.

Lemma block_step_B (fuel : nat) (p : LexicalNode)
  (st : MarkdownConvertorState) :
  distinctTypeNames →
  plainBlock p →
  _stopNewline st = false →
  _inlineBuffer st = [] →
  convertBlock (S (S fuel))
    [RevB.defaultMarkdownConversionMap; RevB.headingMarkdownConversionMap]
    p st =
    closeBlock p (write (blockTextB p) st).
Proof.
  intros Hnd [Htext Hkind] Hstop Hbuf.
  assert (Hsel : ∀ t, getType t = TextNode_getType →
            selectConversion
              [RevB.defaultMarkdownConversionMap;
               RevB.headingMarkdownConversionMap] t =
              Some {| conversion := RevB.textConversion; priority := Some 0 |})
    by (intros t Ht; by apply select_text_B).
  unfold blockTextB.
  destruct Hkind as [(Hty & Hpar & Hhead)|(Hty & Hhead)]; rewrite Hhead.
  - rewrite (convertBlock_select _ _ _ p st (select_paragraph_B p Hnd Hty)).
    cbn [conversion]. unfold RevB.paragraphConversion, getStopNewline.
    rewrite Hpar, Hstop. cbn [negb].
    destruct (isEmpty p); [done|]. f_equal.
    by rewrite convertInline_texts_B.
  - rewrite (convertBlock_select _ _ _ p st (select_heading_B p Hnd Hty)).
    cbn [conversion]. unfold RevB.headingConversion.
    rewrite Hhead. cbn [negb]. fold (headingMark p). f_equal.
    rewrite convertInline_texts_B
      by (try done; by rewrite (proj1 (proj2 (write_frame _ st)))).
    by rewrite write_write by apply headingMark_openEnded.
Qed.

(** X15.  Revision A: a document whose blocks are headings and
    paragraphs of text nodes comes out as the texts of its blocks
    separated by one blank line, provided no block text is empty or
    ends in a line feed, the host gives the built-in node types
    distinct names, and [convertBlock] may nest two deep.  A heading
    puts its mark in front of its text; an empty paragraph is [<br>]. *)
Theorem blocks_one_blank_line_A (fuel : nat) (root : LexicalNode) :
  distinctTypeNames →
  Forall plainBlock (getChildren root) →
  Forall (fun p => openEnded (blockTextA p)) (getChildren root) →
  RevA.createGenerateMarkdownFromNode (2 + fuel) [] root =
    joinWith (Str.nl +:+ Str.nl) (map blockTextA (getChildren root)).
Proof.
  intros Hnd Hps Hopen. rewrite Forall_forall in Hps.
  unfold RevA.createGenerateMarkdownFromNode, getResult, convertNode.
  apply forEach_blocks_new; [|done].
  intros p st Hp Htop. apply block_step_A; [done|by apply Hps|done].
Qed.

(** X16.  Revision B, with the heading map registered: the same
    document comes out the same way, the runs reconciled by
    [flushInline]. *)
Theorem blocks_one_blank_line_B (fuel : nat) (root : LexicalNode) :
  distinctTypeNames →
  Forall plainBlock (getChildren root) →
  Forall (fun p => openEnded (blockTextB p)) (getChildren root) →
  RevB.createGenerateMarkdownFromNode (2 + fuel)
    [RevB.headingMarkdownConversionMap] root =
    joinWith (Str.nl +:+ Str.nl) (map blockTextB (getChildren root)).
Proof.
  intros Hnd Hps Hopen. rewrite Forall_forall in Hps.
  unfold RevB.createGenerateMarkdownFromNode, getResult, convertNode.
  apply forEach_blocks_new; [|done].
  intros p st Hp (_ & Hstop & Hbuf). apply block_step_B; [done|by apply Hps|done..].
Qed.

(** ** Table cells *)

Lemma cell_child_state (text : string) (st : MarkdownConvertorState) :
  _delim st = "" → _stopNewline st = true → _inlineBuffer st = [] →
  close (write text st) =
    {| _delim := ""; _result := _result st +:+ text; _closed := None;
       _stopNewline := true; _inlineBuffer := [] |}.
Proof.
  intros Hd Hs Hb. rewrite write_settled_eq by (by right).
  rewrite Hd. destruct st as [d r cl s buf]. simpl in *. subst.
  unfold close, setClosed, addOutput. simpl.
  by destruct (isInBlank _).
Qed.

Lemma cell_children
  (dispatch : Dispatch) (convertInline :
     Dispatch → LexicalNode → MarkdownConvertorState → MarkdownConvertorState)
  (T : LexicalNode → string)
  (ps : list LexicalNode) (r : string) (cl : option LexicalNode) :
  (∀ p st, p ∈ ps → _delim st = "" → _stopNewline st = true →
           _inlineBuffer st = [] →
           dispatch p st = write (T p) st) →
  Forall (fun p => isParagraphNode p = true) ps →
  fold_left
    (fun st child =>
       if isParagraphNode child then close (dispatch child st)
       else if isBlockElementNode child || isDecoratorNode child then close st
       else convertInline dispatch child st)
    ps {| _delim := ""; _result := r; _closed := cl;
          _stopNewline := true; _inlineBuffer := [] |} =
    {| _delim := ""; _result := r +:+ Str.join (map T ps);
       _closed := match ps with [] => cl | _ :: _ => None end;
       _stopNewline := true; _inlineBuffer := [] |}.
Proof.
  revert r cl. induction ps as [|p ps IH]; intros r cl Hd Hps.
  - simpl. by rewrite StrFacts.app_nil_r.
  - apply Forall_cons in Hps as [Hp Hps]. cbn [fold_left]. rewrite Hp.
    rewrite Hd by (done || by constructor).
    rewrite cell_child_state by done. simpl _result.
    rewrite IH; [|intros p' st' Hp'; apply Hd; by right|done].
    cbn [map Str.join]. rewrite StrFacts.app_assoc.
    by destruct ps.
Qed.

(** X17.  A table cell of paragraphs of text nodes, converted where the
    delimiter is empty and nothing is buffered: the texts of the
    paragraphs are appended one after the other with nothing between
    them, no line feed and no [<br>]; blank-line suppression is off
    again afterwards, and a close that was pending before the cell is
    dropped as soon as the cell has a child.  Both revisions agree, each
    with its own reconciler. *)
Theorem tableCell_paragraphs (fuel : nat) (node : LexicalNode)
  (st : MarkdownConvertorState) :
  distinctTypeNames →
  Forall textParagraph (getChildren node) →
  _delim st = "" →
  _inlineBuffer st = [] →
  RevA.convertTableCell
    (convertBlock (2 + fuel) [RevA.defaultMarkdownConversionMap]) node st =
    {| _delim := "";
       _result := _result st +:+ Str.join (map inlineTextA (getChildren node));
       _closed := match getChildren node with
                  | [] => _closed st | _ :: _ => None end;
       _stopNewline := false; _inlineBuffer := [] |} ∧
  RevB.convertTableCell
    (convertBlock (2 + fuel)
       [RevB.defaultMarkdownConversionMap; RevB.headingMarkdownConversionMap])
    node st =
    {| _delim := "";
       _result := _result st +:+ Str.join (map inlineTextB (getChildren node));
       _closed := match getChildren node with
                  | [] => _closed st | _ :: _ => None end;
       _stopNewline := false; _inlineBuffer := [] |}.
Proof.
  intros Hnd Hps Hd Hb. rewrite Forall_forall in Hps.
  change (2 + fuel) with (S (S fuel)).
  destruct st as [d r cl s buf]. simpl in Hd, Hb. subst d buf.
  assert (Hpar : Forall (fun p => isParagraphNode p = true) (getChildren node)).
  { apply Forall_forall. intros p Hp. by destruct (Hps p Hp) as (_ & _ & ?). }
  split.
  - match goal with |- context [convertBlock ?f ?c] =>
      set (dispatch := convertBlock f c) end.
    unfold RevA.convertTableCell, RevA.convertTableCell_child, setStopNewline.
    simpl.
    rewrite (cell_children _ RevA.convertInline inlineTextA); [done| |done].
    intros p st Hp Hd Hs Hb. destruct (Hps p Hp) as (Htext & Hty & Hpp).
    unfold dispatch.
    rewrite (convertBlock_select _ _ _ p st (select_paragraph_A p Hnd Hty)).
    cbn [conversion]. unfold RevA.paragraphConversion, getStopNewline.
    rewrite Hpp, Hs. cbn [negb].
    rewrite convertInline_texts_A
      by (try done; intros t Ht; by apply select_text_A).
    by apply write_empty_top.
  - match goal with |- context [convertBlock ?f ?c] =>
      set (dispatch := convertBlock f c) end.
    unfold RevB.convertTableCell, RevB.convertTableCell_child, setStopNewline.
    simpl.
    rewrite (cell_children _ RevB.convertInline inlineTextB); [done| |done].
    intros p st Hp Hd Hs Hb. destruct (Hps p Hp) as (Htext & Hty & Hpp).
    unfold dispatch.
    rewrite (convertBlock_select _ _ _ p st (select_paragraph_B p Hnd Hty)).
    cbn [conversion]. unfold RevB.paragraphConversion, getStopNewline.
    rewrite Hpp, Hs. cbn [negb].
    by rewrite convertInline_texts_B
      by (try done; intros t Ht; by apply select_text_B).
Qed.

(** ** Links *)

(** X18.  Revision A, a link of text nodes that is not an unlinked
    auto-link: what was buffered before the link is flushed first, the
    runs of the link are reconciled on their own, so that no format
    stays open across a bracket, and the link is written in one piece
    as [[text](url)], with the title in quotation marks after the URL
    when the link has one.  Nothing is left in the buffer. *)
Theorem link_of_texts (fuel : nat) (node : LexicalNode)
  (st : MarkdownConvertorState) :
  distinctTypeNames →
  getType node = LinkNode_getType →
  isLinkNode node = true →
  isAutoLinkNode node && getIsUnlinked node = false →
  Forall (fun t => getType t = TextNode_getType ∧ isTextNode t = true)
    (getChildren node) →
  convertBlock (2 + fuel) [RevA.defaultMarkdownConversionMap] node st =
    write (RevA.linkText (inlineTextA node) (getURL node) (getTitle node))
      (RevA.flushInlineText st) ∧
  _inlineBuffer
    (convertBlock (2 + fuel) [RevA.defaultMarkdownConversionMap] node st) = [].
Proof.
  intros Hnd Hty Hlink Hauto Hts. change (2 + fuel) with (S (S fuel)).
  assert (Heq : convertBlock (S (S fuel)) [RevA.defaultMarkdownConversionMap]
                  node st =
                write (RevA.linkText (inlineTextA node) (getURL node)
                         (getTitle node)) (RevA.flushInlineText st)).
  { rewrite (convertBlock_select _ _ _ node st (select_link_A node Hnd Hty)).
    cbn [conversion]. unfold RevA.linkConversion.
    rewrite Hlink, Hauto. cbn [negb].
    rewrite (forEach_texts _ RevA.textConversion textRunA fuel _ _
               (fun t Ht => select_text_A t Hnd Ht) textConversion_A Hts).
    assert (Hbuf : _inlineBuffer (RevA.flushInlineText st) = []) by done.
    rewrite Hbuf. cbn [app].
    rewrite (getInlineText_buffer _
               (setInlineBuffer (map textRunA (getChildren node)) newState))
      by done.
    fold (inlineTextA node). reflexivity. }
  split; [exact Heq|].
  rewrite Heq. by rewrite (proj1 (proj2 (write_frame _ _))).
Qed.

(** ** Lists *)

Lemma joinWith_prefix (sep a b : string) (l : list string) :
  joinWith sep ((a +:+ b) :: l) = a +:+ joinWith sep (b :: l).
Proof.
  destruct l as [|c l]; [done|].
  rewrite !joinWith_cons. by rewrite !StrFacts.app_assoc.
Qed.

Lemma openEnded_app (a b : string) :
  openEnded a → Str.endsWithNewline b = false → openEnded (a +:+ b).
Proof.
  intros [Ha1 Ha2] Hb. destruct b as [|c b].
  - by rewrite StrFacts.app_nil_r.
  - split; [by destruct a|]. by rewrite endsWithNewline_app.
Qed.

Lemma test_blank_app_nl (r : string) : Str.test_blank (r +:+ Str.nl) = true.
Proof.
  unfold Str.test_blank. rewrite StrFacts.endsWithNewline_app_nl.
  apply orb_true_r.
Qed.

(** One item, written where nothing is pending. *)
Lemma wrapBlock_item (dispatch : Dispatch) (T : LexicalNode → string)
  (node child : LexicalNode) (delim : string) (firstDelim : string)
  (d0 r : string) :
  (∀ st, _stopNewline st = false → _inlineBuffer st = [] →
         dispatch child st = closeBlock child (write (T child) st)) →
  openEnded (Str.or_else firstDelim delim) →
  wrapBlock delim (Some firstDelim) node (dispatch child)
    {| _delim := d0; _result := r; _closed := None;
       _stopNewline := false; _inlineBuffer := [] |} =
    {| _delim := d0;
       _result := r +:+ (if Str.test_blank r then d0 else "") +:+
                  Str.or_else firstDelim delim +:+ T child;
       _closed := Some node; _stopNewline := false; _inlineBuffer := [] |}.
Proof.
  intros Hd [Hm1 Hm2]. unfold wrapBlock.
  rewrite write_settled_eq by (by left).
  unfold addOutput, isInBlank, getDelim, setDelim. simpl.
  rewrite Hd by done.
  rewrite write_settled_eq by (by left).
  unfold addOutput, isInBlank, closeBlock, setClosed. simpl.
  rewrite <-(StrFacts.app_assoc r) at 2.
  rewrite test_blank_app by done.
  f_equal. change ("" +:+ T child) with (T child).
  by rewrite !StrFacts.app_assoc.
Qed.

(** The items after the first: each starts a line of its own, behind
    the delimiter of the enclosing block. *)
Lemma convertList_rest (dispatch : Dispatch) (T : LexicalNode → string)
  (node : LexicalNode) (delim : string) (firstDelimFn : nat → string)
  (children : list LexicalNode) (index : nat) (d0 r : string)
  (cl : LexicalNode) :
  (∀ child st, child ∈ children →
     _stopNewline st = false → _inlineBuffer st = [] →
     dispatch child st = closeBlock child (write (T child) st)) →
  (∀ i, openEnded (Str.or_else (firstDelimFn i) delim)) →
  Forall (fun child => Str.endsWithNewline (T child) = false) children →
  Str.test_blank r = false →
  RevB.convertList_children dispatch node delim firstDelimFn (S index)
    children
    {| _delim := d0; _result := r; _closed := Some cl;
       _stopNewline := false; _inlineBuffer := [] |} =
    {| _delim := d0;
       _result := joinWith (Str.nl +:+ d0)
                    (r :: listItems firstDelimFn delim T (S index) children);
       _closed := match children with [] => Some cl | _ :: _ => Some node end;
       _stopNewline := false; _inlineBuffer := [] |}.
Proof.
  revert index r cl.
  induction children as [|child children IH]; intros index r cl Hd Hm HT Hr;
    [done|].
  apply Forall_cons in HT as [Hchild HT].
  cbn [RevB.convertList_children].
  rewrite (flushClose_fires_eq 1 _ cl) by done.
  unfold isInBlank, setClosed, addOutput. simpl. rewrite Hr.
  change ((Str.nl +:+ "")) with Str.nl.
  rewrite (wrapBlock_item dispatch T node child delim (firstDelimFn (S index)));
    [|intros st; apply Hd; by constructor|done].
  rewrite test_blank_app_nl.
  rewrite IH.
  - f_equal.
    + cbn [listItems].
      transitivity
        (joinWith (Str.nl +:+ d0)
           ((r +:+ (Str.nl +:+ d0) +:+
             (Str.or_else (firstDelimFn (S index)) delim +:+ T child)) ::
            listItems firstDelimFn delim T (S (S index)) children)).
      { do 2 f_equal. by rewrite !StrFacts.app_assoc. }
      by rewrite joinWith_head.
    + by destruct children.
  - intros c st Hc. apply Hd. by right.
  - done.
  - done.
  - rewrite <-!StrFacts.app_assoc. rewrite StrFacts.app_assoc.
    apply test_blank_app; by apply openEnded_app.
Qed.

(** X19.  [convertList] on items that each write one text and ask for
    their close, started where nothing is pending or buffered: every
    item is its marker ([firstDelimFn(index)], or [delim] when that is
    empty) followed by its text; the first item continues the current
    line, behind the delimiter when the line is blank, and every later
    item starts a line of its own behind the delimiter of the enclosing
    block, with no blank line between items.  The delimiter is restored
    and the list asks for its close.  A list without items changes
    nothing.  The two revisions have the same [convertList]. *)
Theorem convertList_items (dispatch : Dispatch) (T : LexicalNode → string)
  (node : LexicalNode) (delim : string) (firstDelimFn : nat → string)
  (st : MarkdownConvertorState) :
  (∀ child st, child ∈ getChildren node →
     _stopNewline st = false → _inlineBuffer st = [] →
     dispatch child st = closeBlock child (write (T child) st)) →
  (∀ i, openEnded (Str.or_else (firstDelimFn i) delim)) →
  Forall (fun child => Str.endsWithNewline (T child) = false)
    (getChildren node) →
  _closed st = None →
  _stopNewline st = false →
  _inlineBuffer st = [] →
  RevB.convertList dispatch node delim firstDelimFn st =
    match getChildren node with
    | [] => st
    | _ :: _ =>
        {| _delim := _delim st;
           _result :=
             _result st +:+ (if isInBlank st then _delim st else "") +:+
             joinWith (Str.nl +:+ _delim st)
               (listItems firstDelimFn delim T 0 (getChildren node));
           _closed := Some node; _stopNewline := false;
           _inlineBuffer := [] |}
    end ∧
  RevA.convertList dispatch node delim firstDelimFn st =
    RevB.convertList dispatch node delim firstDelimFn st.
Proof.
  intros Hd Hm HT Hc Hs Hb. split; [|reflexivity].
  destruct st as [d0 r cl s buf]. simpl in Hc, Hs, Hb. subst cl s buf.
  unfold RevB.convertList, getClosed. cbn [_closed].
  assert (Hflush : flushClose 1 (mkState d0 r None false []) =
                   mkState d0 r None false []) by done.
  rewrite Hflush. clear Hflush.
  destruct (getChildren node) as [|child children] eqn:Hchildren; [done|].
  apply Forall_cons in HT as [Hchild HT].
  cbn [RevB.convertList_children].
  rewrite (wrapBlock_item dispatch T node child delim (firstDelimFn 0));
    [|intros st; apply Hd; by constructor|done].
  rewrite (convertList_rest dispatch T node delim firstDelimFn children 0 d0
             _ node).
  - unfold isInBlank. cbn [_result _delim listItems]. f_equal.
    + by do 2 rewrite joinWith_prefix.
    + by destruct children.
  - intros c st Hc. apply Hd. by right.
  - done.
  - done.
  - rewrite <-!StrFacts.app_assoc. rewrite StrFacts.app_assoc.
    apply test_blank_app; by apply openEnded_app.
Qed.

End EndToEnd.

(** ** The properties above on concrete documents *)

Lemma sample_distinct : @distinctTypeNames Sample.host.
Proof.
  unfold distinctTypeNames. simpl.
  apply (bool_decide_unpack _). vm_compute. exact I.
Qed.

Lemma sample_paragraph_block (children : list Sample.Node) :
  Forall (fun t => Sample.typeName t = "text" ∧ isTextNode t = true) children →
  @plainBlock Sample.host (Sample.Paragraph children).
Proof. intros Hc. split; [by split|]. left. by repeat split. Qed.

Lemma sample_heading_block (tag : string) (children : list Sample.Node) :
  Forall (fun t => Sample.typeName t = "text" ∧ isTextNode t = true) children →
  @plainBlock Sample.host (Sample.Heading tag children).
Proof. intros Hc. split; [by split|]. right. by repeat split. Qed.

Lemma flushClose_fires_witness :
  let node := Sample.Paragraph [] in
  let st := @mkState Sample.host "> " "a" (Some node) false [] in
  _stopNewline st = false ∧
  _closed st = Some node ∧
  flushClose 3 st =
    @mkState Sample.host "> "
      ("a" +:+ Str.nl +:+ ">" +:+ Str.nl +:+ ">" +:+ Str.nl) None false [] ∧
  isInBlank (flushClose 3 st) = true.
Proof.
  intros node st. split; [reflexivity|]. split; [reflexivity|].
  destruct (@flushClose_fires Sample.host 3 st node eq_refl eq_refl)
    as [Heq Hblank].
  split; [rewrite Heq; reflexivity|exact Hblank].
Defined.

Lemma write_settled_witness :
  let st := @mkState Sample.host "> " ("a" +:+ Str.nl) None false [] in
  settled st ∧
  write "b" st =
    @mkState Sample.host "> " ("a" +:+ Str.nl +:+ "> b") None false [] ∧
  settled (write "b" st).
Proof.
  intros st.
  assert (Hst : settled st) by (left; reflexivity).
  destruct (@write_settled Sample.host "b" st Hst) as [Heq Hafter].
  split; [exact Hst|]. split; [rewrite Heq; reflexivity|exact Hafter].
Defined.

Lemma write_after_block_witness :
  let node := Sample.Paragraph [] in
  let st := @mkState Sample.host "> " "a" (Some node) false [] in
  _stopNewline st = false ∧
  _closed st = Some node ∧
  write "b" st =
    @mkState Sample.host "> "
      ("a" +:+ Str.nl +:+ ">" +:+ Str.nl +:+ "> b") None false [].
Proof.
  intros node st. split; [reflexivity|]. split; [reflexivity|].
  rewrite (@write_after_block Sample.host "b" st node eq_refl eq_refl).
  reflexivity.
Defined.

Lemma text_output_witness :
  let st := @mkState Sample.host "> " "" None false [] in
  settled st ∧
  text' ("a" +:+ Str.nl +:+ "b") st =
    @mkState Sample.host "> " ("> a" +:+ Str.nl +:+ "> b") None false [].
Proof.
  intros st.
  assert (Hst : settled st) by (left; reflexivity).
  split; [exact Hst|].
  rewrite (proj1 (@text_output Sample.host ("a" +:+ Str.nl +:+ "b") st Hst)).
  reflexivity.
Defined.

Lemma wrapBlock_text_witness :
  let node := Sample.Paragraph [] in
  let st := @newState Sample.host in
  settled st ∧
  Str.truthy (Str.or_else (default "" (Some "- ")) "  ") = true ∧
  Str.endsWithNewline (Str.or_else (default "" (Some "- ")) "  ") = false ∧
  _result (wrapBlock "  " (Some "- ") node
             (text' ("a" +:+ Str.nl +:+ "b")) st) =
    "- a" +:+ Str.nl +:+ "  b" ∧
  _closed (wrapBlock "  " (Some "- ") node
             (text' ("a" +:+ Str.nl +:+ "b")) st) = Some node.
Proof.
  intros node st.
  assert (Hst : settled st) by (left; reflexivity).
  destruct (@wrapBlock_text Sample.host "  " (Some "- ") node
              ("a" +:+ Str.nl +:+ "b") st Hst eq_refl eq_refl)
    as (Hres & _ & Hclosed).
  split; [exact Hst|]. split; [reflexivity|]. split; [reflexivity|].
  split; [rewrite Hres; reflexivity|exact Hclosed].
Defined.

Lemma convertBlock_unhandled_witness :
  let collection := [@RevB.defaultMarkdownConversionMap Sample.host] in
  let node := Sample.Heading "h1" [Sample.Text "Title" []] in
  let st := @mkState Sample.host "" "x" None false [] in
  collection ≠ [] ∧
  @RevB.defaultMarkdownConversionMap Sample.host !! getType node = None ∧
  convertBlock 5 collection node st = st.
Proof.
  intros collection node st.
  assert (Hnone : @RevB.defaultMarkdownConversionMap Sample.host
                    !! getType node = None) by (vm_compute; reflexivity).
  split; [done|]. split; [exact Hnone|].
  apply (@convertBlock_unhandled Sample.host collection node 5 st).
  constructor; [|constructor]. by rewrite Hnone.
Defined.

Lemma first_map_keeps_witness :
  let node := Sample.Text "a" [] in
  let c := {| conversion := fun _ _ => write "zero"; priority := Some 0 |} in
  let later := [Sample.mapPlain; Sample.mapZero] in
  Sample.mapZero !! getType node ≫= (fun getConversion => getConversion node)
    = Some c ∧
  Forall (fun d => priorityOf d ≤ priorityOf c) (candidates later node) ∧
  selectConversion (Sample.mapZero :: later) node = Some c ∧
  _result (convertBlock 1 (Sample.mapZero :: later) node newState) = "zero".
Proof.
  intros node c later.
  assert (Hfirst : Sample.mapZero !! getType node ≫=
                     (fun getConversion => getConversion node) = Some c)
    by (vm_compute; reflexivity).
  assert (Hlater : Forall (fun d => priorityOf d ≤ priorityOf c)
                     (candidates later node)).
  { vm_compute. repeat constructor. }
  destruct (@first_map_keeps Sample.host Sample.mapZero later node c
              Hfirst Hlater) as [Hsel Hrun].
  split; [exact Hfirst|]. split; [exact Hlater|]. split; [exact Hsel|].
  rewrite Hrun. reflexivity.
Defined.

Lemma flushInline_decode_witness :
  let nodes := [Sample.Text "a" ["bold"]; Sample.Text "b" ["bold"; "italic"]] in
  let inlineBuffer := map (@textRunB Sample.host) nodes in
  coherent inlineBuffer ∧
  RevB.flushInline_result inlineBuffer = "**a*b***" ∧
  Tags.balanced Tags.matching [] (Tags.flushInline_tokens inlineBuffer) = true ∧
  decode [] (Tags.flushInline_tokens inlineBuffer) =
    [mkInline "a" [Sample.bold]; mkInline "b" [Sample.bold; Sample.italic]].
Proof.
  intros nodes inlineBuffer.
  assert (Hco : coherent inlineBuffer)
    by apply (@ReconcilerMore.textRuns_coherent Sample.host).
  destruct (ReconcilerMore.flushInline_decode inlineBuffer Hco)
    as (Hrender & Hbal & Hdec).
  split; [exact Hco|]. split; [reflexivity|]. split; [exact Hbal|].
  rewrite Hdec. reflexivity.
Defined.

Lemma blocks_one_blank_line_A_witness :
  let root :=
    Sample.Paragraph
      [Sample.Heading "h2" [Sample.Text "Title" []];
       Sample.Paragraph [Sample.Text "a" ["bold"]; Sample.Text "b" []];
       Sample.Paragraph []] in
  @distinctTypeNames Sample.host ∧
  Forall plainBlock (getChildren root) ∧
  Forall (fun p => openEnded (blockTextA p)) (getChildren root) ∧
  RevA.createGenerateMarkdownFromNode 2 [] root =
    "## Title" +:+ Str.nl +:+ Str.nl +:+ "**a**b" +:+ Str.nl +:+ Str.nl +:+
    "<br>".
Proof.
  intros root.
  assert (Hblocks : Forall plainBlock (getChildren root)).
  { repeat constructor;
      first [apply sample_heading_block|apply sample_paragraph_block];
      by repeat constructor. }
  assert (Hopen : Forall (fun p => openEnded (blockTextA p)) (getChildren root))
    by (repeat constructor).
  split; [exact sample_distinct|]. split; [exact Hblocks|].
  split; [exact Hopen|].
  pose proof (@blocks_one_blank_line_A Sample.host 0 root sample_distinct
                Hblocks Hopen) as Heq.
  change (2 + 0) with 2 in Heq. rewrite Heq. reflexivity.
Defined.

Lemma blocks_one_blank_line_B_witness :
  let root :=
    Sample.Paragraph
      [Sample.Heading "h2" [Sample.Text "Title" []];
       Sample.Paragraph [Sample.Text "a" ["bold"]; Sample.Text "b" []];
       Sample.Paragraph []] in
  @distinctTypeNames Sample.host ∧
  Forall plainBlock (getChildren root) ∧
  Forall (fun p => openEnded (blockTextB p)) (getChildren root) ∧
  RevB.createGenerateMarkdownFromNode 2 [RevB.headingMarkdownConversionMap]
    root =
    "## Title" +:+ Str.nl +:+ Str.nl +:+ "**a**b" +:+ Str.nl +:+ Str.nl +:+
    "<br>".
Proof.
  intros root.
  assert (Hblocks : Forall plainBlock (getChildren root)).
  { repeat constructor;
      first [apply sample_heading_block|apply sample_paragraph_block];
      by repeat constructor. }
  assert (Hopen : Forall (fun p => openEnded (blockTextB p)) (getChildren root))
    by (repeat constructor).
  split; [exact sample_distinct|]. split; [exact Hblocks|].
  split; [exact Hopen|].
  pose proof (@blocks_one_blank_line_B Sample.host 0 root sample_distinct
                Hblocks Hopen) as Heq.
  change (2 + 0) with 2 in Heq. rewrite Heq. reflexivity.
Defined.

Lemma tableCell_paragraphs_witness :
  let node :=
    Sample.Paragraph
      [Sample.Paragraph [Sample.Text "a" []];
       Sample.Paragraph [Sample.Text "b" ["italic"]]] in
  let st := @mkState Sample.host "" "| " (Some (Sample.Paragraph [])) false [] in
  @distinctTypeNames Sample.host ∧
  Forall textParagraph (getChildren node) ∧
  _delim st = "" ∧
  _inlineBuffer st = [] ∧
  RevA.convertTableCell
    (convertBlock 2 [RevA.defaultMarkdownConversionMap]) node st =
    @mkState Sample.host "" "| a*b*" None false [] ∧
  RevB.convertTableCell
    (convertBlock 2
       [RevB.defaultMarkdownConversionMap; RevB.headingMarkdownConversionMap])
    node st =
    @mkState Sample.host "" "| a*b*" None false [].
Proof.
  intros node st.
  assert (Hps : Forall textParagraph (getChildren node)).
  { repeat constructor. }
  destruct (@tableCell_paragraphs Sample.host 0 node st sample_distinct Hps
              eq_refl eq_refl) as [HA HB].
  change (2 + 0) with 2 in HA, HB.
  split; [exact sample_distinct|]. split; [exact Hps|].
  split; [reflexivity|]. split; [reflexivity|].
  split; [rewrite HA; reflexivity|rewrite HB; reflexivity].
Defined.

Lemma link_of_texts_witness :
  let node := Sample.Link "https://x.y" (Some "t") [Sample.Text "a" ["bold"]] in
  let st := @mkState Sample.host "" "see " None false [mkInline "b" []] in
  @distinctTypeNames Sample.host ∧
  getType node = LinkNode_getType ∧
  isLinkNode node = true ∧
  isAutoLinkNode node && getIsUnlinked node = false ∧
  Forall (fun t => getType t = TextNode_getType ∧ isTextNode t = true)
    (getChildren node) ∧
  convertBlock 2 [RevA.defaultMarkdownConversionMap] node st =
    @mkState Sample.host ""
      ("see b[**a**](https://x.y " +:+ Str.dquote +:+ "t" +:+ Str.dquote +:+ ")")
      None false [].
Proof.
  intros node st.
  assert (Hts : Forall (fun t => getType t = TextNode_getType ∧
                                 isTextNode t = true) (getChildren node))
    by (repeat constructor).
  destruct (@link_of_texts Sample.host 0 node st sample_distinct
              eq_refl eq_refl eq_refl Hts) as [Heq _].
  change (2 + 0) with 2 in Heq.
  split; [exact sample_distinct|]. split; [reflexivity|].
  split; [reflexivity|]. split; [reflexivity|]. split; [exact Hts|].
  rewrite Heq. reflexivity.
Defined.

Lemma convertList_items_witness :
  let dispatch :=
    convertBlock 2
      [@RevB.defaultMarkdownConversionMap Sample.host;
       RevB.headingMarkdownConversionMap] in
  let node :=
    Sample.Paragraph
      [Sample.Paragraph [Sample.Text "a" []];
       Sample.Paragraph [Sample.Text "b" []]] in
  let firstDelimFn := fun _ : nat => "- " in
  let st := @mkState Sample.host "> " ("x" +:+ Str.nl) None false [] in
  (∀ child st, child ∈ getChildren node →
     _stopNewline st = false → _inlineBuffer st = [] →
     dispatch child st = closeBlock child (write (blockTextB child) st)) ∧
  (∀ i, openEnded (Str.or_else (firstDelimFn i) "  ")) ∧
  Forall (fun child => Str.endsWithNewline (blockTextB child) = false)
    (getChildren node) ∧
  RevB.convertList dispatch node "  " firstDelimFn st =
    @mkState Sample.host "> "
      ("x" +:+ Str.nl +:+ "> - a" +:+ Str.nl +:+ "> - b") (Some node) false [].
Proof.
  intros dispatch node firstDelimFn st.
  assert (Hd : ∀ child st, child ∈ getChildren node →
            _stopNewline st = false → _inlineBuffer st = [] →
            dispatch child st = closeBlock child (write (blockTextB child) st)).
  { intros child st' Hchild Hs Hb.
    apply (@block_step_B Sample.host 0 child st' sample_distinct); [|done..].
    simpl in Hchild.
    apply elem_of_cons in Hchild as [->|Hchild];
      [|apply elem_of_cons in Hchild as [->|Hchild];
        [|by apply elem_of_nil in Hchild]];
      apply sample_paragraph_block; by repeat constructor. }
  assert (Hm : ∀ i, openEnded (Str.or_else (firstDelimFn i) "  "))
    by (intros i; split; reflexivity).
  assert (HT : Forall (fun child =>
                         Str.endsWithNewline (blockTextB child) = false)
                 (getChildren node)) by (repeat constructor).
  destruct (@convertList_items Sample.host dispatch blockTextB node "  "
              firstDelimFn st Hd Hm HT eq_refl eq_refl eq_refl) as [Heq _].
  split; [exact Hd|]. split; [exact Hm|]. split; [exact HT|].
  rewrite Heq. reflexivity.
Defined.
